(** * saq: a shallow embedding of the queue engine (src/saq/queue.py, src/saq/job.py)

    The Python code talks to a Redis server.  The server is modelled as a
    record of typed key spaces ([Redis]) with the documented semantics of the
    commands the code issues ([exec_cmd]); the Python methods are functions
    in a state-and-exception monad over a [World]: the server, the [Queue]
    object [self], the clock readings and a trace of every round trip. *)

From Stdlib Require Import ZArith QArith String Ascii List Lia.
From stdpp Require Import base option list gmap strings fin_maps sorting.

Open Scope Z_scope.

(** ** Python values *)

(** The values that travel through [kwargs], [result] and decoded records
    ([t.Any] in the source). *)
#[local] Unset Elimination Schemes.
Inductive PyVal :=
| PNone
| PBool (b : bool)
| PInt (z : Z)
| PFloat (q : Q)
| PStr (s : string)
| PList (l : list PyVal)
| PDict (d : list (string * PyVal)).
#[local] Set Elimination Schemes.

(** A [dict] with string keys: an association list in insertion order, keys
    unique. *)
Abbreviation pydict := (list (string * PyVal)).

Fixpoint dict_get {A} (k : string) (d : list (string * A)) : option A :=
  match d with
  | [] => None
  | (k', v) :: d' => if String.eqb k k' then Some v else dict_get k d'
  end.

(** [d[k] = v]: an existing key keeps its position, a new key goes last. *)
Fixpoint dict_set {A} (k : string) (v : A) (d : list (string * A)) : list (string * A) :=
  match d with
  | [] => [(k, v)]
  | (k', v') :: d' =>
      if String.eqb k k' then (k, v) :: d' else (k', v') :: dict_set k v d'
  end.

(** [d.pop(k, None)] as far as the dictionary goes. *)
Fixpoint dict_del {A} (k : string) (d : list (string * A)) : list (string * A) :=
  match d with
  | [] => []
  | (k', v') :: d' => if String.eqb k k' then d' else (k', v') :: dict_del k d'
  end.

(** ** job.py *)

Inductive Status := NEW | DEFERRED | QUEUED | ACTIVE | ABORTED | FAILED | COMPLETE.

#[export] Instance Status_eq_dec : EqDecision Status.
Proof. solve_decision. Defined.

(** [Status] is a [str] enum: the value is what is published and stored. *)
Definition Status_value (s : Status) : string :=
  match s with
  | NEW => "new" | DEFERRED => "deferred" | QUEUED => "queued"
  | ACTIVE => "active" | ABORTED => "aborted" | FAILED => "failed"
  | COMPLETE => "complete"
  end.

Definition Status_of_value (s : string) : option Status :=
  if String.eqb s "new" then Some NEW
  else if String.eqb s "deferred" then Some DEFERRED
  else if String.eqb s "queued" then Some QUEUED
  else if String.eqb s "active" then Some ACTIVE
  else if String.eqb s "aborted" then Some ABORTED
  else if String.eqb s "failed" then Some FAILED
  else if String.eqb s "complete" then Some COMPLETE
  else None.

(** Modelled from the spec: TERMINAL_STATUSES and
    UNSUCCESSFUL_TERMINAL_STATUSES are imported by queue.py from saq.job but
    src/saq/job.py does not define them; spec section 3 gives
    Terminal = {COMPLETE, FAILED, ABORTED} and
    Unsuccessful-terminal = {FAILED, ABORTED}. *)
Definition TERMINAL_STATUSES : list Status := [COMPLETE; FAILED; ABORTED].
Definition UNSUCCESSFUL_TERMINAL_STATUSES : list Status := [FAILED; ABORTED].

(** The [Job] dataclass.  queue.py reads and writes [key], [queued] and
    [progress], which src/saq/job.py (an older revision, with [job_id] and
    [enqueued]) does not declare: the record has the fields of spec section 3.
    [queue] holds the name of the [Queue] object the job is bound to. *)
Record Job := mkJob {
  function : string;
  kwargs : option pydict;
  queue : option string;
  key : string;
  timeout : Z;
  heartbeat : Z;
  retries : Z;
  ttl : Z;
  scheduled : Z;
  attempts : Z;
  completed : Z;
  queued : Z;
  started : Z;
  touched : Z;
  progress : Q;
  result : PyVal;
  error : option string;
  status : Status
}.

(** The dataclass defaults. *)
Definition Job_default (fn : string) (k : string) : Job :=
  {| function := fn; kwargs := None; queue := None; key := k;
     timeout := 10; heartbeat := 0; retries := 1; ttl := 60; scheduled := 0;
     attempts := 0; completed := 0; queued := 0; started := 0; touched := 0;
     progress := 0%Q; result := PNone; error := None; status := NEW |}.

Definition set_status (s : Status) (j : Job) : Job :=
  {| function := function j; kwargs := kwargs j; queue := queue j; key := key j;
     timeout := timeout j; heartbeat := heartbeat j; retries := retries j;
     ttl := ttl j; scheduled := scheduled j; attempts := attempts j;
     completed := completed j; queued := queued j; started := started j;
     touched := touched j; progress := progress j; result := result j;
     error := error j; status := s |}.

Definition set_result (r : PyVal) (j : Job) : Job :=
  {| function := function j; kwargs := kwargs j; queue := queue j; key := key j;
     timeout := timeout j; heartbeat := heartbeat j; retries := retries j;
     ttl := ttl j; scheduled := scheduled j; attempts := attempts j;
     completed := completed j; queued := queued j; started := started j;
     touched := touched j; progress := progress j; result := r;
     error := error j; status := status j |}.

Definition set_error (e : option string) (j : Job) : Job :=
  {| function := function j; kwargs := kwargs j; queue := queue j; key := key j;
     timeout := timeout j; heartbeat := heartbeat j; retries := retries j;
     ttl := ttl j; scheduled := scheduled j; attempts := attempts j;
     completed := completed j; queued := queued j; started := started j;
     touched := touched j; progress := progress j; result := result j;
     error := e; status := status j |}.

Definition set_completed (t : Z) (j : Job) : Job :=
  {| function := function j; kwargs := kwargs j; queue := queue j; key := key j;
     timeout := timeout j; heartbeat := heartbeat j; retries := retries j;
     ttl := ttl j; scheduled := scheduled j; attempts := attempts j;
     completed := t; queued := queued j; started := started j;
     touched := touched j; progress := progress j; result := result j;
     error := error j; status := status j |}.

Definition set_started (t : Z) (j : Job) : Job :=
  {| function := function j; kwargs := kwargs j; queue := queue j; key := key j;
     timeout := timeout j; heartbeat := heartbeat j; retries := retries j;
     ttl := ttl j; scheduled := scheduled j; attempts := attempts j;
     completed := completed j; queued := queued j; started := t;
     touched := touched j; progress := progress j; result := result j;
     error := error j; status := status j |}.

Definition set_touched (t : Z) (j : Job) : Job :=
  {| function := function j; kwargs := kwargs j; queue := queue j; key := key j;
     timeout := timeout j; heartbeat := heartbeat j; retries := retries j;
     ttl := ttl j; scheduled := scheduled j; attempts := attempts j;
     completed := completed j; queued := queued j; started := started j;
     touched := t; progress := progress j; result := result j;
     error := error j; status := status j |}.

Definition set_queued (t : Z) (j : Job) : Job :=
  {| function := function j; kwargs := kwargs j; queue := queue j; key := key j;
     timeout := timeout j; heartbeat := heartbeat j; retries := retries j;
     ttl := ttl j; scheduled := scheduled j; attempts := attempts j;
     completed := completed j; queued := t; started := started j;
     touched := touched j; progress := progress j; result := result j;
     error := error j; status := status j |}.

Definition set_progress (p : Q) (j : Job) : Job :=
  {| function := function j; kwargs := kwargs j; queue := queue j; key := key j;
     timeout := timeout j; heartbeat := heartbeat j; retries := retries j;
     ttl := ttl j; scheduled := scheduled j; attempts := attempts j;
     completed := completed j; queued := queued j; started := started j;
     touched := touched j; progress := p; result := result j;
     error := error j; status := status j |}.

Definition set_queue (n : option string) (j : Job) : Job :=
  {| function := function j; kwargs := kwargs j; queue := n; key := key j;
     timeout := timeout j; heartbeat := heartbeat j; retries := retries j;
     ttl := ttl j; scheduled := scheduled j; attempts := attempts j;
     completed := completed j; queued := queued j; started := started j;
     touched := touched j; progress := progress j; result := result j;
     error := error j; status := status j |}.

(** ** Exceptions and results *)

Inductive Exn :=
| ValueError (msg : string)
| AssertionError (msg : string)
| AttributeError (msg : string)
| KeyError (k : string)
| TypeError (msg : string)
| JobError (job : Job)
| ResponseError (msg : string)
| OtherError (msg : string).

Inductive Res (A : Type) :=
| Ok (a : A)
| Raise (e : Exn).
Arguments Ok {A} a.
Arguments Raise {A} e.

(** ** The Redis server

    Key spaces are typed: the three collection keys of the queue
    ([saq:Q:incomplete], [saq:Q:queued], [saq:Q:active]) are fields of their
    own; every string-valued key (job records, abort markers, the schedule
    and sweep locks) lives in [r_strings] under its full name.  No job id
    is one of the collection or lock keys (lemma [job_id_not_a_queue_key]).
    [r_published] is the log of PUBLISH calls, oldest first. *)

Record Entry := mkEntry { e_val : string; e_ttl : option Z }.

Record Redis := mkRedis {
  r_strings : gmap string Entry;
  r_incomplete : gmap string Q;
  r_queued : list string;
  r_active : list string;
  r_published : list (string * string);
  r_version : list Z
}.

Inductive ListKey := K_queued | K_active.
Inductive Side := LEFT | RIGHT.

Inductive Cmd :=
| GET (k : string)
| MGET (ks : list string)
| SET (k v : string)
| SETEX (k : string) (seconds : Z) (v : string)
| DEL (k : string)
| EXPIRE (k : string) (seconds : Z)
| EXISTS (k : string)
| LREM (l : ListKey) (count : Z) (v : string)
| RPUSH (l : ListKey) (vs : list string)
| LRANGE (l : ListKey) (start stop : Z)
| LLEN (l : ListKey)
| BLMOVE (src dst : ListKey) (wherefrom whereto : Side) (tmo : Z)
| BRPOPLPUSH (src dst : ListKey) (tmo : Z)
| ZADD (items : list (Q * string))
| ZREM (member : string)
| ZSCORE (member : string)
| ZRANGEBYSCORE (lo hi : Q)
| ZCARD
| PUBLISH (channel message : string)
| INFO.

#[local] Unset Elimination Schemes.
Inductive Reply :=
| RNil
| ROk
| RInt (n : Z)
| RBulk (s : string)
| RDouble (q : Q)
| RArray (l : list Reply)
| RErr (msg : string).
#[local] Set Elimination Schemes.

Definition get_list (l : ListKey) (r : Redis) : list string :=
  match l with K_queued => r_queued r | K_active => r_active r end.

Definition with_strings (m : gmap string Entry) (r : Redis) : Redis :=
  {| r_strings := m; r_incomplete := r_incomplete r; r_queued := r_queued r;
     r_active := r_active r; r_published := r_published r;
     r_version := r_version r |}.

Definition with_incomplete (m : gmap string Q) (r : Redis) : Redis :=
  {| r_strings := r_strings r; r_incomplete := m; r_queued := r_queued r;
     r_active := r_active r; r_published := r_published r;
     r_version := r_version r |}.

Definition with_list (l : ListKey) (xs : list string) (r : Redis) : Redis :=
  match l with
  | K_queued =>
      {| r_strings := r_strings r; r_incomplete := r_incomplete r;
         r_queued := xs; r_active := r_active r;
         r_published := r_published r; r_version := r_version r |}
  | K_active =>
      {| r_strings := r_strings r; r_incomplete := r_incomplete r;
         r_queued := r_queued r; r_active := xs;
         r_published := r_published r; r_version := r_version r |}
  end.

Definition with_published (p : list (string * string)) (r : Redis) : Redis :=
  {| r_strings := r_strings r; r_incomplete := r_incomplete r;
     r_queued := r_queued r; r_active := r_active r; r_published := p;
     r_version := r_version r |}.

(** LREM with a positive count: drop the first [n] occurrences from the head. *)
Fixpoint remove_first_n (n : nat) (v : string) (xs : list string) : list string :=
  match n, xs with
  | O, _ => xs
  | _, [] => []
  | S n', x :: xs' =>
      if String.eqb x v then remove_first_n n' v xs'
      else x :: remove_first_n n v xs'
  end.

Definition remove_all (v : string) (xs : list string) : list string :=
  List.filter (fun x => negb (String.eqb x v)) xs.

(** LREM key count value: count > 0 removes from the head, count < 0 from the
    tail, count = 0 removes every occurrence. *)
Definition lrem (count : Z) (v : string) (xs : list string) : list string :=
  if count =? 0 then remove_all v xs
  else if 0 <? count then remove_first_n (Z.to_nat count) v xs
  else rev (remove_first_n (Z.to_nat (- count)) v (rev xs)).

(** LRANGE key start stop, with Redis' negative indices. *)
Definition lrange (start stop : Z) (xs : list string) : list string :=
  let len := Z.of_nat (length xs) in
  let a := if start <? 0 then Z.max (len + start) 0 else start in
  let b := if stop <? 0 then len + stop else Z.min stop (len - 1) in
  if b <? a then []
  else firstn (Z.to_nat (b - a + 1)) (skipn (Z.to_nat a) xs).

Definition pop_side (s : Side) (xs : list string) : option (string * list string) :=
  match s with
  | LEFT => match xs with [] => None | x :: xs' => Some (x, xs') end
  | RIGHT =>
      match rev xs with [] => None | x :: sx => Some (x, rev sx) end
  end.

Definition push_side (s : Side) (x : string) (xs : list string) : list string :=
  match s with LEFT => x :: xs | RIGHT => xs ++ [x] end.

(** Sorted-set order: by score, ties by member. *)
Definition zset_leb (a b : string * Q) : bool :=
  match (snd a ?= snd b)%Q with
  | Lt => true
  | Gt => false
  | Eq => String.leb (fst a) (fst b)
  end.

Definition in_score_range (lo hi : Q) (e : string * Q) : bool :=
  Qle_bool lo (snd e) && Qle_bool (snd e) hi.

Definition zrangebyscore (lo hi : Q) (m : gmap string Q) : list string :=
  List.map fst
    (merge_sort (fun a b => Is_true (zset_leb a b))
       (List.filter (in_score_range lo hi) (map_to_list m))).

Definition zadd (items : list (Q * string)) (m : gmap string Q) : gmap string Q :=
  fold_left (fun acc it => <[snd it := fst it]> acc) items m.

Definition bool_to_Z (b : bool) : Z := if b then 1 else 0.

Definition reply_of_get (o : option Entry) : Reply :=
  match o with Some e => RBulk (e_val e) | None => RNil end.

(** Atomic move of one element between two lists (BLMOVE / BRPOPLPUSH).  On
    an empty source the blocking call ends with a nil reply when its timeout
    expires; with timeout 0 the real call would instead keep waiting for
    another client to push. *)
Definition lmove (src dst : ListKey) (wherefrom whereto : Side) (r : Redis)
  : Redis * Reply :=
  match pop_side wherefrom (get_list src r) with
  | None => (r, RNil)
  | Some (x, rest) =>
      let r1 := with_list src rest r in
      (with_list dst (push_side whereto x (get_list dst r1)) r1, RBulk x)
  end.

(** The commands the queue issues.  A command the server rejects (SETEX with
    a non-positive expiry; MGET, RPUSH or ZADD without arguments) answers
    with an error and changes nothing. *)
Definition exec_cmd (c : Cmd) (r : Redis) : Redis * Reply :=
  match c with
  | GET k => (r, reply_of_get (r_strings r !! k))
  | MGET [] => (r, RErr "wrong number of arguments for 'mget' command")
  | MGET ks => (r, RArray (List.map (fun k => reply_of_get (r_strings r !! k)) ks))
  | SET k v => (with_strings (<[k := mkEntry v None]> (r_strings r)) r, ROk)
  | SETEX k s v =>
      if s <=? 0 then (r, RErr "invalid expire time in 'setex' command")
      else (with_strings (<[k := mkEntry v (Some s)]> (r_strings r)) r, ROk)
  | DEL k =>
      (with_strings (delete k (r_strings r)) r,
       RInt (bool_to_Z (bool_decide (is_Some (r_strings r !! k)))))
  | EXPIRE k s =>
      match r_strings r !! k with
      | None => (r, RInt 0)
      | Some e =>
          if s <=? 0 then (with_strings (delete k (r_strings r)) r, RInt 1)
          else (with_strings (<[k := mkEntry (e_val e) (Some s)]> (r_strings r)) r,
                RInt 1)
      end
  | EXISTS k => (r, RInt (bool_to_Z (bool_decide (is_Some (r_strings r !! k)))))
  | LREM l count v =>
      let xs := get_list l r in
      let xs' := lrem count v xs in
      (with_list l xs' r, RInt (Z.of_nat (length xs) - Z.of_nat (length xs')))
  | RPUSH l [] => (r, RErr "wrong number of arguments for 'rpush' command")
  | RPUSH l vs =>
      let xs' := get_list l r ++ vs in
      (with_list l xs' r, RInt (Z.of_nat (length xs')))
  | LRANGE l a b => (r, RArray (List.map RBulk (lrange a b (get_list l r))))
  | LLEN l => (r, RInt (Z.of_nat (length (get_list l r))))
  | BLMOVE src dst wf wt _ => lmove src dst wf wt r
  | BRPOPLPUSH src dst _ => lmove src dst RIGHT LEFT r
  | ZADD [] => (r, RErr "wrong number of arguments for 'zadd' command")
  | ZADD items =>
      let m := r_incomplete r in
      let m' := zadd items m in
      (with_incomplete m' r, RInt (Z.of_nat (size m') - Z.of_nat (size m)))
  | ZREM member =>
      (with_incomplete (delete member (r_incomplete r)) r,
       RInt (bool_to_Z (bool_decide (is_Some (r_incomplete r !! member)))))
  | ZSCORE member =>
      (r, match r_incomplete r !! member with
          | Some q => RDouble q
          | None => RNil
          end)
  | ZRANGEBYSCORE lo hi =>
      (r, RArray (List.map RBulk (zrangebyscore lo hi (r_incomplete r))))
  | ZCARD => (r, RInt (Z.of_nat (size (r_incomplete r))))
  | PUBLISH ch msg => (with_published (r_published r ++ [(ch, msg)]) r, RInt 0)
  | INFO => (r, RArray (List.map RInt (r_version r)))
  end.

(** A MULTI/EXEC transaction: the queued commands run back to back; one
    that fails does not stop or undo the others. *)
Fixpoint exec_cmds (cs : list Cmd) (r : Redis) : Redis * list Reply :=
  match cs with
  | [] => (r, [])
  | c :: cs' =>
      let '(r1, rep) := exec_cmd c r in
      let '(r2, reps) := exec_cmds cs' r1 in
      (r2, rep :: reps)
  end.

(** ** Job: construction, attributes, codec *)

Definition res_bind {A B} (r : Res A) (f : A -> Res B) : Res B :=
  match r with Ok a => f a | Raise e => Raise e end.

(** [Job.__dataclass_fields__]. *)
Definition dataclass_fields : list string :=
  ["function"; "kwargs"; "queue"; "key"; "timeout"; "heartbeat"; "retries";
   "ttl"; "scheduled"; "attempts"; "completed"; "queued"; "started";
   "touched"; "progress"; "result"; "error"; "status"]%string.

Definition is_field (k : string) : bool :=
  existsb (String.eqb k) dataclass_fields.

Definition as_int (k : string) (v : PyVal) : Res Z :=
  match v with PInt z => Ok z | _ => Raise (TypeError k) end.

Definition set_int (k : string) (v : PyVal) (f : Z -> Job -> Job) (j : Job) : Res Job :=
  res_bind (as_int k v) (fun z => Ok (f z j)).

(** [setattr(job, k, v)] on the typed record.  Python stores any value; a
    value that is not of the field's declared type has no counterpart in
    [Job] and is answered with [TypeError]. *)
Definition setattr (k : string) (v : PyVal) (j : Job) : Res Job :=
  if String.eqb k "function" then
    match v with
    | PStr s =>
        Ok {| function := s; kwargs := kwargs j; queue := queue j; key := key j;
              timeout := timeout j; heartbeat := heartbeat j; retries := retries j;
              ttl := ttl j; scheduled := scheduled j; attempts := attempts j;
              completed := completed j; queued := queued j; started := started j;
              touched := touched j; progress := progress j; result := result j;
              error := error j; status := status j |}
    | _ => Raise (TypeError k)
    end
  else if String.eqb k "kwargs" then
    match v with
    | PNone | PDict _ =>
        Ok {| function := function j;
              kwargs := match v with PDict d => Some d | _ => None end;
              queue := queue j; key := key j;
              timeout := timeout j; heartbeat := heartbeat j; retries := retries j;
              ttl := ttl j; scheduled := scheduled j; attempts := attempts j;
              completed := completed j; queued := queued j; started := started j;
              touched := touched j; progress := progress j; result := result j;
              error := error j; status := status j |}
    | _ => Raise (TypeError k)
    end
  else if String.eqb k "queue" then
    match v with
    | PNone => Ok (set_queue None j)
    | PStr n => Ok (set_queue (Some n) j)
    | _ => Raise (TypeError k)
    end
  else if String.eqb k "key" then
    match v with
    | PStr s =>
        Ok {| function := function j; kwargs := kwargs j; queue := queue j; key := s;
              timeout := timeout j; heartbeat := heartbeat j; retries := retries j;
              ttl := ttl j; scheduled := scheduled j; attempts := attempts j;
              completed := completed j; queued := queued j; started := started j;
              touched := touched j; progress := progress j; result := result j;
              error := error j; status := status j |}
    | _ => Raise (TypeError k)
    end
  else if String.eqb k "timeout" then
    set_int k v (fun z j =>
        {| function := function j; kwargs := kwargs j; queue := queue j; key := key j;
           timeout := z; heartbeat := heartbeat j; retries := retries j;
           ttl := ttl j; scheduled := scheduled j; attempts := attempts j;
           completed := completed j; queued := queued j; started := started j;
           touched := touched j; progress := progress j; result := result j;
           error := error j; status := status j |}) j
  else if String.eqb k "heartbeat" then
    set_int k v (fun z j =>
        {| function := function j; kwargs := kwargs j; queue := queue j; key := key j;
           timeout := timeout j; heartbeat := z; retries := retries j;
           ttl := ttl j; scheduled := scheduled j; attempts := attempts j;
           completed := completed j; queued := queued j; started := started j;
           touched := touched j; progress := progress j; result := result j;
           error := error j; status := status j |}) j
  else if String.eqb k "retries" then
    set_int k v (fun z j =>
        {| function := function j; kwargs := kwargs j; queue := queue j; key := key j;
           timeout := timeout j; heartbeat := heartbeat j; retries := z;
           ttl := ttl j; scheduled := scheduled j; attempts := attempts j;
           completed := completed j; queued := queued j; started := started j;
           touched := touched j; progress := progress j; result := result j;
           error := error j; status := status j |}) j
  else if String.eqb k "ttl" then
    set_int k v (fun z j =>
        {| function := function j; kwargs := kwargs j; queue := queue j; key := key j;
           timeout := timeout j; heartbeat := heartbeat j; retries := retries j;
           ttl := z; scheduled := scheduled j; attempts := attempts j;
           completed := completed j; queued := queued j; started := started j;
           touched := touched j; progress := progress j; result := result j;
           error := error j; status := status j |}) j
  else if String.eqb k "scheduled" then
    set_int k v (fun z j =>
        {| function := function j; kwargs := kwargs j; queue := queue j; key := key j;
           timeout := timeout j; heartbeat := heartbeat j; retries := retries j;
           ttl := ttl j; scheduled := z; attempts := attempts j;
           completed := completed j; queued := queued j; started := started j;
           touched := touched j; progress := progress j; result := result j;
           error := error j; status := status j |}) j
  else if String.eqb k "attempts" then
    set_int k v (fun z j =>
        {| function := function j; kwargs := kwargs j; queue := queue j; key := key j;
           timeout := timeout j; heartbeat := heartbeat j; retries := retries j;
           ttl := ttl j; scheduled := scheduled j; attempts := z;
           completed := completed j; queued := queued j; started := started j;
           touched := touched j; progress := progress j; result := result j;
           error := error j; status := status j |}) j
  else if String.eqb k "completed" then set_int k v set_completed j
  else if String.eqb k "queued" then set_int k v set_queued j
  else if String.eqb k "started" then set_int k v set_started j
  else if String.eqb k "touched" then set_int k v set_touched j
  else if String.eqb k "progress" then
    match v with
    | PInt z => Ok (set_progress (inject_Z z) j)
    | PFloat q => Ok (set_progress q j)
    | _ => Raise (TypeError k)
    end
  else if String.eqb k "result" then Ok (set_result v j)
  else if String.eqb k "error" then
    match v with
    | PNone => Ok (set_error None j)
    | PStr s => Ok (set_error (Some s) j)
    | _ => Raise (TypeError k)
    end
  else if String.eqb k "status" then
    match v with
    | PStr s =>
        match Status_of_value s with
        | Some st => Ok (set_status st j)
        | None => Raise (TypeError k)
        end
    | _ => Raise (TypeError k)
    end
  else Raise (TypeError k).

Fixpoint setattrs (kvs : pydict) (j : Job) : Res Job :=
  match kvs with
  | [] => Ok j
  | (k, v) :: rest => res_bind (setattr k v j) (setattrs rest)
  end.

(** [Job] called with the keyword arguments [d], the generated [__init__]:
    [function] is required, [key]
    defaults to a fresh identifier ([fresh], from the default factory), the
    other fields to their defaults; an unknown keyword is a [TypeError]. *)
Definition Job_init (fresh : string) (d : pydict) : Res Job :=
  match dict_get "function" d with
  | None => Raise (TypeError "function")
  | Some _ => setattrs d (Job_default "" fresh)
  end.

(** Modelled from the spec: [Job.to_dict] is called by [Queue.serialize] but
    is not defined in src/saq/job.py; spec 4.1: the default codec output is
    "a JSON mapping including every field above", with the queue by name. *)
Definition to_dict (j : Job) : pydict :=
  [("function", PStr (function j));
   ("kwargs", match kwargs j with Some d => PDict d | None => PNone end);
   ("queue", match queue j with Some n => PStr n | None => PNone end);
   ("key", PStr (key j));
   ("timeout", PInt (timeout j));
   ("heartbeat", PInt (heartbeat j));
   ("retries", PInt (retries j));
   ("ttl", PInt (ttl j));
   ("scheduled", PInt (scheduled j));
   ("attempts", PInt (attempts j));
   ("completed", PInt (completed j));
   ("queued", PInt (queued j));
   ("started", PInt (started j));
   ("touched", PInt (touched j));
   ("progress", PFloat (progress j));
   ("result", result j);
   ("error", match error j with Some e => PStr e | None => PNone end);
   ("status", PStr (Status_value (status j)))]%string.

Definition ID_PREFIX : string := "saq:job:".

(** Modelled from the spec: [Job.id] and [Job.abort_id] are read by queue.py
    but not defined in src/saq/job.py; spec 4.1: the id of a job is
    [job_id(q, key)] for its queue and [abort_id = job_id + ":abort"].  A job
    bound to no queue has no id ([None.name] raises). *)
Definition Job_id (j : Job) : Res string :=
  match queue j with
  | Some n => Ok (ID_PREFIX +:+ n +:+ ":" +:+ key j)
  | None => Raise (AttributeError "queue")
  end.

Definition Job_abort_id (j : Job) : Res string :=
  res_bind (Job_id j) (fun i => Ok (i +:+ ":abort")).

(** Python truthiness of an [int]. *)
Definition truthy (z : Z) : bool := negb (z =? 0).

Definition Qgtb (a b : Q) : bool := negb (Qle_bool a b).

(** ** queue.py: the [Queue] object and the world it runs in *)

Record Queue := mkQueue {
  name : string;
  complete : Z;
  failed : Z;
  retried : Z;
  aborted : Z;
  _version : option (list Z);
  _dump : pydict -> string;
  _load : string -> Res pydict;
  _before_enqueues : list (nat * (Job -> Res Job))
}.

(** [Queue.__init__] (lines 72-101), as far as the fields above go. *)
Definition Queue_init (nm : string) (dump : pydict -> string)
    (load : string -> Res pydict) : Queue :=
  {| name := nm; complete := 0; failed := 0; retried := 0; aborted := 0;
     _version := None; _dump := dump; _load := load; _before_enqueues := [] |}.

Definition with_counters (c f rt a : Z) (q : Queue) : Queue :=
  {| name := name q; complete := c; failed := f; retried := rt; aborted := a;
     _version := _version q; _dump := _dump q; _load := _load q;
     _before_enqueues := _before_enqueues q |}.

Definition with_version (v : option (list Z)) (q : Queue) : Queue :=
  {| name := name q; complete := complete q; failed := failed q;
     retried := retried q; aborted := aborted q;
     _version := v; _dump := _dump q; _load := _load q;
     _before_enqueues := _before_enqueues q |}.

Definition with_before_enqueues (cbs : list (nat * (Job -> Res Job))) (q : Queue) : Queue :=
  {| name := name q; complete := complete q; failed := failed q;
     retried := retried q; aborted := aborted q;
     _version := _version q; _dump := _dump q; _load := _load q;
     _before_enqueues := cbs |}.

(** The Lua scripts, with the keys and arguments they are called with.  The
    collection keys (KEYS of [incomplete], [queued], [active]) are fixed by
    the typed key space and omitted. *)
Inductive Script :=
| EnqueueScript (job_id abort_id : string) (serialized : string) (scheduled_arg : Z)
| ScheduleScript (lock_key : string) (lock : Z) (now_seconds : Q)
| CleanupScript (lock_key : string) (lock : Z).

(** What the process did, in order: a callback awaited, a single command, a
    MULTI/EXEC pipeline, a script call. *)
Inductive Event :=
| EvCallback (cid : nat)
| EvCmd (c : Cmd)
| EvPipeline (cs : list Cmd)
| EvScript (s : Script).

(** [now_ms] is the reading of [utils.now()], [time_time] that of
    [time.time()] and [next_uuid] that of the key factory during the
    operation at hand. *)
Record World := mkWorld {
  redis : Redis;
  self : Queue;
  now_ms : Z;
  time_time : Q;
  next_uuid : string;
  trace : list Event
}.

Definition with_redis (r : Redis) (w : World) : World :=
  {| redis := r; self := self w; now_ms := now_ms w; time_time := time_time w;
     next_uuid := next_uuid w; trace := trace w |}.

Definition with_self (q : Queue) (w : World) : World :=
  {| redis := redis w; self := q; now_ms := now_ms w; time_time := time_time w;
     next_uuid := next_uuid w; trace := trace w |}.

Definition with_trace (t : list Event) (w : World) : World :=
  {| redis := redis w; self := self w; now_ms := now_ms w; time_time := time_time w;
     next_uuid := next_uuid w; trace := t |}.

(** State and exceptions: what was done before a [raise] stays done. *)
Definition M (A : Type) : Type := World -> Res A * World.

Definition ret {A} (a : A) : M A := fun w => (Ok a, w).
Definition raise {A} (e : Exn) : M A := fun w => (Raise e, w).
Definition bind {A B} (m : M A) (f : A -> M B) : M B :=
  fun w => match m w with
           | (Ok a, w') => f a w'
           | (Raise e, w') => (Raise e, w')
           end.
Definition lift {A} (r : Res A) : M A := fun w => (r, w).
Definition get : M World := fun w => (Ok w, w).
Definition log (e : Event) : M unit := fun w => (Ok tt, with_trace (trace w ++ [e]) w).

Notation "x <- c1 ;; c2" := (bind c1 (fun x => c2))
  (at level 100, c1 at next level, right associativity).
Notation "c1 ;; c2" := (bind c1 (fun _ => c2))
  (at level 100, right associativity).

(** The client raises [ResponseError] for an error reply. *)
Definition checked (rep : Reply) : Res Reply :=
  match rep with
  | RErr msg => Raise (ResponseError msg)
  | _ => Ok rep
  end.

Fixpoint first_error (reps : list Reply) : option string :=
  match reps with
  | [] => None
  | RErr msg :: _ => Some msg
  | _ :: reps' => first_error reps'
  end.

(** One command, one round trip. *)
Definition redis_call (c : Cmd) : M Reply :=
  fun w => let '(r, rep) := exec_cmd c (redis w) in
           (checked rep, with_trace (trace w ++ [EvCmd c]) (with_redis r w)).

(** [pipe. ... .execute()] with [transaction=True]: every command has run
    when the first error among the replies is raised. *)
Definition pipeline_execute (cs : list Cmd) : M (list Reply) :=
  fun w => let '(r, reps) := exec_cmds cs (redis w) in
           (match first_error reps with
            | Some msg => Raise (ResponseError msg)
            | None => Ok reps
            end,
            with_trace (trace w ++ [EvPipeline cs]) (with_redis r w)).

(** [redis.call] inside a script: an error reply ends the script with that
    error; what the script wrote before stays written. *)
Definition lua_call (c : Cmd) (k : Reply -> Redis -> Redis * Reply) (r : Redis)
  : Redis * Reply :=
  let '(r', rep) := exec_cmd c r in
  match rep with
  | RErr msg => (r', RErr msg)
  | _ => k rep r'
  end.

Definition lua_truthy (r : Reply) : bool :=
  match r with RNil => false | _ => true end.

Definition reply_is_int (r : Reply) (n : Z) : bool :=
  match r with RInt m => m =? n | _ => false end.

(** Python truthiness of a decoded reply. *)
Definition reply_truthy (r : Reply) : bool :=
  match r with
  | RNil => false
  | ROk => true
  | RInt n => negb (n =? 0)
  | RBulk s => negb (String.eqb s "")
  | RDouble q => negb (Qeq_bool q 0)
  | RArray l => match l with [] => false | _ => true end
  | RErr _ => true
  end.

Definition bulk_items (r : Reply) : list string :=
  match r with
  | RArray l =>
      omap (fun x => match x with RBulk s => Some s | _ => None end) l
  | _ => []
  end.

Definition bulk_options (r : Reply) : list (option string) :=
  match r with
  | RArray l =>
      List.map (fun x => match x with RBulk s => Some s | _ => None end) l
  | _ => []
  end.

(** The enqueue script (queue.py lines 469-478); KEYS[1] = incomplete,
    KEYS[2] = job id, KEYS[3] = queued, KEYS[4] = abort id, ARGV[1] = the
    serialized job, ARGV[2] = [job.scheduled].  ARGV[2] is the decimal text
    of an [int]: it equals '0' exactly when the integer is 0. *)
Definition enqueue_script (KEYS2 KEYS4 ARGV1 : string) (ARGV2 : Z)
  : Redis -> Redis * Reply :=
  lua_call (ZSCORE KEYS2) (fun score =>
  if lua_truthy score then (fun r => (r, RNil))
  else
    lua_call (EXISTS KEYS4) (fun marker =>
    if reply_is_int marker 0 then
      lua_call (SET KEYS2 ARGV1) (fun _ =>
      lua_call (ZADD [(inject_Z ARGV2, KEYS2)]) (fun _ =>
      if ARGV2 =? 0
      then lua_call (RPUSH K_queued [KEYS2]) (fun _ r => (r, RInt 1))
      else (fun r => (r, RInt 1))))
    else (fun r => (r, RNil)))).

(** The schedule script (queue.py lines 229-244); KEYS[1] = schedule lock,
    KEYS[2] = incomplete, KEYS[3] = queued, ARGV[1] = lock, ARGV[2] = now in
    seconds.  Falling off the end returns nil. *)
Definition schedule_script (KEYS1 : string) (ARGV1 : Z) (ARGV2 : Q)
  : Redis -> Redis * Reply :=
  lua_call (EXISTS KEYS1) (fun held =>
  if reply_is_int held 0 then
    lua_call (SETEX KEYS1 ARGV1 "1") (fun _ =>
    lua_call (ZRANGEBYSCORE 1 ARGV2) (fun jobs =>
    match bulk_items jobs with
    | [] => (fun r => (r, jobs))
    | ids =>
        lua_call (ZADD (List.map (fun v => (0%Q, v)) ids)) (fun _ =>
        lua_call (RPUSH K_queued ids) (fun _ r => (r, jobs)))
    end))
  else (fun r => (r, RNil))).

(** The cleanup script (queue.py lines 257-260); KEYS[1] = sweep lock,
    KEYS[2] = active, ARGV[1] = lock. *)
Definition cleanup_script (KEYS1 : string) (ARGV1 : Z) : Redis -> Redis * Reply :=
  lua_call (EXISTS KEYS1) (fun held =>
  if reply_is_int held 0 then
    lua_call (SETEX KEYS1 ARGV1 "1") (fun _ =>
    lua_call (LRANGE K_active 0 (-1)) (fun ids r => (r, ids)))
  else (fun r => (r, RNil))).

Definition run_script (s : Script) (r : Redis) : Redis * Reply :=
  match s with
  | EnqueueScript k2 k4 a1 a2 => enqueue_script k2 k4 a1 a2 r
  | ScheduleScript k1 a1 a2 => schedule_script k1 a1 a2 r
  | CleanupScript k1 a1 => cleanup_script k1 a1 r
  end.

(** Calling a registered script: one atomic round trip. *)
Definition call_script (s : Script) : M Reply :=
  fun w => let '(r, rep) := run_script s (redis w) in
           (checked rep, with_trace (trace w ++ [EvScript s]) (with_redis r w)).

Definition utils_now : M Z := fun w => (Ok (now_ms w), w).

Definition modify_self (f : Queue -> Queue) : M unit :=
  fun w => (Ok tt, with_self (f (self w)) w).

(** Python compares tuples lexicographically; a proper prefix is smaller. *)
Fixpoint tuple_ltb (a b : list Z) : bool :=
  match a, b with
  | [], [] => false
  | [], _ :: _ => true
  | _ :: _, [] => false
  | x :: a', y :: b' => if x <? y then true else if y <? x then false else tuple_ltb a' b'
  end.

Definition ints_of (r : Reply) : list Z :=
  match r with
  | RArray l => omap (fun x => match x with RInt n => Some n | _ => None end) l
  | _ => []
  end.

(** The callback registry is a [dict] keyed by [id(callback)]. *)
Fixpoint cb_set {A} (cid : nat) (cb : A) (d : list (nat * A)) : list (nat * A) :=
  match d with
  | [] => [(cid, cb)]
  | (c, f) :: d' => if Nat.eqb cid c then (cid, cb) :: d' else (c, f) :: cb_set cid cb d'
  end.

Fixpoint cb_del {A} (cid : nat) (d : list (nat * A)) : list (nat * A) :=
  match d with
  | [] => []
  | (c, f) :: d' => if Nat.eqb cid c then d' else (c, f) :: cb_del cid d'
  end.

Definition register_before_enqueue (cid : nat) (callback : Job -> Res Job) : M unit :=
  modify_self (fun q => with_before_enqueues (cb_set cid callback (_before_enqueues q)) q).

Definition unregister_before_enqueue (cid : nat) : M unit :=
  modify_self (fun q => with_before_enqueues (cb_del cid (_before_enqueues q)) q).

Definition job_id (q : Queue) (job_key : string) : string :=
  ID_PREFIX +:+ name q +:+ ":" +:+ job_key.

Definition namespace (q : Queue) (k : string) : string :=
  "saq" +:+ ":" +:+ name q +:+ ":" +:+ k.

Definition serialize (q : Queue) (job : Job) : string := _dump q (to_dict job).

(** [Queue.deserialize] (lines 122-130).  [fresh] is the key the default
    factory would produce for a record that carries none. *)
Definition deserialize (q : Queue) (fresh : string) (job_bytes : option string)
  : Res (option Job) :=
  match job_bytes with
  | None => Ok None
  | Some EmptyString => Ok None
  | Some b =>
      res_bind (_load q b) (fun job_dict =>
        match dict_get "queue" job_dict with
        | None => Raise (KeyError "queue")
        | Some v =>
            if match v with PStr n => String.eqb n (name q) | _ => false end
            then res_bind (Job_init fresh (dict_del "queue" job_dict))
                   (fun j => Ok (Some (set_queue (Some (name q)) j)))
            else Raise (AssertionError "fetched by wrong queue")
        end)
  end.

(** [Queue._before_enqueue] (lines 112-114): the values of the registry, in
    dictionary order, each awaited before the next. *)
Fixpoint run_callbacks (cbs : list (nat * (Job -> Res Job))) (job : Job) : M Job :=
  match cbs with
  | [] => ret job
  | (cid, cb) :: rest =>
      log (EvCallback cid);;
      job' <- lift (cb job);;
      run_callbacks rest job'
  end.

Definition _before_enqueue (job : Job) : M Job :=
  w <- get;;
  run_callbacks (_before_enqueues (self w)) job.

Definition notify (job : Job) : M unit :=
  i <- lift (Job_id job);;
  redis_call (PUBLISH i (Status_value (status job)));;
  ret tt.

Definition update (job : Job) : M Job :=
  now <- utils_now;;
  let job := set_touched now job in
  i <- lift (Job_id job);;
  w <- get;;
  redis_call (SET i (serialize (self w) job));;
  notify job;;
  ret job.

Definition bulk_option (r : Reply) : option string :=
  match r with RBulk s => Some s | _ => None end.

Definition _get_job_by_id (i : string) : M (option Job) :=
  rep <- redis_call (GET i);;
  w <- get;;
  lift (deserialize (self w) (next_uuid w) (bulk_option rep)).

Definition job (job_key : string) : M (option Job) :=
  w <- get;;
  _get_job_by_id (job_id (self w) job_key).

Definition version : M (list Z) :=
  w <- get;;
  match _version (self w) with
  | Some v => ret v
  | None =>
      info <- redis_call INFO;;
      modify_self (with_version (Some (ints_of info)));;
      ret (ints_of info)
  end.

(** [Queue.finish] (lines 385-422); returns the job object as mutated. *)
Definition finish (job : Job) (st : Status) (res : PyVal) (err : option string)
  : M Job :=
  i <- lift (Job_id job);;
  now <- utils_now;;
  let job := set_completed now (set_error err (set_result res (set_status st job))) in
  let job := if decide (st = COMPLETE) then set_progress 1%Q job else job in
  w <- get;;
  pipeline_execute
    ([LREM K_active 1 i; ZREM i] ++
     [if 0 <? ttl job then SETEX i (ttl job) (serialize (self w) job)
      else if ttl job =? 0 then SET i (serialize (self w) job)
      else DEL i]);;
  modify_self (fun q =>
    match st with
    | COMPLETE => with_counters (complete q + 1) (failed q) (retried q) (aborted q) q
    | FAILED => with_counters (complete q) (failed q + 1) (retried q) (aborted q) q
    | ABORTED => with_counters (complete q) (failed q) (retried q) (aborted q + 1) q
    | _ => q
    end);;
  notify job;;
  ret job.

(** [Job.finish] (job.py lines 126-128) forwards to the queue the job is
    bound to.  The world holds one [Queue] object: a job bound to another
    queue is outside the model. *)
Definition Job_finish (job : Job) (st : Status) (res : PyVal) (err : option string)
  : M Job :=
  w <- get;;
  match queue job with
  | None => raise (AttributeError "finish")
  | Some n =>
      if String.eqb n (name (self w)) then finish job st res err
      else raise (OtherError "job bound to another queue")
  end.

(** [Queue.abort] (lines 344-359). *)
Definition abort (job : Job) (err : string) (ttl_ : Z) : M Job :=
  i <- lift (Job_id job);;
  a <- lift (Job_abort_id job);;
  reps <- pipeline_execute
            [LREM K_queued 0 i; ZREM i; EXPIRE i (ttl_ + 1); SETEX a ttl_ err];;
  let dequeued := hd RNil reps in
  if reply_truthy dequeued then
    job' <- Job_finish job ABORTED PNone (Some err);;
    redis_call (DEL a);;
    ret job'
  else
    redis_call (LREM K_active 0 i);;
    ret job.

(** [Queue.dequeue] (lines 424-437). *)
Definition dequeue (tmo : Z) : M (option Job) :=
  v <- version;;
  rep <- (if tuple_ltb v [6; 2; 0]
          then redis_call (BRPOPLPUSH K_queued K_active tmo)
          else redis_call (BLMOVE K_queued K_active RIGHT LEFT tmo));;
  match rep with
  | RBulk i => _get_job_by_id i
  | _ => ret None
  end.

Inductive JobOrFunc :=
| Func (f : string)
| AJob (j : Job).

(** Lines 448-454: known dataclass fields go to [job_kwargs], the rest into
    its ["kwargs"] entry. *)
Fixpoint split_kwargs (kw : pydict) (job_kwargs : pydict) : Res pydict :=
  match kw with
  | [] => Ok job_kwargs
  | (k, v) :: rest =>
      if is_field k then split_kwargs rest (dict_set k v job_kwargs)
      else
        match dict_get "kwargs" job_kwargs with
        | None => split_kwargs rest (dict_set "kwargs" (PDict [(k, v)]) job_kwargs)
        | Some (PDict d) =>
            split_kwargs rest (dict_set "kwargs" (PDict (dict_set k v d)) job_kwargs)
        | Some _ => Raise (TypeError "kwargs")
        end
  end.

(** [Queue.enqueue], lines 448-483: the job object as it stands when the
    callbacks are about to run.  Nothing here touches the store. *)
Definition prepare (q : Queue) (fresh : string) (now : Z)
    (job_or_func : JobOrFunc) (kw : pydict) : Res Job :=
  res_bind (split_kwargs kw []) (fun job_kwargs =>
  res_bind (match job_or_func with
            | Func f =>
                match dict_get "function" job_kwargs with
                | Some _ => Raise (TypeError "function")
                | None => Job_init fresh (("function"%string, PStr f) :: job_kwargs)
                end
            | AJob j => setattrs job_kwargs j
            end) (fun job =>
  if match queue job with
     | Some n => negb (String.eqb n (name q))
     | None => false
     end
  then Raise (ValueError "registered to a different queue")
  else Ok (set_status QUEUED (set_queued now (set_queue (Some (name q)) job))))).

(** [Queue.enqueue] (lines 439-496). *)
Definition enqueue (job_or_func : JobOrFunc) (kw : pydict) : M (option Job) :=
  w <- get;;
  job <- lift (prepare (self w) (next_uuid w) (now_ms w) job_or_func kw);;
  job <- _before_enqueue job;;
  i <- lift (Job_id job);;
  a <- lift (Job_abort_id job);;
  rep <- call_script (EnqueueScript i a (serialize (self w) job) (scheduled job));;
  if negb (reply_truthy rep) then ret None
  else ret (Some job).

(** The entries of the list [Queue.map] returns: a job's result, or the
    [JobError] standing in for it. *)
Inductive MapEntry :=
| EResult (v : PyVal)
| EExc (e : Exn).

Definition unsuccessful (j : Job) : bool :=
  bool_decide (status j ∈ UNSUCCESSFUL_TERMINAL_STATUSES).

(** [Queue.map], lines 596-607: the loop over the fetched jobs. *)
Fixpoint collect_results (return_exceptions : bool) (jobs : list (option Job))
    (results : list MapEntry) : Res (list MapEntry) :=
  match jobs with
  | [] => Ok results
  | None :: rest => collect_results return_exceptions rest results
  | Some j :: rest =>
      if unsuccessful j then
        if negb return_exceptions then Raise (JobError j)
        else collect_results return_exceptions rest (results ++ [EExc (JobError j)])
      else collect_results return_exceptions rest (results ++ [EResult (result j)])
  end.

Fixpoint fetch_jobs (job_keys : list string) : M (list (option Job)) :=
  match job_keys with
  | [] => ret []
  | k :: rest =>
      j <- job k;;
      js <- fetch_jobs rest;;
      ret (j :: js)
  end.

(** [Queue.map] from line 593 on, once the listener task has returned:
    [job_keys] holds one key per item of [iter_kwargs], in input order
    (line 562).  The fan-out before it (subscribe, enqueue, wait) is
    concurrent and is not modelled. *)
Definition map_aggregate (job_keys : list string) (return_exceptions : bool)
  : M (list MapEntry) :=
  jobs <- fetch_jobs job_keys;;
  lift (collect_results return_exceptions jobs []).

Section Engine.

(** saq.utils is not under src/: [seconds], which turns the milliseconds of
    [now()] into seconds, is a parameter. *)
Variable seconds : Z -> Q.

(** [Job.next_retry_delay], the retry policy hook, is not under src/ either:
    a parameter; [None] and 0 are falsy. *)
Variable next_retry_delay : Job -> option Q.

(** [Job.stuck] (job.py lines 100-107), with [current = now()]. *)
Definition stuck (current : Z) (j : Job) : bool :=
  bool_decide (status j = ACTIVE) &&
  (Qgtb (seconds (current - started j)) (inject_Z (timeout j))
   || (truthy (heartbeat j)
       && Qgtb (seconds (current - touched j)) (inject_Z (heartbeat j)))).

(** [Queue.schedule] (lines 225-251). *)
Definition schedule (lock : Z) : M (option (list string)) :=
  w <- get;;
  now <- utils_now;;
  rep <- call_script (ScheduleScript (namespace (self w) "schedule") lock (seconds now));;
  ret (match rep with RNil => None | _ => Some (bulk_items rep) end).

(** The loop of [Queue.sweep] (lines 270-286) over the zipped ids and
    records. *)
Fixpoint sweep_loop (items : list (string * option string)) (swept : list string)
  : M (list string) :=
  match items with
  | [] => ret swept
  | (i, job_bytes) :: rest =>
      w <- get;;
      j <- lift (deserialize (self w) (next_uuid w) job_bytes);;
      match j with
      | None =>
          pipeline_execute [LREM K_active 0 i; ZREM i];;
          sweep_loop rest (swept ++ [i])
      | Some jb =>
          current <- utils_now;;
          if negb (bool_decide (status jb = ACTIVE)) || stuck current jb then
            Job_finish jb ABORTED PNone (Some "swept"%string);;
            sweep_loop rest (swept ++ [i])
          else sweep_loop rest swept
      end
  end.

(** [Queue.sweep] (lines 253-287). *)
Definition sweep (lock : Z) : M (list string) :=
  w <- get;;
  rep <- call_script (CleanupScript (namespace (self w) "sweep") lock);;
  let job_ids := bulk_items rep in
  match job_ids with
  | [] => ret []
  | _ :: _ =>
      recs <- redis_call (MGET job_ids);;
      sweep_loop (combine job_ids (bulk_options recs)) []
  end.

Definition delay_truthy (d : option Q) : bool :=
  match d with Some q => negb (Qeq_bool q 0) | None => false end.

(** [Queue.retry] (lines 361-383). *)
Definition retry (job : Job) (err : option string) : M Job :=
  i <- lift (Job_id job);;
  now <- utils_now;;
  let job :=
    set_touched now (set_progress 0%Q (set_started 0 (set_completed 0
      (set_error err (set_status QUEUED job))))) in
  let d := next_retry_delay job in
  w <- get;;
  pipeline_execute
    ([LREM K_active 1 i; LREM K_queued 1 i] ++
     (if delay_truthy d
      then [ZADD [((time_time w + default 0%Q d)%Q, i)]]
      else [ZADD [(inject_Z (scheduled job), i)]; RPUSH K_queued [i]]) ++
     [SET i (serialize (self w) job)]);;
  modify_self (fun q =>
    with_counters (complete q) (failed q) (retried q + 1) (aborted q) q);;
  notify job;;
  ret job.

End Engine.

(** ** Vocabulary of the statements *)

(** The commands the server accepts. *)
Definition accepted (c : Cmd) : Prop :=
  match c with
  | SETEX _ s _ => 0 < s
  | MGET [] | RPUSH _ [] | ZADD [] => False
  | _ => True
  end.

(** The store holds no record for [job_key]: GET yields nothing, or empty
    bytes. *)
Definition no_record (w : World) (job_key : string) : Prop :=
  match r_strings (redis w) !! job_id (self w) job_key with
  | None => True
  | Some e => e_val e = ""%string
  end.

(** What a lookup of [job_key] decodes to in [w]. *)
Definition stored (w : World) (job_key : string) : Res (option Job) :=
  deserialize (self w) (next_uuid w)
    (e_val <$> r_strings (redis w) !! job_id (self w) job_key).

(** The jobs of a fetched list whose record was there, in order. *)
Definition present (jobs : list (option Job)) : list Job := omap id jobs.

Definition entry_of (j : Job) : MapEntry :=
  if unsuccessful j then EExc (JobError j) else EResult (result j).

(** Invariant 2 of the data model: every id in [queued] is in [incomplete]
    with score 0. *)
Definition queued_ready (r : Redis) : Prop :=
  ∀ i, i ∈ r_queued r → ∃ s, r_incomplete r !! i = Some s ∧ (s == 0)%Q.

(** The job object as [finish] leaves it. *)
Definition finished (now : Z) (st : Status) (res : PyVal) (err : option string)
    (j : Job) : Job :=
  let j1 := set_completed now (set_error err (set_result res (set_status st j))) in
  if decide (st = COMPLETE) then set_progress 1%Q j1 else j1.

(** The third command of the [finish] transaction, by the ttl rule. *)
Definition retain_cmd (ser : Job -> string) (i : string) (j : Job) : Cmd :=
  if 0 <? ttl j then SETEX i (ttl j) (ser j)
  else if ttl j =? 0 then SET i (ser j)
  else DEL i.

Definition count_finished (st : Status) (q : Queue) : Queue :=
  match st with
  | COMPLETE => with_counters (complete q + 1) (failed q) (retried q) (aborted q) q
  | FAILED => with_counters (complete q) (failed q + 1) (retried q) (aborted q) q
  | ABORTED => with_counters (complete q) (failed q) (retried q) (aborted q + 1) q
  | _ => q
  end.

(** The enqueue script has nothing to do: the id already has a score in
    [incomplete], or a key exists under the abort id. *)
Definition blocked (r : Redis) (i a : string) : Prop :=
  is_Some (r_incomplete r !! i) ∨ is_Some (r_strings r !! a).

(** Sweep, seen from the store.  [rec i] is what the record under [i]
    decodes to; an id is swept when it has no record, or its job is not
    ACTIVE, or its job is stuck. *)
Definition sweepable (seconds : Z -> Q) (now : Z) (rec : string -> option Job)
    (i : string) : bool :=
  match rec i with
  | None => true
  | Some jb => negb (bool_decide (status jb = ACTIVE)) || stuck seconds now jb
  end.

(** The store after one turn of the sweep loop on the id [i]. *)
Definition sweep_step (seconds : Z -> Q) (now : Z) (rec : string -> option Job)
    (ser : Job -> string) (r : Redis) (i : string) : Redis :=
  match rec i with
  | None => fst (exec_cmds [LREM K_active 0 i; ZREM i] r)
  | Some jb =>
      if sweepable seconds now rec i then
        let j' := finished now ABORTED PNone (Some "swept"%string) jb in
        fst (exec_cmd (PUBLISH i "aborted")
               (fst (exec_cmds
                       [LREM K_active 1 i; ZREM i; retain_cmd ser i j'] r)))
      else r
  end.

(** The entry [finish] leaves under the id of a swept job: the serialized
    ABORTED job with expiry ttl, without expiry, or nothing, by the ttl
    rule. *)
Definition swept_entry (now : Z) (ser : Job -> string) (jb : Job) : option Entry :=
  let j' := finished now ABORTED PNone (Some "swept"%string) jb in
  if 0 <? ttl jb then Some (mkEntry (ser j') (Some (ttl jb)))
  else if ttl jb =? 0 then Some (mkEntry (ser j') None)
  else None.

(** The job object as [retry] leaves it. *)
Definition requeued (now : Z) (err : option string) (j : Job) : Job :=
  set_touched now (set_progress 0%Q (set_started 0 (set_completed 0
    (set_error err (set_status QUEUED j))))).

(** The invariant carried through the operations: the ids of [queued] are
    distinct and each is in [incomplete] with score 0. *)
Definition ready_inv (r : Redis) : Prop :=
  NoDup (r_queued r) ∧ queued_ready r.

(** The queue operations of the lifecycle. *)
Inductive Op :=
| OpEnqueue (jf : JobOrFunc) (kw : pydict)
| OpSchedule (lock : Z)
| OpDequeue (tmo : Z)
| OpFinish (j : Job) (st : Status) (res : PyVal) (err : option string)
| OpRetry (j : Job) (err : option string)
| OpAbort (j : Job) (err : string) (ttl_ : Z).

(** The world an operation leaves, whether it returned or raised. *)
Definition run_op (seconds : Z -> Q) (next_retry_delay : Job -> option Q)
    (op : Op) (w : World) : World :=
  match op with
  | OpEnqueue jf kw => snd (enqueue jf kw w)
  | OpSchedule lock => snd (schedule seconds lock w)
  | OpDequeue tmo => snd (dequeue tmo w)
  | OpFinish j st res err => snd (finish j st res err w)
  | OpRetry j err => snd (retry next_retry_delay j err w)
  | OpAbort j err ttl_ => snd (abort j err ttl_ w)
  end.

(** The calls the amended invariant speaks about: [finish] of a job whose id
    is not in [queued], and [retry] of a job that is given a retry delay or
    has [scheduled] = 0; the other operations without condition. *)
Definition op_in_scope (next_retry_delay : Job -> option Q) (w : World)
    (op : Op) : Prop :=
  match op with
  | OpFinish j _ _ _ => ∀ i, Job_id j = Ok i → i ∉ r_queued (redis w)
  | OpRetry j err =>
      delay_truthy (next_retry_delay (requeued (now_ms w) err j)) = true
      ∨ scheduled j = 0
  | _ => True
  end.

(** A run of operations, and the condition that each is in scope in the
    world it starts from. *)
Fixpoint run_ops (seconds : Z -> Q) (next_retry_delay : Job -> option Q)
    (ops : list Op) (w : World) : World :=
  match ops with
  | [] => w
  | op :: rest =>
      run_ops seconds next_retry_delay rest (run_op seconds next_retry_delay op w)
  end.

Fixpoint ops_in_scope (seconds : Z -> Q) (next_retry_delay : Job -> option Q)
    (ops : list Op) (w : World) : Prop :=
  match ops with
  | [] => True
  | op :: rest =>
      op_in_scope next_retry_delay w op
      ∧ ops_in_scope seconds next_retry_delay rest
          (run_op seconds next_retry_delay op w)
  end.

(** ** Concrete worlds *)

(** Milliseconds to seconds, for the concrete runs. *)
Definition ms_to_seconds (ms : Z) : Q := Qmake ms 1000.

Definition no_retry_delay (j : Job) : option Q := None.

(** A codec for a store that holds records of one job: [dump] writes a
    tag, [load] answers with the dictionary of [j]. *)
Definition dump_tag (d : pydict) : string := "J".
Definition load_as (j : Job) (b : string) : Res pydict := Ok (to_dict j).

(** A loader that fails on whatever it is given. *)
Definition load_fails (b : string) : Res pydict := Raise (OtherError "load").

Definition empty_redis : Redis :=
  {| r_strings := ∅; r_incomplete := ∅; r_queued := []; r_active := [];
     r_published := []; r_version := [7; 0; 0] |}.

Definition world_of (q : Queue) (r : Redis) (now : Z) : World :=
  {| redis := r; self := q; now_ms := now; time_time := Qmake now 1000;
     next_uuid := "uuid-1"; trace := [] |}.

(** A queue whose loader always fails, over an empty store. *)
Definition failing_queue : Queue := Queue_init "q" dump_tag load_fails.
Definition failing_world : World := world_of failing_queue empty_redis 0.

(** A job of function "add" that asks for its record to be deleted on
    finish (ttl < 0), as [enqueue] leaves it at time 5000. *)
Definition add_job : Job :=
  {| function := "add"; kwargs := Some [("a"%string, PInt 1); ("b"%string, PInt 2)];
     queue := Some "q"%string; key := "k1";
     timeout := 10; heartbeat := 0; retries := 1; ttl := -1; scheduled := 0;
     attempts := 0; completed := 0; queued := 5000; started := 0; touched := 0;
     progress := 0%Q; result := PNone; error := None; status := QUEUED |}.

Definition add_queue : Queue := Queue_init "q" dump_tag (load_as add_job).
Definition add_world : World := world_of add_queue empty_redis 5000.

(** Enqueue the job, let a worker take it and finish it, then aggregate as
    [map] does for the single key. *)
Definition add_run : M (list MapEntry) :=
  enqueue (Func "add")
    [("key"%string, PStr "k1"); ("ttl"%string, PInt (-1));
     ("a"%string, PInt 1); ("b"%string, PInt 2)];;
  oj <- dequeue 1;;
  match oj with
  | Some j => finish j COMPLETE (PInt 3) None
  | None => raise (OtherError "nothing dequeued")
  end;;
  map_aggregate ["k1"%string] false.

(** An ACTIVE job with timeout and heartbeat both disabled, started at
    1000 ms, in the [active] list with its record in place. *)
Definition untimed_job : Job :=
  {| function := "f"; kwargs := None; queue := Some "q"%string; key := "k";
     timeout := 0; heartbeat := 0; retries := 1; ttl := 60; scheduled := 0;
     attempts := 1; completed := 0; queued := 500; started := 1000;
     touched := 1000; progress := 0%Q; result := PNone; error := None;
     status := ACTIVE |}.

Definition untimed_queue : Queue := Queue_init "q" dump_tag (load_as untimed_job).

Definition untimed_redis : Redis :=
  {| r_strings := {[ "saq:job:q:k"%string := mkEntry "J" None ]};
     r_incomplete := {[ "saq:job:q:k"%string := 0%Q ]};
     r_queued := []; r_active := ["saq:job:q:k"%string];
     r_published := []; r_version := [7; 0; 0] |}.

Definition untimed_world : World := world_of untimed_queue untimed_redis 2000.

(** Two callbacks registered in the order 7, 3: the first records nothing
    and passes the job on, the second refuses the job. *)
Definition cb_pass (j : Job) : Res Job := Ok j.
Definition cb_refuse (j : Job) : Res Job := Raise (OtherError "refused").

Definition guarded_world : World :=
  snd ((register_before_enqueue 7 cb_pass;;
        register_before_enqueue 3 cb_refuse) add_world).

(** A store with one job scheduled for second 5, and a clock at second 20. *)
Definition scheduled_redis : Redis :=
  {| r_strings := {[ "saq:job:q:k1"%string := mkEntry "J" None ]};
     r_incomplete := {[ "saq:job:q:k1"%string := 5%Q ]};
     r_queued := []; r_active := [];
     r_published := []; r_version := [7; 0; 0] |}.

Definition scheduled_world : World := world_of add_queue scheduled_redis 20000.

(** A job scheduled for second 5, enqueued at second 1; at second 20 the
    scheduler promotes it, a worker takes it, fails and retries it without
    delay. *)
Definition late_job : Job :=
  {| function := "f"; kwargs := None; queue := Some "q"%string; key := "k1";
     timeout := 10; heartbeat := 0; retries := 3; ttl := 60; scheduled := 5;
     attempts := 0; completed := 0; queued := 1000; started := 0; touched := 0;
     progress := 0%Q; result := PNone; error := None; status := QUEUED |}.

Definition late_queue : Queue := Queue_init "q" dump_tag (load_as late_job).
Definition late_world : World := world_of late_queue empty_redis 1000.

Definition set_clock (now : Z) : M unit :=
  fun w => (Ok tt,
            {| redis := redis w; self := self w; now_ms := now;
               time_time := Qmake now 1000; next_uuid := next_uuid w;
               trace := trace w |}).

Definition late_run : M Job :=
  enqueue (Func "f")
    [("key"%string, PStr "k1"); ("retries"%string, PInt 3);
     ("scheduled"%string, PInt 5)];;
  set_clock 20000;;
  schedule ms_to_seconds 1;;
  oj <- dequeue 1;;
  match oj with
  | Some j => retry no_retry_delay j (Some "boom"%string)
  | None => raise (OtherError "nothing dequeued")
  end.

(** A job finished by its owner while it is still waiting in [queued]. *)
Definition early_finish_run : M Job :=
  oj <- enqueue (Func "add") [("key"%string, PStr "k1"); ("ttl"%string, PInt (-1))];;
  match oj with
  | Some j => finish j COMPLETE (PInt 3) None
  | None => raise (OtherError "not enqueued")
  end.

(** ** More of queue.py and job.py *)

Definition reply_int (r : Reply) : Z :=
  match r with RInt n => n | _ => 0 end.

(** [Queue.count] (lines 216-223).  The message of the [ValueError] is not
    an f-string in the source: the braces are sent as they are. *)
Definition count (kind : string) : M Z :=
  if String.eqb kind "queued" then
    (rep <- redis_call (LLEN K_queued);; ret (reply_int rep))
  else if String.eqb kind "active" then
    (rep <- redis_call (LLEN K_active);; ret (reply_int rep))
  else if String.eqb kind "incomplete" then
    (rep <- redis_call ZCARD;; ret (reply_int rep))
  else raise (ValueError "Can't count unknown type {kind}").

(** [Job._duration] (job.py lines 97-98): [a - b if a and b else None]. *)
Definition _duration (a b : Z) : option Z :=
  if truthy a && truthy b then Some (a - b) else None.

(** [Job.duration] (job.py lines 82-95).  The field src/saq/job.py calls
    [enqueued] is the time stamp queue.py writes as [queued] (line 482). *)
Definition duration (kind : string) (j : Job) : Res (option Z) :=
  if String.eqb kind "process" then Ok (_duration (completed j) (started j))
  else if String.eqb kind "start" then Ok (_duration (started j) (queued j))
  else if String.eqb kind "total" then Ok (_duration (completed j) (queued j))
  else Raise (ValueError ("Unknown duration type: " +:+ kind)).

Definition is_terminal (st : Status) : bool :=
  bool_decide (st ∈ TERMINAL_STATUSES).

Definition is_unsuccessful (st : Status) : bool :=
  bool_decide (st ∈ UNSUCCESSFUL_TERMINAL_STATUSES).

(** The [callback] closure of [Queue.map] (lines 565-575).  It shares the
    set [pending_job_keys] with [map] and updates it in place: the set goes
    in and comes out.  The boolean is what the callback returns. *)
Definition map_callback (return_exceptions : bool) (job_key : string)
    (st : Status) (pending_job_keys : gset string) : gset string * bool :=
  let pending_job_keys :=
    if is_terminal st then pending_job_keys ∖ {[job_key]} else pending_job_keys in
  if is_unsuccessful st && negb return_exceptions then (pending_job_keys, true)
  else if bool_decide (pending_job_keys = ∅) then (pending_job_keys, true)
  else (pending_job_keys, false).

(** How the inner loop of [Queue.listen] (lines 307-318) ends on the
    messages received so far: the callback asked to stop, or the loop is
    still waiting for the next message. *)
Inductive Listening (S : Type) :=
| Stopped (s : S) (unread : list (string * Status))
| Waiting (s : S).
Arguments Stopped {S} s unread.
Arguments Waiting {S} s.

(** The loop over the messages of type "message", each decoded to its job
    key and status (lines 309-311); [s] is the state the callback closes
    over. *)
Fixpoint listen_loop {S : Type} (callback : string -> Status -> S -> S * bool)
    (messages : list (string * Status)) (s : S) : Listening S :=
  match messages with
  | [] => Waiting s
  | (job_key, st) :: rest =>
      let '(s', stop) := callback job_key st s in
      if stop then Stopped s' rest else listen_loop callback rest s'
  end.

(** [Queue.apply] (lines 516-519), from the list [map] returns for its one
    item: the first entry, or [None] when the list is empty.  [map] is
    entered at its aggregation step, as [map_aggregate] has it, with
    [return_exceptions] at its default. *)
Definition apply_aggregate (job_key : string) : M (option MapEntry) :=
  results <- map_aggregate [job_key] false;;
  ret (match results with
       | [] => None
       | r :: _ => Some r
       end).

(** ** More vocabulary *)

(** The codec gives back the dictionary of [j]: [load (dump (to_dict j))]
    is [to_dict j], and the dump is not empty. *)
Definition codec_ok (q : Queue) (j : Job) : Prop :=
  _load q (serialize q j) = Ok (to_dict j) ∧ serialize q j ≠ ""%string.

(** The record [finish] leaves under the id, by the ttl rule. *)
Definition retained (ser : Job -> string) (j : Job) : option Entry :=
  if 0 <? ttl j then Some (mkEntry (ser j) (Some (ttl j)))
  else if ttl j =? 0 then Some (mkEntry (ser j) None)
  else None.

(** The keys of the messages that carry a terminal status. *)
Definition terminated (messages : list (string * Status)) : list string :=
  List.map fst (List.filter (fun m => is_terminal (snd m)) messages).

(** The version [Queue.version] answers with, and the world it leaves: the
    cached tuple and no round trip, or one INFO whose answer is cached. *)
Definition known_version (w : World) : list Z :=
  default (r_version (redis w)) (_version (self w)).

Definition versioned (w : World) : World :=
  match _version (self w) with
  | Some _ => w
  | None =>
      with_self (with_version (Some (r_version (redis w))) (self w))
        (with_trace (trace w ++ [EvCmd INFO]) w)
  end.

(** The command [dequeue] moves an id with, by server version. *)
Definition move_cmd (v : list Z) (tmo : Z) : Cmd :=
  if tuple_ltb v [6; 2; 0] then BRPOPLPUSH K_queued K_active tmo
  else BLMOVE K_queued K_active RIGHT LEFT tmo.

(** The round trip [version] makes: none with a cached version. *)
Definition version_events (w : World) : list Event :=
  match _version (self w) with
  | Some _ => []
  | None => [EvCmd INFO]
  end.

(** ** More concrete worlds *)

(** [add_job] enqueued in [add_world]: its id is the one entry of
    [queued]. *)
Definition queued_world : World := snd (enqueue (AJob add_job) [] add_world).

(** [untimed_job] finished COMPLETE with result 3 at 2000 ms, and a queue
    whose loader answers with that job's dictionary. *)
Definition done_job : Job := finished 2000 COMPLETE (PInt 3) None untimed_job.
Definition done_queue : Queue := Queue_init "q" dump_tag (load_as done_job).
Definition done_world : World := world_of done_queue untimed_redis 2000.


(** * Properties *)

(** ** The key space

    A job id ([saq:job:Q:key]) is never one of the queue's own keys
    ([saq:Q:incomplete], [saq:Q:queued], [saq:Q:active], [saq:Q:schedule],
    [saq:Q:sweep]), whatever the queue name and the job key: the fourth
    character of the last part would have to be a colon. *)

Lemma shifted_suffix (n : string) :
  ∀ (a b c d : Ascii.ascii) (k p : string),
    String a (String b (String c (String d (n +:+ ":" +:+ k)))) = n +:+ ":" +:+ p →
    ∃ x y z, p = String x (String y (String z (":" +:+ k))).
Proof.
  induction n as [|e n IH]; intros a b c d k p H; simpl in H.
  - injection H as _ H. by exists b, c, d.
  - injection H as _ H. by apply (IH b c d e).
Qed.

Lemma job_id_not_namespace (q : Queue) (job_key part : string) :
  (∀ x y z rest, part ≠ String x (String y (String z (":" +:+ rest)))) →
  job_id q job_key ≠ namespace q part.
Proof.
  intros Hp E. unfold job_id, namespace in E. simpl in E.
  injection E as E.
  apply shifted_suffix in E as (x & y & z & E).
  by apply (Hp x y z job_key).
Qed.

Lemma job_id_not_a_queue_key (q : Queue) (job_key : string) :
  job_id q job_key ∉ [namespace q "incomplete"; namespace q "queued";
                      namespace q "active"; namespace q "schedule";
                      namespace q "sweep"].
Proof.
  intros H. repeat (apply elem_of_cons in H as [H|H];
    [by apply job_id_not_namespace in H|]).
  by apply elem_of_nil in H.
Qed.

(** ** Plumbing of the monad *)

Lemma with_redis_same (w : World) : with_redis (redis w) w = w.
Proof. by destruct w. Qed.

Ltac unfold_monad :=
  unfold bind, ret, lift, raise, get, log, utils_now, modify_self,
    redis_call, pipeline_execute, call_script.

Lemma bind_ok {A B} (m : M A) (f : A -> M B) w a w' :
  m w = (Ok a, w') → bind m f w = f a w'.
Proof. unfold bind. by intros ->. Qed.

Lemma bind_raise {A B} (m : M A) (f : A -> M B) w e w' :
  m w = (Raise e, w') → bind m f w = (Raise e, w').
Proof. unfold bind. by intros ->. Qed.

Lemma accepted_checked c r :
  accepted c → checked (snd (exec_cmd c r)) = Ok (snd (exec_cmd c r)).
Proof.
  destruct c as [k|ks|k v|k s v|k|k s|k|l n v|l vs|l a b|l|src dst wf wt tmo
                 |src dst tmo|items|member|member|lo hi| |ch msg| ];
    cbn [accepted exec_cmd]; intros H; try reflexivity.
  - destruct (r_strings r !! k); reflexivity.
  - destruct ks; [destruct H | reflexivity].
  - destruct (s <=? 0) eqn:E; [apply Z.leb_le in E; lia | reflexivity].
  - destruct (r_strings r !! k); [destruct (s <=? 0)|]; reflexivity.
  - destruct vs; [destruct H | reflexivity].
  - unfold lmove. destruct (pop_side _ _) as [[x rest]|]; reflexivity.
  - unfold lmove. destruct (pop_side _ _) as [[x rest]|]; reflexivity.
  - destruct items; [destruct H | reflexivity].
  - destruct (r_incomplete r !! member); reflexivity.
Qed.

Lemma accepted_first_error cs : ∀ r,
  Forall accepted cs → first_error (snd (exec_cmds cs r)) = None.
Proof.
  induction cs as [|c cs IH]; intros r H; [reflexivity|].
  apply Forall_cons in H as [Hc Hcs]. cbn [exec_cmds].
  pose proof (accepted_checked c r Hc) as Hk.
  destruct (exec_cmd c r) as [r1 rep]. specialize (IH r1 Hcs).
  destruct (exec_cmds cs r1) as [r2 reps]. cbn [snd first_error] in *.
  destruct rep; try exact IH. discriminate Hk.
Qed.

Lemma hd_exec_cmds d c cs r :
  hd d (snd (exec_cmds (c :: cs) r)) = snd (exec_cmd c r).
Proof.
  cbn [exec_cmds]. destruct (exec_cmd c r) as [r1 rep].
  by destruct (exec_cmds cs r1).
Qed.

Lemma pipeline_execute_run cs w :
  Forall accepted cs →
  pipeline_execute cs w
  = (Ok (snd (exec_cmds cs (redis w))),
     with_trace (trace w ++ [EvPipeline cs])
       (with_redis (fst (exec_cmds cs (redis w))) w)).
Proof.
  intros H. unfold pipeline_execute.
  pose proof (accepted_first_error cs (redis w) H) as He.
  destruct (exec_cmds cs (redis w)). cbn [snd fst] in *. by rewrite He.
Qed.

Lemma redis_call_run c w :
  accepted c →
  redis_call c w
  = (Ok (snd (exec_cmd c (redis w))),
     with_trace (trace w ++ [EvCmd c]) (with_redis (fst (exec_cmd c (redis w))) w)).
Proof.
  intros H. unfold redis_call. pose proof (accepted_checked c (redis w) H) as Hk.
  destruct (exec_cmd c (redis w)). cbn [snd fst] in *. by rewrite Hk.
Qed.

Lemma call_script_run s w :
  call_script s w
  = (checked (snd (run_script s (redis w))),
     with_trace (trace w ++ [EvScript s])
       (with_redis (fst (run_script s (redis w))) w)).
Proof. unfold call_script. by destruct (run_script s (redis w)). Qed.

Lemma notify_run j i w :
  Job_id j = Ok i →
  notify j w
  = (Ok tt,
     with_trace (trace w ++ [EvCmd (PUBLISH i (Status_value (status j)))])
       (with_redis
          (with_published (r_published (redis w) ++ [(i, Status_value (status j))])
             (redis w)) w)).
Proof.
  intros Hi. unfold notify.
  rewrite (bind_ok _ _ w i w) by (unfold lift; by rewrite Hi).
  erewrite bind_ok by (by apply redis_call_run). reflexivity.
Qed.

(** ** Lists under LREM *)

Lemma remove_all_elem (v x : string) (xs : list string) :
  x ∈ remove_all v xs ↔ x ∈ xs ∧ x ≠ v.
Proof.
  unfold remove_all. rewrite !list_elem_of_In, filter_In.
  split; intros [H1 H2]; split; try done.
  - intros ->. by rewrite String.eqb_refl in H2.
  - apply negb_true_iff. by apply String.eqb_neq.
Qed.

Lemma remove_all_notin (v : string) (xs : list string) :
  v ∉ xs → remove_all v xs = xs.
Proof.
  induction xs as [|x xs IH]; intros H; [done|].
  apply not_elem_of_cons in H as [H1 H2]. unfold remove_all in *. simpl.
  destruct (String.eqb x v) eqn:E.
  - apply String.eqb_eq in E. congruence.
  - simpl. by rewrite IH.
Qed.

Lemma remove_first_notin (n : nat) (v : string) (xs : list string) :
  v ∉ xs → remove_first_n n v xs = xs.
Proof.
  revert n. induction xs as [|x xs IH]; intros n H; destruct n; try done.
  apply not_elem_of_cons in H as [H1 H2]. simpl.
  destruct (String.eqb x v) eqn:E.
  - apply String.eqb_eq in E. congruence.
  - by rewrite IH.
Qed.

Lemma remove_first_split (v : string) (xs : list string) :
  v ∈ xs →
  ∃ l1 l2, xs = l1 ++ (v :: l2) ∧ (v ∉ l1) ∧ remove_first_n 1 v xs = l1 ++ l2.
Proof.
  induction xs as [|x xs IH]; intros H; [by apply elem_of_nil in H|].
  simpl. destruct (String.eqb x v) eqn:E.
  - apply String.eqb_eq in E. subst. exists [], xs. repeat split; try done.
    + apply not_elem_of_nil.
    + by destruct xs.
  - apply String.eqb_neq in E. apply elem_of_cons in H as [H|H]; [congruence|].
    destruct (IH H) as (l1 & l2 & -> & Hn & Hr).
    exists (x :: l1), l2. repeat split.
    + apply not_elem_of_cons. split; [congruence|done].
    + simpl in Hr. simpl. by rewrite Hr.
Qed.

Lemma remove_first_sub (n : nat) (v x : string) (xs : list string) :
  x ∈ remove_first_n n v xs → x ∈ xs.
Proof.
  revert n. induction xs as [|y xs IH]; intros n; destruct n; simpl; try done.
  destruct (String.eqb y v).
  - intros H. apply elem_of_cons. right. by eapply IH.
  - intros H. apply elem_of_cons in H as [->|H]; [left|right; by eapply IH].
Qed.

(** ** Lookups and deserialization (C10) *)

Lemma job_stored (w : World) (k : string) :
  job k w
  = (stored w k, with_trace (trace w ++ [EvCmd (GET (job_id (self w) k))]) w).
Proof.
  unfold job, _get_job_by_id, stored. unfold_monad. cbn [exec_cmd].
  destruct w as [[rs ri rq ra rp rv] q n t u tr]. cbn.
  destruct (rs !! _); reflexivity.
Qed.

(** C10.  When the store has no record under the id of [job_key] (GET
    answers nothing, or empty bytes), [Queue.job] returns [None] and does not
    raise, whatever the injected loader does.  [deserialize] maps absent and
    empty input to [None] without calling the loader; on non-empty input it
    loads the dictionary and raises [AssertionError] when the embedded queue
    name is not the name of the loading queue. *)
Theorem job_without_record_is_None (w : World) (job_key : string) :
  no_record w job_key →
  job job_key w
  = (Ok None, with_trace (trace w ++ [EvCmd (GET (job_id (self w) job_key))]) w)
  ∧ (∀ q fresh, deserialize q fresh None = Ok None
                ∧ deserialize q fresh (Some ""%string) = Ok None)
  ∧ (∀ q fresh b d v,
       b ≠ ""%string → _load q b = Ok d → dict_get "queue" d = Some v →
       v ≠ PStr (name q) →
       deserialize q fresh (Some b) = Raise (AssertionError "fetched by wrong queue")).
Proof.
  intros Hno. split; [|split].
  - rewrite job_stored. f_equal. unfold stored, no_record in *.
    destruct (r_strings (redis w) !! job_id (self w) job_key) as [e|]; cbn.
    + by rewrite Hno.
    + reflexivity.
  - intros q fresh. split; reflexivity.
  - intros q fresh b d v Hb Hload Hq Hv. unfold deserialize.
    destruct b as [|c b]; [done|]. rewrite Hload. cbn [res_bind]. rewrite Hq.
    destruct v as [| | | |n| |]; try reflexivity.
    destruct (String.eqb n (name q)) eqn:E; [|reflexivity].
    apply String.eqb_eq in E. congruence.
Qed.

(** In [failing_world] nothing is stored and the loader fails on any input;
    the lookup of "k" still answers [None]. *)
Lemma job_without_record_witness :
  no_record failing_world "k"
  ∧ job "k" failing_world
    = (Ok None,
       with_trace (trace failing_world
                   ++ [EvCmd (GET (job_id (self failing_world) "k"))])
         failing_world).
Proof.
  assert (H : no_record failing_world "k") by (vm_compute; exact I).
  split; [exact H|].
  exact (proj1 (job_without_record_is_None failing_world "k" H)).
Defined.

(** ** Aggregation of [map] (C8) *)

Lemma collect_results_substitute (jobs : list (option Job)) (acc : list MapEntry) :
  collect_results true jobs acc = Ok (acc ++ List.map entry_of (present jobs)).
Proof.
  revert acc. induction jobs as [|[j|] jobs IH]; intros acc.
  - simpl. by rewrite app_nil_r.
  - change (present (Some j :: jobs)) with (j :: present jobs).
    simpl.
    destruct (unsuccessful j) eqn:E; simpl; rewrite IH, <- app_assoc; simpl;
      unfold entry_of at 2; rewrite E; reflexivity.
  - apply IH.
Qed.

Lemma collect_results_raise (jobs : list (option Job)) (acc : list MapEntry) :
  collect_results false jobs acc =
  match List.find unsuccessful (present jobs) with
  | Some j => Raise (JobError j)
  | None => Ok (acc ++ List.map (fun j => EResult (result j)) (present jobs))
  end.
Proof.
  revert acc. induction jobs as [|[j|] jobs IH]; intros acc.
  - simpl. by rewrite app_nil_r.
  - change (present (Some j :: jobs)) with (j :: present jobs).
    simpl. destruct (unsuccessful j); simpl; [reflexivity|].
    rewrite IH. destruct (List.find _ _); [reflexivity|]. by rewrite <- app_assoc.
  - apply IH.
Qed.

Lemma fetch_jobs_ok (keys : list string) : ∀ w jobs,
  Forall2 (fun k oj => stored w k = Ok oj) keys jobs →
  fetch_jobs keys w
  = (Ok jobs,
     with_trace (trace w ++ List.map (fun k => EvCmd (GET (job_id (self w) k))) keys) w).
Proof.
  induction keys as [|k keys IH]; intros w jobs H; inversion H; subst;
    cbn [fetch_jobs List.map].
  - unfold ret. rewrite app_nil_r. by destruct w.
  - unfold bind at 1. rewrite job_stored. rewrite H2.
    set (w1 := with_trace _ w).
    unfold bind. rewrite (IH w1 l').
    + unfold ret. cbn [trace with_trace w1 self]. by rewrite <- app_assoc.
    + eapply Forall2_impl; [exact H4|]. intros ?? HH. exact HH.
Qed.

(** C8, as amended.  Let [jobs] be what the lookups of [job_keys] decode to,
    key by key.  The list [map] returns has one entry for each job whose
    record is present, in input order; a key whose record is absent
    contributes no entry.  With [return_exceptions] false the call raises the
    [JobError] of the first present job, in input order, whose status is
    FAILED or ABORTED; with [return_exceptions] true that job's entry is the
    [JobError] value and every other entry is the job's result.  When every
    record is present there is one entry per input item. *)
Theorem map_results_follow_present_records (w : World) (job_keys : list string)
    (jobs : list (option Job)) (return_exceptions : bool) :
  Forall2 (fun k oj => stored w k = Ok oj) job_keys jobs →
  fst (map_aggregate job_keys return_exceptions w)
  = (if return_exceptions then Ok (List.map entry_of (present jobs))
     else match List.find unsuccessful (present jobs) with
          | Some j => Raise (JobError j)
          | None => Ok (List.map (fun j => EResult (result j)) (present jobs))
          end)
  ∧ (Forall is_Some jobs → length (present jobs) = length job_keys).
Proof.
  intros H. split.
  - unfold map_aggregate, bind, lift. rewrite (fetch_jobs_ok _ _ _ H).
    cbn [fst]. destruct return_exceptions.
    + apply collect_results_substitute.
    + rewrite collect_results_raise. reflexivity.
  - intros Hall. rewrite (Forall2_length _ _ _ H).
    clear H. induction Hall as [|[j|] l [? Hj] _ IH]; [done| |done].
    change (present (Some j :: l)) with (j :: present l). simpl. by rewrite IH.
Qed.

(** At [add_world], a job enqueued with ttl = -1 is dequeued and finished
    COMPLETE; its record is deleted by [finish], the lookup of its key finds
    nothing, and the aggregation returns the empty list for one input item. *)
Lemma map_skips_deleted_record :
  ∃ l, fst (add_run add_world) = Ok l ∧ length l ≠ length ["k1"%string].
Proof. exists []. split; [vm_compute; reflexivity | simpl; lia]. Qed.

(** In [add_world] the record of "k1" is absent: with [return_exceptions]
    true the aggregation returns the empty list. *)
Lemma map_results_witness :
  Forall2 (fun k oj => stored add_world k = Ok oj) ["k1"%string] [None]
  ∧ fst (map_aggregate ["k1"%string] true add_world) = Ok [].
Proof.
  assert (H : Forall2 (fun k oj => stored add_world k = Ok oj) ["k1"%string] [None]).
  { constructor; [vm_compute; reflexivity | constructor]. }
  split; [exact H|].
  exact (proj1 (map_results_follow_present_records add_world _ _ true H)).
Defined.

(** ** [stuck] with the timeout disabled (C2) *)

Lemma stuck_untimed (seconds : Z -> Q) (current : Z) (j : Job) :
  status j = ACTIVE → timeout j = 0 → heartbeat j = 0 →
  stuck seconds current j = Qgtb (seconds (current - started j)) 0.
Proof.
  intros Hs Ht Hh. unfold stuck. rewrite Hs, Ht, Hh.
  rewrite bool_decide_eq_true_2 by reflexivity. cbn [andb truthy Z.eqb negb].
  change (inject_Z 0) with 0%Q. by rewrite orb_false_r.
Qed.

(** C2 fails on the code.  [untimed_job] is ACTIVE with timeout = 0 and
    heartbeat = 0 and was started at 1000 ms; at 2000 ms [stuck] is true
    (one second elapsed exceeds the timeout 0), and the sweep of
    [untimed_world] finishes the job as ABORTED: it is reported as swept, it
    leaves [active] and [incomplete], and "aborted" is published. *)
Theorem untimed_job_is_swept :
  status untimed_job = ACTIVE ∧ timeout untimed_job = 0 ∧ heartbeat untimed_job = 0
  ∧ stuck ms_to_seconds 2000 untimed_job = true
  ∧ fst (sweep ms_to_seconds 60 untimed_world) = Ok ["saq:job:q:k"%string]
  ∧ r_active (redis (snd (sweep ms_to_seconds 60 untimed_world))) = []
  ∧ r_incomplete (redis (snd (sweep ms_to_seconds 60 untimed_world)))
      !! "saq:job:q:k"%string = None
  ∧ r_published (redis (snd (sweep ms_to_seconds 60 untimed_world)))
    = [("saq:job:q:k"%string, "aborted"%string)].
Proof. repeat split; vm_compute; reflexivity. Qed.

(** ** finish (C5) *)

Lemma finished_id now st res err j : Job_id (finished now st res err j) = Job_id j.
Proof. unfold finished. by destruct (decide _). Qed.

Lemma finished_ttl now st res err j : ttl (finished now st res err j) = ttl j.
Proof. unfold finished. by destruct (decide _). Qed.

Lemma finished_status now st res err j : status (finished now st res err j) = st.
Proof. unfold finished. by destruct (decide _). Qed.

Lemma retain_accepted ser i j : accepted (retain_cmd ser i j).
Proof.
  unfold retain_cmd. destruct (0 <? ttl j) eqn:E.
  - apply Z.ltb_lt in E. exact E.
  - destruct (ttl j =? 0); exact I.
Qed.

Lemma finish_run w j st res err i :
  Job_id j = Ok i →
  let j' := finished (now_ms w) st res err j in
  let cmds := [LREM K_active 1 i; ZREM i; retain_cmd (serialize (self w)) i j'] in
  finish j st res err w
  = (Ok j',
     with_trace (trace w ++ [EvPipeline cmds; EvCmd (PUBLISH i (Status_value st))])
        (with_redis (fst (exec_cmd (PUBLISH i (Status_value st))
                            (fst (exec_cmds cmds (redis w)))))
           (with_self (count_finished st (self w)) w))).
Proof.
  intros Hi j' cmds.
  unfold finish.
  rewrite (bind_ok _ _ w i w) by (unfold lift; by rewrite Hi).
  rewrite (bind_ok _ _ w (now_ms w) w) by reflexivity.
  fold (finished (now_ms w) st res err j). fold j'.
  rewrite (bind_ok _ _ w w w) by reflexivity.
  change ([LREM K_active 1 i; ZREM i] ++ [?x]) with ([LREM K_active 1 i; ZREM i; x]).
  fold (retain_cmd (serialize (self w)) i j'). fold cmds.
  erewrite bind_ok
    by (apply pipeline_execute_run; repeat constructor; apply retain_accepted).
  erewrite bind_ok by reflexivity.
  erewrite bind_ok.
  2:{ apply notify_run. unfold j'. by rewrite finished_id. }
  assert (Hst : status j' = st) by apply finished_status.
  unfold ret. rewrite Hst. f_equal.
  cbn [exec_cmd fst trace with_trace with_redis with_self redis self].
  rewrite <- app_assoc. reflexivity.
Qed.

(** The store after the [finish] transaction and the publication. *)
Lemma finish_store r ser i j st :
  let r' := fst (exec_cmd (PUBLISH i (Status_value st))
                   (fst (exec_cmds [LREM K_active 1 i; ZREM i; retain_cmd ser i j] r))) in
  r_active r' = remove_first_n 1 i (r_active r)
  ∧ r_queued r' = r_queued r
  ∧ r_incomplete r' = delete i (r_incomplete r)
  ∧ r_strings r'
    = (if 0 <? ttl j then <[i := mkEntry (ser j) (Some (ttl j))]> (r_strings r)
       else if ttl j =? 0 then <[i := mkEntry (ser j) None]> (r_strings r)
       else delete i (r_strings r))
  ∧ r_published r' = r_published r ++ [(i, Status_value st)]
  ∧ r_version r' = r_version r.
Proof.
  unfold retain_cmd.
  destruct (0 <? ttl j) eqn:E; [|destruct (ttl j =? 0)]; cbn [exec_cmds exec_cmd].
  - destruct (ttl j <=? 0) eqn:E2;
      [apply Z.ltb_lt in E; apply Z.leb_le in E2; lia|].
    repeat split.
  - repeat split.
  - repeat split.
Qed.

(** C5.  For a job with id [i], [finish] returns the job with [status],
    [result] and [error] set as given, [completed] set to now, and [progress]
    set to 1 exactly when the status is COMPLETE (left as it was otherwise).
    It makes two round trips, in this order: one MULTI/EXEC transaction
    [LREM(active, 1, i); ZREM(incomplete, i); retain], where [retain] is
    SETEX with the job's ttl when ttl > 0, SET when ttl = 0 and DEL when
    ttl < 0, and then the PUBLISH of the new status on channel [i].  In the
    store, the first occurrence of [i] leaves [active] (one entry fewer when
    [i] was there, no change otherwise), [i] leaves [incomplete], [queued] is
    untouched, the record under [i] is the serialized job with expiry ttl,
    without expiry, or gone, by the same rule, and the publication is the
    last entry of the log. *)
Theorem finish_transaction_then_publish (w : World) (j : Job) (st : Status)
    (res : PyVal) (err : option string) (i : string) :
  Job_id j = Ok i →
  ∃ j' w',
    finish j st res err w = (Ok j', w')
    ∧ status j' = st ∧ result j' = res ∧ error j' = err
    ∧ completed j' = now_ms w
    ∧ progress j' = (if decide (st = COMPLETE) then 1%Q else progress j)
    ∧ trace w'
      = trace w ++
        [EvPipeline
           [LREM K_active 1 i; ZREM i;
            if 0 <? ttl j then SETEX i (ttl j) (serialize (self w) j')
            else if ttl j =? 0 then SET i (serialize (self w) j')
            else DEL i];
         EvCmd (PUBLISH i (Status_value st))]
    ∧ r_active (redis w') = remove_first_n 1 i (r_active (redis w))
    ∧ (i ∈ r_active (redis w) →
       (length (r_active (redis w')) + 1 = length (r_active (redis w)))%nat)
    ∧ (i ∉ r_active (redis w) → r_active (redis w') = r_active (redis w))
    ∧ r_incomplete (redis w') = delete i (r_incomplete (redis w))
    ∧ r_queued (redis w') = r_queued (redis w)
    ∧ r_strings (redis w')
      = (if 0 <? ttl j
         then <[i := mkEntry (serialize (self w) j') (Some (ttl j))]> (r_strings (redis w))
         else if ttl j =? 0
         then <[i := mkEntry (serialize (self w) j') None]> (r_strings (redis w))
         else delete i (r_strings (redis w)))
    ∧ r_published (redis w') = r_published (redis w) ++ [(i, Status_value st)].
Proof.
  intros Hi. eexists _, _. split; [apply (finish_run _ _ _ _ _ _ Hi)|].
  set (j' := finished (now_ms w) st res err j).
  assert (Httl : ttl j' = ttl j) by apply finished_ttl.
  destruct (finish_store (redis w) (serialize (self w)) i j' st)
    as (Ha & Hq & Hz & Hs & Hp & _).
  cbn [redis trace with_trace with_redis with_self].
  rewrite Ha, Hq, Hz, Hs, Hp. unfold retain_cmd. rewrite Httl.
  repeat split; try reflexivity.
  - apply finished_status.
  - unfold j', finished. by destruct (decide _).
  - unfold j', finished. by destruct (decide _).
  - unfold j', finished. by destruct (decide _).
  - unfold j', finished. by destruct (decide _).
  - intros Hin. destruct (remove_first_split i _ Hin) as (l1 & l2 & -> & _ & ->).
    rewrite !length_app. simpl. lia.
  - intros Hnot. by apply remove_first_notin.
Qed.

(** [untimed_job] finished COMPLETE in [untimed_world]. *)
Lemma finish_witness :
  Job_id untimed_job = Ok "saq:job:q:k"%string
  ∧ ∃ j' w', finish untimed_job COMPLETE (PInt 3) None untimed_world = (Ok j', w')
             ∧ status j' = COMPLETE
             ∧ r_published (redis w')
               = r_published (redis untimed_world) ++ [("saq:job:q:k"%string, "complete"%string)].
Proof.
  assert (H1 : Job_id untimed_job = Ok "saq:job:q:k"%string) by reflexivity.
  split; [exact H1|].
  destruct (finish_transaction_then_publish untimed_world untimed_job COMPLETE
              (PInt 3) None _ H1)
    as (j' & w' & Hrun & Hst & H).
  exists j', w'. split; [exact Hrun|]. split; [exact Hst|].
  apply H.
Defined.

(** ** abort (C3) *)

Lemma Job_abort_id_of j i : Job_id j = Ok i → Job_abort_id j = Ok (i +:+ ":abort").
Proof. unfold Job_abort_id. by intros ->. Qed.

(** The abort transaction, as sent for the job with id [i]. *)
Lemma abort_not_queued_run w j err ttl_ i :
  0 < ttl_ → Job_id j = Ok i → i ∉ r_queued (redis w) →
  let cmds := [LREM K_queued 0 i; ZREM i; EXPIRE i (ttl_ + 1);
               SETEX (i +:+ ":abort") ttl_ err] in
  abort j err ttl_ w
  = (Ok j,
     with_trace (trace w ++ [EvPipeline cmds; EvCmd (LREM K_active 0 i)])
       (with_redis (fst (exec_cmd (LREM K_active 0 i) (fst (exec_cmds cmds (redis w))))) w)).
Proof.
  intros Httl Hi Hq cmds. unfold abort.
  rewrite (bind_ok _ _ w i w) by (unfold lift; by rewrite Hi).
  rewrite (bind_ok _ _ w (i +:+ ":abort") w)
    by (unfold lift; by rewrite (Job_abort_id_of _ _ Hi)).
  fold cmds.
  erewrite bind_ok
    by (apply pipeline_execute_run; unfold cmds; repeat constructor; exact Httl).
  assert (Hd : reply_truthy (hd RNil (snd (exec_cmds cmds (redis w)))) = false).
  { unfold cmds. rewrite hd_exec_cmds. cbn [exec_cmd get_list snd]. unfold lrem.
    cbn [Z.eqb]. rewrite (remove_all_notin _ _ Hq). cbn [reply_truthy].
    by rewrite Z.sub_diag. }
  rewrite Hd. erewrite bind_ok by (by apply redis_call_run).
  unfold ret. f_equal. cbn [trace with_trace with_redis redis].
  by rewrite <- app_assoc.
Qed.

Lemma abort_store r i ttl_ err :
  0 < ttl_ →
  let r' := fst (exec_cmd (LREM K_active 0 i)
              (fst (exec_cmds [LREM K_queued 0 i; ZREM i; EXPIRE i (ttl_ + 1);
                               SETEX (i +:+ ":abort") ttl_ err] r))) in
  r_active r' = remove_all i (r_active r)
  ∧ r_queued r' = remove_all i (r_queued r)
  ∧ r_incomplete r' = delete i (r_incomplete r)
  ∧ r_strings r' !! (i +:+ ":abort") = Some (mkEntry err (Some ttl_))
  ∧ r_published r' = r_published r.
Proof.
  intros Httl. cbn [exec_cmds exec_cmd].
  destruct (ttl_ <=? 0) eqn:E0; [apply Z.leb_le in E0; lia|].
  destruct (r_strings _ !! i) eqn:E; [destruct (ttl_ + 1 <=? 0)|];
    cbn; repeat split; try reflexivity; apply lookup_insert_eq.
Qed.

(** C3, as amended.  When the id [i] of the job is not in [queued] (and
    [ttl] > 0, an expiry the server accepts), [abort] sends the transaction
    [LREM(queued, 0, i); ZREM(incomplete, i); EXPIRE(i, ttl+1);
    SETEX(abort_id, ttl, error)] and then one more command,
    [LREM(active, 0, i)]: every occurrence of [i] is removed from [active]
    by [abort] itself.  [active] is left as it was only when [i] was not in
    it.  [queued] is unchanged, [i] leaves [incomplete], the abort marker is
    set with expiry ttl, nothing is published, and the job object is returned
    unchanged. *)
Theorem abort_not_queued_clears_active (w : World) (j : Job) (err : string)
    (ttl_ : Z) (i : string) :
  0 < ttl_ → Job_id j = Ok i → i ∉ r_queued (redis w) →
  ∃ w',
    abort j err ttl_ w = (Ok j, w')
    ∧ trace w'
      = trace w ++
        [EvPipeline [LREM K_queued 0 i; ZREM i; EXPIRE i (ttl_ + 1);
                     SETEX (i +:+ ":abort") ttl_ err];
         EvCmd (LREM K_active 0 i)]
    ∧ r_active (redis w') = remove_all i (r_active (redis w))
    ∧ (i ∉ r_active (redis w'))
    ∧ (∀ x, x ≠ i → (x ∈ r_active (redis w') ↔ x ∈ r_active (redis w)))
    ∧ (i ∉ r_active (redis w) → r_active (redis w') = r_active (redis w))
    ∧ r_queued (redis w') = r_queued (redis w)
    ∧ r_incomplete (redis w') = delete i (r_incomplete (redis w))
    ∧ r_strings (redis w') !! (i +:+ ":abort") = Some (mkEntry err (Some ttl_))
    ∧ r_published (redis w') = r_published (redis w).
Proof.
  intros Httl Hi Hq. eexists.
  split; [apply (abort_not_queued_run _ _ _ _ _ Httl Hi Hq)|].
  destruct (abort_store (redis w) i ttl_ err Httl) as (Ha & Hqq & Hz & Hs & Hp).
  cbn [redis trace with_trace with_redis].
  rewrite Ha, Hqq, Hz, Hs, Hp. split_and!; try reflexivity.
  - rewrite remove_all_elem. by intros [_ H].
  - intros x Hx. rewrite remove_all_elem. split; [by intros [H _] | by intros H].
  - intros Hn. by apply remove_all_notin.
  - by apply remove_all_notin.
Qed.

(** At [untimed_world] the id is in [active] and not in [queued]; after
    [abort] the [active] list is not what it was. *)
Lemma abort_removes_from_active :
  Job_id untimed_job = Ok "saq:job:q:k"%string
  ∧ ("saq:job:q:k"%string ∉ r_queued (redis untimed_world))
  ∧ r_active (redis untimed_world) = ["saq:job:q:k"%string]
  ∧ fst (abort untimed_job "stop" 5 untimed_world) = Ok untimed_job
  ∧ r_active (redis (snd (abort untimed_job "stop" 5 untimed_world))) = []
  ∧ r_active (redis (snd (abort untimed_job "stop" 5 untimed_world)))
    ≠ r_active (redis untimed_world).
Proof.
  split; [reflexivity|]. split; [vm_compute; apply not_elem_of_nil|].
  repeat split; try (vm_compute; reflexivity). vm_compute. discriminate.
Qed.

(** [untimed_job] aborted with ttl 5 in [untimed_world], where its id is
    active and not queued. *)
Lemma abort_not_queued_witness :
  0 < 5
  ∧ Job_id untimed_job = Ok "saq:job:q:k"%string
  ∧ ("saq:job:q:k"%string ∉ r_queued (redis untimed_world))
  ∧ ∃ w', abort untimed_job "stop" 5 untimed_world = (Ok untimed_job, w')
          ∧ r_active (redis w') = remove_all "saq:job:q:k" (r_active (redis untimed_world)).
Proof.
  assert (H1 : Job_id untimed_job = Ok "saq:job:q:k"%string) by reflexivity.
  assert (H2 : "saq:job:q:k"%string ∉ r_queued (redis untimed_world))
    by (vm_compute; apply not_elem_of_nil).
  assert (H0 : 0 < 5) by lia.
  split; [exact H0|]. split; [exact H1|]. split; [exact H2|].
  destruct (abort_not_queued_clears_active untimed_world untimed_job "stop" 5 _
              H0 H1 H2)
    as (w' & Hrun & _ & Ha & _).
  exists w'. split; [exact Hrun | exact Ha].
Defined.

(** ** enqueue: callbacks, then the script (C4, C9) *)

Lemma run_callbacks_ok cbs : ∀ j j' w,
  fst (run_callbacks cbs j w) = Ok j' →
  snd (run_callbacks cbs j w)
  = with_trace (trace w ++ List.map EvCallback (List.map fst cbs)) w.
Proof.
  induction cbs as [|[cid cb] rest IH]; intros j j' w H.
  - simpl. rewrite app_nil_r. by destruct w.
  - cbn [run_callbacks] in *. unfold bind at 1 in H. unfold bind at 1.
    unfold log in *. unfold bind at 1 in H. unfold bind at 1. unfold lift in *.
    destruct (cb j) as [j1|e]; [|discriminate].
    rewrite (IH _ _ _ H). cbn [trace with_trace List.map fst].
    by rewrite <- app_assoc.
Qed.

Lemma run_callbacks_raise cbs : ∀ j e w,
  fst (run_callbacks cbs j w) = Raise e →
  ∃ pre cid cb post jin,
    cbs = pre ++ (cid, cb) :: post ∧ cb jin = Raise e
    ∧ snd (run_callbacks cbs j w)
      = with_trace (trace w ++ List.map EvCallback (List.map fst pre ++ [cid])) w.
Proof.
  induction cbs as [|[cid cb] rest IH]; intros j e w H.
  - discriminate.
  - cbn [run_callbacks] in *. unfold bind at 1 in H. unfold bind at 1.
    unfold log in *. unfold bind at 1 in H. unfold bind at 1. unfold lift in *.
    destruct (cb j) as [j1|e1] eqn:E.
    + destruct (IH _ _ _ H) as (pre & c & f & post & jin & -> & Hf & Hs).
      exists ((cid, cb) :: pre), c, f, post, jin. split_and!; [done|done|].
      rewrite Hs. cbn [trace with_trace List.map fst]. by rewrite <- app_assoc.
    + cbn in H. inversion H; subst.
      exists [], cid, cb, rest, j. split_and!; done.
Qed.

Lemma before_enqueue_unfold j w :
  _before_enqueue j w = run_callbacks (_before_enqueues (self w)) j w.
Proof. reflexivity. Qed.

Lemma enqueue_prepare_raise w jf kw e :
  prepare (self w) (next_uuid w) (now_ms w) jf kw = Raise e →
  enqueue jf kw w = (Raise e, w).
Proof.
  intros H. unfold enqueue. rewrite (bind_ok _ _ w w w) by reflexivity.
  apply bind_raise. unfold lift. by rewrite H.
Qed.

Lemma enqueue_callbacks_raise w jf kw jq e :
  prepare (self w) (next_uuid w) (now_ms w) jf kw = Ok jq →
  fst (_before_enqueue jq w) = Raise e →
  enqueue jf kw w = (Raise e, snd (_before_enqueue jq w)).
Proof.
  intros H Hc. unfold enqueue. rewrite (bind_ok _ _ w w w) by reflexivity.
  rewrite (bind_ok _ _ w jq w) by (unfold lift; by rewrite H).
  apply bind_raise. destruct (_before_enqueue jq w); cbn in *. by subst.
Qed.

(** The enqueue script on a store where the id is taken or an abort marker
    stands. *)
Lemma enqueue_script_blocked r i a s z :
  is_Some (r_incomplete r !! i) ∨ is_Some (r_strings r !! a) →
  enqueue_script i a s z r = (r, RNil).
Proof.
  unfold enqueue_script, lua_call. cbn [exec_cmd].
  destruct (r_incomplete r !! i) as [q|] eqn:E; [reflexivity|].
  intros [[q Hq] | Ha]; [discriminate|].
  cbn [lua_truthy]. by rewrite (bool_decide_eq_true_2 _ Ha).
Qed.

Lemma enqueue_script_free r i a s z :
  r_incomplete r !! i = None → r_strings r !! a = None →
  enqueue_script i a s z r
  = ({| r_strings := <[i := mkEntry s None]> (r_strings r);
        r_incomplete := <[i := inject_Z z]> (r_incomplete r);
        r_queued := if z =? 0 then r_queued r ++ [i] else r_queued r;
        r_active := r_active r;
        r_published := r_published r;
        r_version := r_version r |}, RInt 1).
Proof.
  intros Hi Ha. unfold enqueue_script, lua_call. cbn [exec_cmd]. rewrite Hi.
  cbn [lua_truthy].
  rewrite bool_decide_eq_false_2 by (rewrite Ha; by intros [? ?]).
  cbn [bool_to_Z reply_is_int Z.eqb].
  destruct (z =? 0); reflexivity.
Qed.

Lemma enqueue_script_checked r i a s z :
  checked (snd (enqueue_script i a s z r)) = Ok (snd (enqueue_script i a s z r)).
Proof.
  destruct (r_incomplete r !! i) as [q|] eqn:E1.
  { rewrite enqueue_script_blocked by (left; eauto). reflexivity. }
  destruct (r_strings r !! a) as [e|] eqn:E2.
  { rewrite enqueue_script_blocked by (right; eauto). reflexivity. }
  rewrite (enqueue_script_free _ _ _ _ _ E1 E2). reflexivity.
Qed.

Lemma enqueue_run w jf kw jq j' i :
  prepare (self w) (next_uuid w) (now_ms w) jf kw = Ok jq →
  fst (_before_enqueue jq w) = Ok j' →
  Job_id j' = Ok i →
  let s := EnqueueScript i (i +:+ ":abort") (serialize (self w) j') (scheduled j') in
  let w1 := snd (_before_enqueue jq w) in
  enqueue jf kw w
  = (if reply_truthy (snd (run_script s (redis w1))) then Ok (Some j') else Ok None,
     with_trace (trace w1 ++ [EvScript s])
       (with_redis (fst (run_script s (redis w1))) w1)).
Proof.
  intros H Hc Hi s w1. unfold enqueue. rewrite (bind_ok _ _ w w w) by reflexivity.
  rewrite (bind_ok _ _ w jq w) by (unfold lift; by rewrite H).
  rewrite (bind_ok _ _ w j' w1)
    by (unfold w1; destruct (_before_enqueue jq w); cbn in *; by subst).
  rewrite (bind_ok _ _ w1 i w1) by (unfold lift; by rewrite Hi).
  rewrite (bind_ok _ _ w1 (i +:+ ":abort") w1)
    by (unfold lift; by rewrite (Job_abort_id_of _ _ Hi)).
  fold s. erewrite bind_ok
    by (rewrite call_script_run; cbn [run_script s];
        by rewrite enqueue_script_checked).
  destruct (reply_truthy _); reflexivity.
Qed.

Lemma enqueue_no_id w jf kw jq j' e :
  prepare (self w) (next_uuid w) (now_ms w) jf kw = Ok jq →
  fst (_before_enqueue jq w) = Ok j' →
  Job_id j' = Raise e →
  enqueue jf kw w = (Raise e, snd (_before_enqueue jq w)).
Proof.
  intros H Hc Hi. unfold enqueue. rewrite (bind_ok _ _ w w w) by reflexivity.
  rewrite (bind_ok _ _ w jq w) by (unfold lift; by rewrite H).
  rewrite (bind_ok _ _ w j' (snd (_before_enqueue jq w)))
    by (destruct (_before_enqueue jq w); cbn in *; by subst).
  apply bind_raise. unfold lift. by rewrite Hi.
Qed.

(** Every [enqueue] call either raises before the script is reached, the
    world unchanged but for callback events, or runs the script on the job
    the callbacks left. *)
Lemma enqueue_cases w jf kw :
  (∃ e cids,
     enqueue jf kw w
     = (Raise e, with_trace (trace w ++ List.map EvCallback cids) w))
  ∨ (∃ j' i,
       Job_id j' = Ok i
       ∧ redis (snd (enqueue jf kw w))
         = fst (enqueue_script i (i +:+ ":abort") (serialize (self w) j')
                  (scheduled j') (redis w))
       ∧ fst (enqueue jf kw w)
         = if reply_truthy
                (snd (enqueue_script i (i +:+ ":abort") (serialize (self w) j')
                        (scheduled j') (redis w)))
           then Ok (Some j') else Ok None).
Proof.
  destruct (prepare (self w) (next_uuid w) (now_ms w) jf kw) as [jq|e] eqn:Hp.
  2:{ left. exists e, []. rewrite (enqueue_prepare_raise _ _ _ _ Hp).
      simpl. rewrite app_nil_r. by destruct w. }
  destruct (fst (_before_enqueue jq w)) as [j'|e] eqn:Hc.
  2:{ left. rewrite (enqueue_callbacks_raise _ _ _ _ _ Hp Hc).
      rewrite before_enqueue_unfold in Hc.
      destruct (run_callbacks_raise _ _ _ _ Hc) as (pre & c & f & post & jin & _ & _ & Hs).
      exists e, (List.map fst pre ++ [c]). by rewrite before_enqueue_unfold, Hs. }
  pose proof Hc as Hc'. rewrite before_enqueue_unfold in Hc'.
  pose proof (run_callbacks_ok _ _ _ _ Hc') as Hw1.
  rewrite <- before_enqueue_unfold in Hw1.
  destruct (Job_id j') as [i|e] eqn:Hi.
  2:{ left. exists e, (List.map fst (_before_enqueues (self w))).
      rewrite (enqueue_no_id _ _ _ _ _ _ Hp Hc Hi). by rewrite Hw1. }
  right. exists j', i. split; [exact Hi|].
  rewrite (enqueue_run _ _ _ _ _ _ Hp Hc Hi). rewrite Hw1.
  cbn [fst snd redis with_trace with_redis run_script]. done.
Qed.

Lemma not_blocked r i a :
  ¬ blocked r i a → r_incomplete r !! i = None ∧ r_strings r !! a = None.
Proof.
  unfold blocked. intros H.
  destruct (r_incomplete r !! i) eqn:E1; [exfalso; apply H; left; eauto|].
  destruct (r_strings r !! a) eqn:E2; [exfalso; apply H; right; eauto|].
  done.
Qed.

(** C4.  The enqueue script answers nil and leaves the store as it is exactly
    when the job id has a score in [incomplete] or a key exists under the
    job's abort id; otherwise it stores the serialized record under the id
    (no expiry), gives the id the score [scheduled] in [incomplete], appends
    the id to [queued] exactly when [scheduled] = 0, and answers 1.  For the
    caller: every [enqueue] call either raises before the script is reached,
    with the store untouched, or reaches the script with the job [j'] the
    callbacks left; then it returns [None] (and raises nothing) in the nil
    case, the store unchanged, and returns the job otherwise. *)
Theorem enqueue_script_gate :
  (∀ r i a s z,
     (blocked r i a ↔ enqueue_script i a s z r = (r, RNil))
     ∧ (¬ blocked r i a →
        enqueue_script i a s z r
        = ({| r_strings := <[i := mkEntry s None]> (r_strings r);
              r_incomplete := <[i := inject_Z z]> (r_incomplete r);
              r_queued := if z =? 0 then r_queued r ++ [i] else r_queued r;
              r_active := r_active r;
              r_published := r_published r;
              r_version := r_version r |}, RInt 1)))
  ∧ (∀ w jf kw,
       (∃ e cids,
          enqueue jf kw w
          = (Raise e, with_trace (trace w ++ List.map EvCallback cids) w))
       ∨ (∃ j' i,
            Job_id j' = Ok i
            ∧ redis (snd (enqueue jf kw w))
              = fst (enqueue_script i (i +:+ ":abort") (serialize (self w) j')
                       (scheduled j') (redis w))
            ∧ (blocked (redis w) i (i +:+ ":abort") →
               fst (enqueue jf kw w) = Ok None
               ∧ redis (snd (enqueue jf kw w)) = redis w)
            ∧ (¬ blocked (redis w) i (i +:+ ":abort") →
               fst (enqueue jf kw w) = Ok (Some j')))).
Proof.
  split.
  - intros r i a s z. split; [split|].
    + apply enqueue_script_blocked.
    + intros H. destruct (r_incomplete r !! i) eqn:E1; [left; eauto|].
      destruct (r_strings r !! a) eqn:E2; [right; eauto|].
      rewrite (enqueue_script_free _ _ _ _ _ E1 E2) in H. discriminate.
    + intros H. apply not_blocked in H as [E1 E2]. by apply enqueue_script_free.
  - intros w jf kw.
    destruct (enqueue_cases w jf kw) as [Hraise | (j' & i & Hi & Hred & Hres)];
      [left; exact Hraise|].
    right. exists j', i. split; [exact Hi|]. split; [exact Hred|].
    rewrite Hres, Hred. split.
    + intros Hb. rewrite (enqueue_script_blocked _ _ _ _ _ Hb). done.
    + intros Hb. apply not_blocked in Hb as [E1 E2].
      rewrite (enqueue_script_free _ _ _ _ _ E1 E2). done.
Qed.

(** At [scheduled_redis] the id of the job already has a score: the script
    answers nil and the store stays as it is. *)
Lemma enqueue_script_witness :
  blocked scheduled_redis "saq:job:q:k1" "saq:job:q:k1:abort"
  ∧ enqueue_script "saq:job:q:k1" "saq:job:q:k1:abort" "J" 0 scheduled_redis
    = (scheduled_redis, RNil).
Proof.
  assert (H : blocked scheduled_redis "saq:job:q:k1" "saq:job:q:k1:abort").
  { left. exists 5%Q. vm_compute. reflexivity. }
  split; [exact H|].
  exact (proj1 (proj1 (proj1 enqueue_script_gate scheduled_redis
                         "saq:job:q:k1"%string "saq:job:q:k1:abort"%string
                         "J"%string 0)) H).
Defined.

Lemma register_appends cid cb w :
  cid ∉ List.map fst (_before_enqueues (self w)) →
  List.map fst (_before_enqueues (self (snd (register_before_enqueue cid cb w))))
  = List.map fst (_before_enqueues (self w)) ++ [cid].
Proof.
  unfold register_before_enqueue, modify_self.
  cbn [snd self with_self _before_enqueues with_before_enqueues].
  induction (_before_enqueues (self w)) as [|[c f] l IH]; intros H; [done|].
  cbn [List.map fst] in H. apply not_elem_of_cons in H as [H1 H2].
  cbn [cb_set]. destruct (Nat.eqb cid c) eqn:E.
  - apply Nat.eqb_eq in E. congruence.
  - cbn [List.map fst]. rewrite (IH H2). reflexivity.
Qed.

Lemma register_again_keeps_place cid cb w :
  cid ∈ List.map fst (_before_enqueues (self w)) →
  List.map fst (_before_enqueues (self (snd (register_before_enqueue cid cb w))))
  = List.map fst (_before_enqueues (self w)).
Proof.
  unfold register_before_enqueue, modify_self.
  cbn [snd self with_self _before_enqueues with_before_enqueues].
  induction (_before_enqueues (self w)) as [|[c f] l IH]; intros H.
  - by apply elem_of_nil in H.
  - cbn [cb_set]. destruct (Nat.eqb cid c) eqn:E.
    + apply Nat.eqb_eq in E. by subst.
    + apply Nat.eqb_neq in E. cbn [List.map fst] in *.
      apply elem_of_cons in H as [H|H]; [congruence|]. by rewrite (IH H).
Qed.

(** C9.  A callback registered under a new identity goes last in the
    registry.  In an [enqueue] call, whatever is raised while the job is
    prepared leaves the world as it was.  Once the job is prepared the
    callbacks are awaited one after the other in registry order.  If one of
    them raises, the callbacks before it were awaited, those after it were
    not, the exception is what [enqueue] raises, and the world differs from
    the initial one by these callback events alone: no command, pipeline or
    script was sent and the store is unchanged.  If none raises, all were
    awaited in order, and the script call is the next and last event. *)
Theorem enqueue_awaits_callbacks_first (w : World) (jf : JobOrFunc) (kw : pydict) :
  (∀ cid cb, cid ∉ List.map fst (_before_enqueues (self w)) →
     List.map fst (_before_enqueues (self (snd (register_before_enqueue cid cb w))))
     = List.map fst (_before_enqueues (self w)) ++ [cid])
  ∧ (∀ e, prepare (self w) (next_uuid w) (now_ms w) jf kw = Raise e →
          enqueue jf kw w = (Raise e, w))
  ∧ (∀ jq, prepare (self w) (next_uuid w) (now_ms w) jf kw = Ok jq →
       match fst (_before_enqueue jq w) with
       | Raise e =>
           ∃ pre cid cb post jin,
             _before_enqueues (self w) = pre ++ (cid, cb) :: post
             ∧ cb jin = Raise e
             ∧ enqueue jf kw w
               = (Raise e,
                  with_trace
                    (trace w ++ List.map EvCallback (List.map fst pre ++ [cid])) w)
       | Ok j' =>
           ∀ i, Job_id j' = Ok i →
             trace (snd (enqueue jf kw w))
             = trace w
               ++ List.map EvCallback (List.map fst (_before_enqueues (self w)))
               ++ [EvScript (EnqueueScript i (i +:+ ":abort")
                               (serialize (self w) j') (scheduled j'))]
       end).
Proof.
  split_and!.
  - intros cid cb. apply register_appends.
  - intros e. apply enqueue_prepare_raise.
  - intros jq Hp. destruct (fst (_before_enqueue jq w)) as [j'|e] eqn:Hc.
    + intros i Hi. rewrite (enqueue_run _ _ _ _ _ _ Hp Hc Hi).
      rewrite before_enqueue_unfold in *. rewrite (run_callbacks_ok _ _ _ _ Hc).
      cbn [snd trace with_trace with_redis]. by rewrite <- app_assoc.
    + rewrite (enqueue_callbacks_raise _ _ _ _ _ Hp Hc).
      rewrite before_enqueue_unfold in *.
      destruct (run_callbacks_raise _ _ _ _ Hc) as (pre & c & f & post & jin & Hr & Hf & Hs).
      exists pre, c, f, post, jin. by rewrite Hs.
Qed.

(** At [guarded_world] the registry holds callback 7, which passes, then
    callback 3, which refuses: enqueue raises the refusal, both callbacks
    were awaited in that order, and the store was not contacted. *)
Lemma enqueue_refused_witness :
  prepare (self guarded_world) (next_uuid guarded_world) (now_ms guarded_world)
    (AJob add_job) [] = Ok add_job
  ∧ enqueue (AJob add_job) [] guarded_world
    = (Raise (OtherError "refused"),
       with_trace (trace guarded_world ++ [EvCallback 7%nat; EvCallback 3%nat])
         guarded_world).
Proof.
  assert (Hp : prepare (self guarded_world) (next_uuid guarded_world)
                 (now_ms guarded_world) (AJob add_job) [] = Ok add_job)
    by reflexivity.
  split; [exact Hp|].
  pose proof (proj2 (proj2 (enqueue_awaits_callbacks_first guarded_world
                              (AJob add_job) [])) add_job Hp) as H.
  change (fst (_before_enqueue add_job guarded_world))
    with (@Raise Job (OtherError "refused")) in H.
  destruct H as (pre & cid & cb & post & jin & Hreg & _ & Hrun).
  rewrite Hrun. f_equal. f_equal. f_equal.
  change (_before_enqueues (self guarded_world))
    with [(7%nat, cb_pass); (3%nat, cb_refuse)] in Hreg.
  destruct pre as [|p1 [|p2 [|p3 pre]]]; simpl in Hreg.
  - inversion Hreg; subst.
    (* the first callback passes: it cannot be the one that raised *)
    exfalso. clear -Hrun.
    apply (f_equal (fun x => trace (snd x))) in Hrun. vm_compute in Hrun.
    discriminate Hrun.
  - by inversion Hreg; subst.
  - inversion Hreg.
  - inversion Hreg.
Defined.

(** ** Sorted-set lemmas *)

Lemma bulk_items_map (ids : list string) :
  bulk_items (RArray (List.map RBulk ids)) = ids.
Proof.
  unfold bulk_items. induction ids as [|x ids IH]; [done|].
  cbn [List.map]. cbn [omap list_omap]. by rewrite IH.
Qed.

Lemma zrangebyscore_elem (lo hi : Q) (m : gmap string Q) (i : string) :
  i ∈ zrangebyscore lo hi m
  ↔ ∃ s, m !! i = Some s ∧ (lo <= s)%Q ∧ (s <= hi)%Q.
Proof.
  unfold zrangebyscore. rewrite list_elem_of_In, in_map_iff. split.
  - intros ([k s] & <- & Hin). apply list_elem_of_In in Hin.
    rewrite merge_sort_Permutation in Hin.
    apply list_elem_of_In, filter_In in Hin as [Hin Hr].
    apply list_elem_of_In, elem_of_map_to_list in Hin.
    unfold in_score_range in Hr. apply andb_true_iff in Hr as [H1 H2].
    apply Qle_bool_iff in H1, H2. exists s. done.
  - intros (s & Hm & H1 & H2). exists (i, s). split; [done|].
    apply list_elem_of_In. rewrite merge_sort_Permutation.
    apply list_elem_of_In, filter_In. split.
    + by apply list_elem_of_In, elem_of_map_to_list.
    + unfold in_score_range. apply andb_true_iff.
      split; by apply Qle_bool_iff.
Qed.

Lemma NoDup_map_fst_filter {A} (p : string * A → bool) (l : list (string * A)) :
  NoDup (List.map fst l) → NoDup (List.map fst (List.filter p l)).
Proof.
  induction l as [|x l IH]; [done|]. cbn [List.map List.filter].
  intros H. apply NoDup_cons in H as [Hx Hl].
  destruct (p x); [|by apply IH]. cbn [List.map]. apply NoDup_cons. split; [|by apply IH].
  intros Hin. apply Hx. apply list_elem_of_In, in_map_iff in Hin as (y & Hy & Hin).
  apply filter_In in Hin as [Hin _]. apply list_elem_of_In, in_map_iff. by exists y.
Qed.

Lemma map_fst_fmap {A B} (l : list (A * B)) : List.map fst l = l.*1.
Proof. induction l as [|x l IH]; [done|]. simpl. by rewrite IH. Qed.

Lemma zrangebyscore_NoDup (lo hi : Q) (m : gmap string Q) :
  NoDup (zrangebyscore lo hi m).
Proof.
  unfold zrangebyscore.
  assert (P : List.map fst
                (merge_sort (fun a b => Is_true (zset_leb a b))
                   (List.filter (in_score_range lo hi) (map_to_list m)))
              ≡ₚ List.map fst (List.filter (in_score_range lo hi) (map_to_list m))).
  { apply Permutation_map. apply merge_sort_Permutation. }
  rewrite P. apply NoDup_map_fst_filter. rewrite map_fst_fmap.
  apply NoDup_fst_map_to_list.
Qed.

Lemma zadd_zero_lookup (ids : list string) : ∀ (m : gmap string Q) (k : string),
  zadd (List.map (fun v => (0%Q, v)) ids) m !! k
  = if decide (k ∈ ids) then Some 0%Q else m !! k.
Proof.
  unfold zadd. induction ids as [|x ids IH]; intros m k.
  - cbn. destruct (decide _) as [H|H]; [by apply elem_of_nil in H|done].
  - cbn [List.map fold_left fst snd]. rewrite IH.
    destruct (decide (k ∈ ids)) as [H|H].
    + rewrite decide_True; [done|]. by right.
    + destruct (decide (k = x)) as [->|Hne].
      * rewrite lookup_insert_eq. rewrite decide_True; [done|]. by left.
      * rewrite lookup_insert_ne by done. rewrite decide_False; [done|].
        intros Hin. apply elem_of_cons in Hin as [?|?]; done.
Qed.

(** ** schedule (C7) *)

Lemma schedule_script_locked key lock now_s r :
  is_Some (r_strings r !! key) →
  schedule_script key lock now_s r = (r, RNil).
Proof.
  intros H. unfold schedule_script, lua_call. cbn [exec_cmd].
  by rewrite (bool_decide_eq_true_2 _ H).
Qed.

(** A lock time the server rejects: the script fails at SETEX, nothing is
    written. *)
Lemma schedule_script_rejected key lock now_s r :
  lock ≤ 0 → r_strings r !! key = None →
  schedule_script key lock now_s r
  = (r, RErr "invalid expire time in 'setex' command").
Proof.
  intros Hl H. unfold schedule_script, lua_call. cbn [exec_cmd].
  rewrite bool_decide_eq_false_2 by (rewrite H; by intros [? ?]).
  cbn [bool_to_Z reply_is_int Z.eqb].
  destruct (lock <=? 0) eqn:E; [reflexivity | apply Z.leb_gt in E; lia].
Qed.

Lemma schedule_script_free key lock now_s r :
  0 < lock → r_strings r !! key = None →
  let due := zrangebyscore 1 now_s (r_incomplete r) in
  schedule_script key lock now_s r
  = ({| r_strings := <[key := mkEntry "1" (Some lock)]> (r_strings r);
        r_incomplete :=
          match due with
          | [] => r_incomplete r
          | _ :: _ => zadd (List.map (fun v => (0%Q, v)) due) (r_incomplete r)
          end;
        r_queued := r_queued r ++ due;
        r_active := r_active r;
        r_published := r_published r;
        r_version := r_version r |},
     RArray (List.map RBulk due)).
Proof.
  intros Hl H due. unfold schedule_script, lua_call. cbn [exec_cmd].
  rewrite bool_decide_eq_false_2 by (rewrite H; by intros [? ?]).
  cbn [bool_to_Z reply_is_int Z.eqb].
  destruct (lock <=? 0) eqn:E; [apply Z.leb_le in E; lia|].
  cbn [r_incomplete with_strings]. fold due. rewrite bulk_items_map.
  destruct due as [|d due']; [|reflexivity].
  cbn. by rewrite app_nil_r.
Qed.

(** C7.  Let [key] be the schedule lock key and [due] the ids of
    [incomplete] with a score from 1 to the current time in seconds, in
    sorted-set order.  When no key [key] exists (and the lock time is a
    valid expiry, [lock] > 0), one script call sets the lock key with expiry
    [lock], gives every id of [due] the score 0, leaves every other score
    as it was, appends [due] to [queued] in the same order, and returns
    [due]; [due] holds exactly the ids whose score is at least 1 and at most
    now, each once, and no id of score 0.  When the key exists, the call
    returns nothing and the store is unchanged. *)
Theorem schedule_promotes_due (seconds : Z → Q) (w : World) (lock : Z) :
  let key := namespace (self w) "schedule" in
  let now_s := seconds (now_ms w) in
  let due := zrangebyscore 1 now_s (r_incomplete (redis w)) in
  (0 < lock → r_strings (redis w) !! key = None →
   ∃ w',
     schedule seconds lock w = (Ok (Some due), w')
     ∧ trace w' = trace w ++ [EvScript (ScheduleScript key lock now_s)]
     ∧ r_strings (redis w')
       = <[key := mkEntry "1" (Some lock)]> (r_strings (redis w))
     ∧ (∀ i, i ∈ due
             ↔ ∃ s, r_incomplete (redis w) !! i = Some s
                    ∧ (1 <= s)%Q ∧ (s <= now_s)%Q)
     ∧ (∀ i s, r_incomplete (redis w) !! i = Some s → (s == 0)%Q → i ∉ due)
     ∧ NoDup due
     ∧ (∀ i, r_incomplete (redis w') !! i
             = if decide (i ∈ due) then Some 0%Q
               else r_incomplete (redis w) !! i)
     ∧ r_queued (redis w') = r_queued (redis w) ++ due
     ∧ r_active (redis w') = r_active (redis w)
     ∧ r_published (redis w') = r_published (redis w))
  ∧ (is_Some (r_strings (redis w) !! key) →
     schedule seconds lock w
     = (Ok None, with_trace (trace w ++ [EvScript (ScheduleScript key lock now_s)]) w)).
Proof.
  intros key now_s due. split.
  - intros Hlock Hfree.
    exists (with_trace (trace w ++ [EvScript (ScheduleScript key lock now_s)])
              (with_redis (fst (schedule_script key lock now_s (redis w))) w)).
    split.
    + unfold schedule. rewrite (bind_ok _ _ w w w) by reflexivity.
      rewrite (bind_ok _ _ w (now_ms w) w) by reflexivity.
      fold key now_s. erewrite bind_ok.
      2:{ rewrite call_script_run. cbn [run_script].
          rewrite (schedule_script_free _ _ _ _ Hlock Hfree). reflexivity. }
      rewrite (schedule_script_free _ _ _ _ Hlock Hfree). cbn [fst snd].
      fold due. unfold ret. rewrite bulk_items_map.
      destruct due; reflexivity.
    + rewrite (schedule_script_free _ _ _ _ Hlock Hfree). fold due.
      cbn [fst redis trace with_trace with_redis r_strings r_incomplete r_queued
             r_active r_published].
      split_and!; try reflexivity.
      * intros i. apply zrangebyscore_elem.
      * intros i s Hs H0 Hin. apply zrangebyscore_elem in Hin as (s' & Hs' & H1 & _).
        rewrite Hs in Hs'. inversion Hs'; subst. rewrite H0 in H1.
        by apply Qle_bool_iff in H1.
      * apply zrangebyscore_NoDup.
      * intros i. fold due. destruct due as [|d due'] eqn:E.
        -- rewrite decide_False; [done|]. apply not_elem_of_nil.
        -- apply zadd_zero_lookup.
  - intros Hheld. unfold schedule. rewrite (bind_ok _ _ w w w) by reflexivity.
    rewrite (bind_ok _ _ w (now_ms w) w) by reflexivity.
    fold key now_s. erewrite bind_ok.
    2:{ rewrite call_script_run. cbn [run_script].
        rewrite (schedule_script_locked _ _ _ _ Hheld). reflexivity. }
    unfold ret. cbn [fst]. by rewrite with_redis_same.
Qed.

(** In [scheduled_world] the schedule lock is free and the one job, due
    since second 5, is promoted at second 20. *)
Lemma schedule_witness :
  0 < 1
  ∧ r_strings (redis scheduled_world) !! namespace (self scheduled_world) "schedule" = None
  ∧ zrangebyscore 1 (ms_to_seconds (now_ms scheduled_world))
      (r_incomplete (redis scheduled_world)) = ["saq:job:q:k1"%string]
  ∧ ∃ w', schedule ms_to_seconds 1 scheduled_world
          = (Ok (Some (zrangebyscore 1 (ms_to_seconds (now_ms scheduled_world))
                         (r_incomplete (redis scheduled_world)))), w')
          ∧ r_queued (redis w')
            = r_queued (redis scheduled_world)
              ++ zrangebyscore 1 (ms_to_seconds (now_ms scheduled_world))
                   (r_incomplete (redis scheduled_world)).
Proof.
  assert (H0 : 0 < 1) by lia.
  assert (H1 : r_strings (redis scheduled_world)
               !! namespace (self scheduled_world) "schedule" = None)
    by (vm_compute; reflexivity).
  split; [exact H0|]. split; [exact H1|]. split; [vm_compute; reflexivity|].
  destruct (proj1 (schedule_promotes_due ms_to_seconds scheduled_world 1) H0 H1)
    as (w' & Hrun & _ & _ & _ & _ & _ & _ & Hq & _).
  exists w'. split; [exact Hrun | exact Hq].
Defined.

(** ** sweep (C6) *)

Lemma lrange_all (xs : list string) : lrange 0 (-1) xs = xs.
Proof.
  unfold lrange. cbn [Z.ltb Z.compare].
  destruct xs as [|x xs]; [reflexivity|].
  set (n := length (x :: xs)).
  replace (Z.of_nat n + -1 <? 0) with false by (symmetry; apply Z.ltb_ge; simpl in n; lia).
  replace (Z.of_nat n + -1 - 0 + 1) with (Z.of_nat n) by lia.
  rewrite Nat2Z.id. cbn [Z.to_nat skipn]. apply firstn_all.
Qed.

Lemma bulk_options_get (m : gmap string Entry) (ids : list string) :
  bulk_options (RArray (List.map (fun k => reply_of_get (m !! k)) ids))
  = List.map (fun k => e_val <$> m !! k) ids.
Proof.
  unfold bulk_options. rewrite List.map_map. apply List.map_ext.
  intros k. by destruct (m !! k).
Qed.

Lemma combine_map_self {A B} (f : A → B) (l : list A) :
  combine l (List.map f l) = List.map (fun x => (x, f x)) l.
Proof. induction l as [|x l IH]; [done|]. simpl. by rewrite IH. Qed.

Lemma cleanup_script_free key lock r :
  0 < lock → r_strings r !! key = None →
  cleanup_script key lock r
  = (with_strings (<[key := mkEntry "1" (Some lock)]> (r_strings r)) r,
     RArray (List.map RBulk (r_active r))).
Proof.
  intros Hl H. unfold cleanup_script, lua_call. cbn [exec_cmd].
  rewrite bool_decide_eq_false_2 by (rewrite H; by intros [? ?]).
  cbn [bool_to_Z reply_is_int Z.eqb].
  destruct (lock <=? 0) eqn:E; [apply Z.leb_le in E; lia|].
  cbn [get_list with_strings r_active]. by rewrite lrange_all.
Qed.

Lemma deserialize_queue q fresh b jb :
  deserialize q fresh b = Ok (Some jb) → queue jb = Some (name q).
Proof.
  unfold deserialize. destruct b as [[|c b]|]; try discriminate.
  destruct (_load q _) as [d|e]; [|discriminate]. cbn [res_bind].
  destruct (dict_get "queue" d) as [v|]; [|discriminate].
  destruct (match v with PStr n => _ | _ => _ end); [|discriminate].
  destruct (Job_init _ _) as [j|e]; [|discriminate]. cbn [res_bind].
  intros H. inversion H; subst. reflexivity.
Qed.

Lemma Job_finish_run w j st res err i :
  Job_id j = Ok i → queue j = Some (name (self w)) →
  Job_finish j st res err w = finish j st res err w.
Proof.
  intros Hi Hq. unfold Job_finish. rewrite (bind_ok _ _ w w w) by reflexivity.
  rewrite Hq. by rewrite String.eqb_refl.
Qed.

Section SweepLoop.
Variable seconds : Z → Q.
Variable now : Z.
Variable rec : string → option Job.
Variable fresh : string.

Local Abbreviation sw := (sweepable seconds now rec).

Lemma sweep_loop_run (items : list (string * option string)) :
  ∀ (swept : list string) (w : World),
  now_ms w = now → next_uuid w = fresh →
  (∀ i b, (i, b) ∈ items →
     deserialize (self w) fresh b = Ok (rec i)
     ∧ ∀ jb, rec i = Some jb → Job_id jb = Ok i) →
  ∃ w',
    sweep_loop seconds items swept w
    = (Ok (swept ++ List.filter sw (List.map fst items)), w')
    ∧ redis w'
      = fold_left (sweep_step seconds now rec (serialize (self w)))
          (List.map fst items) (redis w).
Proof.
  induction items as [|[i b] rest IH]; intros swept w Hnow Hfresh Hrec.
  - exists w. cbn. by rewrite app_nil_r.
  - destruct (Hrec i b) as [Hdes Hid]; [by left|].
    assert (Hrest : ∀ i0 b0, (i0, b0) ∈ rest →
              deserialize (self w) fresh b0 = Ok (rec i0)
              ∧ ∀ jb, rec i0 = Some jb → Job_id jb = Ok i0).
    { intros i0 b0 Hin. apply Hrec. by right. }
    cbn [sweep_loop List.map fst List.filter fold_left].
    rewrite (bind_ok _ _ w w w) by reflexivity.
    rewrite (bind_ok _ _ w (rec i) w) by (unfold lift; by rewrite Hfresh, Hdes).
    destruct (rec i) as [jb|] eqn:Hri.
    + rewrite (bind_ok _ _ w now w) by (unfold utils_now; by rewrite Hnow).
      assert (Hsw' : sw i = negb (bool_decide (status jb = ACTIVE)) || stuck seconds now jb).
      { unfold sweepable. by rewrite Hri. }
      rewrite <- Hsw'.
      assert (Hstep : ∀ r, sweep_step seconds now rec (serialize (self w)) r i
                = if sw i then
                    fst (exec_cmd (PUBLISH i "aborted")
                      (fst (exec_cmds
                        [LREM K_active 1 i; ZREM i;
                         retain_cmd (serialize (self w)) i (finished now ABORTED PNone (Some "swept"%string) jb)] r)))
                  else r).
      { intros r. unfold sweep_step. rewrite Hri. reflexivity. }
      rewrite Hstep.
      destruct (sw i) eqn:Hs.
      * pose proof (Hid jb eq_refl) as Hjid.
        pose proof (deserialize_queue _ _ _ _ Hdes) as Hjq.
        erewrite bind_ok.
        2:{ rewrite (Job_finish_run _ _ _ _ _ _ Hjid Hjq).
            apply (finish_run _ _ _ _ _ _ Hjid). }
        set (w1 := with_trace _ _).
        destruct (IH (swept ++ [i]) w1) as (w' & Hrun & Hred).
        { exact Hnow. } { exact Hfresh. }
        { intros i0 b0 Hin. by apply Hrest. }
        exists w'. split.
        -- rewrite Hrun. by rewrite <- app_assoc.
        -- rewrite Hred. unfold w1. cbn [self redis with_trace with_redis with_self].
           rewrite Hnow. reflexivity.
      * destruct (IH swept w Hnow Hfresh Hrest) as (w' & Hrun & Hred).
        exists w'. split; [exact Hrun | exact Hred].
    + assert (Hstep : ∀ r, sweep_step seconds now rec (serialize (self w)) r i
                = fst (exec_cmds [LREM K_active 0 i; ZREM i] r)).
      { intros r. unfold sweep_step. by rewrite Hri. }
      rewrite Hstep. unfold sweepable. rewrite Hri.
      erewrite bind_ok by (apply pipeline_execute_run; repeat constructor).
      set (w1 := with_trace _ _).
      destruct (IH (swept ++ [i]) w1 Hnow Hfresh Hrest) as (w' & Hrun & Hred).
      exists w'. split.
      * rewrite Hrun. by rewrite <- app_assoc.
      * exact Hred.
Qed.
End SweepLoop.

Lemma count_remove_all_same (v : string) (xs : list string) :
  count_occ string_dec (remove_all v xs) v = 0%nat.
Proof.
  apply count_occ_not_In. rewrite <- list_elem_of_In, remove_all_elem. by intros [_ H].
Qed.

Lemma count_remove_all_other (v x : string) (xs : list string) :
  x ≠ v → count_occ string_dec (remove_all v xs) x = count_occ string_dec xs x.
Proof.
  intros Hne. unfold remove_all. induction xs as [|y xs IH]; [done|].
  cbn [List.filter]. destruct (String.eqb y v) eqn:E; cbn [negb].
  - apply String.eqb_eq in E. subst. rewrite count_occ_cons_neq by congruence. exact IH.
  - cbn [count_occ]. destruct (string_dec y x); by rewrite IH.
Qed.

Lemma count_remove_first_same (v : string) (xs : list string) :
  count_occ string_dec (remove_first_n 1 v xs) v = Nat.pred (count_occ string_dec xs v).
Proof.
  induction xs as [|y xs IH]; [done|].
  cbn [remove_first_n]. destruct (String.eqb y v) eqn:E.
  - apply String.eqb_eq in E. subst. rewrite count_occ_cons_eq by done.
    by destruct xs.
  - apply String.eqb_neq in E. rewrite !count_occ_cons_neq by done. exact IH.
Qed.

Lemma count_remove_first_other (v x : string) (xs : list string) :
  x ≠ v → count_occ string_dec (remove_first_n 1 v xs) x = count_occ string_dec xs x.
Proof.
  intros Hne. induction xs as [|y xs IH]; [done|].
  cbn [remove_first_n]. destruct (String.eqb y v) eqn:E.
  - apply String.eqb_eq in E. subst. rewrite count_occ_cons_neq by congruence.
    by destruct xs.
  - cbn [count_occ]. destruct (string_dec y x); by rewrite IH.
Qed.

Section SweepFold.
Variable seconds : Z → Q.
Variable now : Z.
Variable rec : string → option Job.
Variable ser : Job → string.

Local Abbreviation sw := (sweepable seconds now rec).
Local Abbreviation step := (sweep_step seconds now rec ser).

Lemma sweep_step_missing r i :
  rec i = None → step r i = fst (exec_cmds [LREM K_active 0 i; ZREM i] r).
Proof. intros H. unfold sweep_step. by rewrite H. Qed.

Lemma sweep_step_keep r i : sw i = false → step r i = r.
Proof.
  intros H. unfold sweep_step. rewrite H.
  destruct (rec i) eqn:E; [done|]. unfold sweepable in H. by rewrite E in H.
Qed.

Lemma sweep_step_swept r i jb :
  rec i = Some jb → sw i = true →
  step r i
  = fst (exec_cmd (PUBLISH i (Status_value ABORTED))
           (fst (exec_cmds
                   [LREM K_active 1 i; ZREM i;
                    retain_cmd ser i (finished now ABORTED PNone (Some "swept"%string) jb)]
                   r))).
Proof. intros H Hs. unfold sweep_step. by rewrite H, Hs. Qed.

Lemma sweep_step_queued r i : r_queued (step r i) = r_queued r.
Proof.
  destruct (sw i) eqn:Hs; [|by rewrite sweep_step_keep].
  destruct (rec i) as [jb|] eqn:E; [|by rewrite sweep_step_missing].
  rewrite (sweep_step_swept _ _ _ E Hs).
  by destruct (finish_store r ser i (finished now ABORTED PNone (Some "swept"%string) jb)
                 ABORTED) as (_ & -> & _).
Qed.

Lemma sweep_step_active r i :
  r_active (step r i)
  = match rec i with
    | None => remove_all i (r_active r)
    | Some _ => if sw i then remove_first_n 1 i (r_active r) else r_active r
    end.
Proof.
  destruct (rec i) as [jb|] eqn:E; [|by rewrite sweep_step_missing].
  destruct (sw i) eqn:Hs; [|by rewrite sweep_step_keep].
  rewrite (sweep_step_swept _ _ _ E Hs).
  by destruct (finish_store r ser i (finished now ABORTED PNone (Some "swept"%string) jb)
                 ABORTED) as (-> & _).
Qed.

Lemma sweep_step_incomplete r i :
  r_incomplete (step r i)
  = if sw i then delete i (r_incomplete r) else r_incomplete r.
Proof.
  destruct (sw i) eqn:Hs; [|by rewrite sweep_step_keep].
  destruct (rec i) as [jb|] eqn:E; [|by rewrite sweep_step_missing].
  rewrite (sweep_step_swept _ _ _ E Hs).
  by destruct (finish_store r ser i (finished now ABORTED PNone (Some "swept"%string) jb)
                 ABORTED) as (_ & _ & -> & _).
Qed.

Lemma sweep_step_strings r i x :
  r_strings (step r i) !! x
  = match rec i with
    | Some jb => if sw i && bool_decide (x = i) then swept_entry now ser jb
                 else r_strings r !! x
    | None => r_strings r !! x
    end.
Proof.
  destruct (rec i) as [jb|] eqn:E; [|by rewrite sweep_step_missing].
  destruct (sw i) eqn:Hs; [|by rewrite sweep_step_keep].
  rewrite (sweep_step_swept _ _ _ E Hs). cbn [andb].
  destruct (finish_store r ser i (finished now ABORTED PNone (Some "swept"%string) jb)
              ABORTED) as (_ & _ & _ & -> & _).
  unfold swept_entry. rewrite finished_ttl.
  destruct (bool_decide (x = i)) eqn:Ex.
  - apply bool_decide_eq_true in Ex. subst.
    destruct (0 <? ttl _); [|destruct (ttl _ =? 0)].
    + apply lookup_insert_eq. + apply lookup_insert_eq. + apply lookup_delete_eq.
  - apply bool_decide_eq_false in Ex.
    destruct (0 <? ttl _); [|destruct (ttl _ =? 0)].
    + by apply lookup_insert_ne. + by apply lookup_insert_ne. + by apply lookup_delete_ne.
Qed.

Lemma sweep_step_published r i :
  r_published (step r i)
  = r_published r
    ++ match rec i with
       | Some _ => if sw i then [(i, "aborted"%string)] else []
       | None => []
       end.
Proof.
  destruct (rec i) as [jb|] eqn:E; [|by rewrite sweep_step_missing, app_nil_r].
  destruct (sw i) eqn:Hs; [|by rewrite sweep_step_keep, app_nil_r].
  rewrite (sweep_step_swept _ _ _ E Hs).
  by destruct (finish_store r ser i (finished now ABORTED PNone (Some "swept"%string) jb)
                 ABORTED) as (_ & _ & _ & _ & -> & _).
Qed.

Lemma sweep_fold_queued ids : ∀ r, r_queued (fold_left step ids r) = r_queued r.
Proof.
  induction ids as [|i ids IH]; intros r; [done|].
  cbn [fold_left]. by rewrite IH, sweep_step_queued.
Qed.

Lemma sweep_fold_incomplete ids x : ∀ r,
  r_incomplete (fold_left step ids r) !! x
  = if sw x && bool_decide (x ∈ ids) then None else r_incomplete r !! x.
Proof.
  induction ids as [|i ids IH]; intros r.
  - cbn [fold_left]. rewrite bool_decide_eq_false_2 by apply not_elem_of_nil.
    by rewrite andb_false_r.
  - cbn [fold_left]. rewrite IH, sweep_step_incomplete.
    destruct (sw x) eqn:Hx; cbn [andb].
    + destruct (bool_decide (x ∈ ids)) eqn:Hin.
      * apply bool_decide_eq_true in Hin.
        rewrite bool_decide_eq_true_2; [done|by right].
      * apply bool_decide_eq_false in Hin.
        destruct (decide (x = i)) as [->|Hne].
        -- rewrite Hx, lookup_delete_eq.
           rewrite bool_decide_eq_true_2; [done|by left].
        -- rewrite bool_decide_eq_false_2.
           2:{ intros H. apply elem_of_cons in H as [?|?]; done. }
           destruct (sw i); [by rewrite lookup_delete_ne|done].
    + destruct (decide (x = i)) as [->|Hne].
      * by rewrite Hx.
      * destruct (sw i); [by rewrite lookup_delete_ne|done].
Qed.

Lemma sweep_fold_strings ids x : ∀ r,
  r_strings (fold_left step ids r) !! x
  = match rec x with
    | Some jb => if sw x && bool_decide (x ∈ ids) then swept_entry now ser jb
                 else r_strings r !! x
    | None => r_strings r !! x
    end.
Proof.
  induction ids as [|i ids IH]; intros r.
  - cbn [fold_left]. rewrite bool_decide_eq_false_2 by apply not_elem_of_nil.
    rewrite andb_false_r. by destruct (rec x).
  - cbn [fold_left]. rewrite IH, sweep_step_strings.
    destruct (decide (x = i)) as [->|Hne].
    + rewrite (bool_decide_eq_true_2 (i = i)) by done.
      rewrite (bool_decide_eq_true_2 (i ∈ i :: ids)) by (by left).
      destruct (rec i) as [jb|]; [|done].
      destruct (sw i); cbn [andb]; [|done]. by destruct (bool_decide _).
    + rewrite (bool_decide_eq_false_2 (x = i)) by done. rewrite andb_false_r.
      assert (Hb : bool_decide (x ∈ i :: ids) = bool_decide (x ∈ ids)).
      { apply bool_decide_ext. rewrite elem_of_cons.
        split; [intros [?|?]; done | by right]. }
      rewrite Hb. destruct (rec x) as [jb|]; by destruct (rec i).
Qed.

Lemma sweep_fold_active_keep ids x : ∀ r,
  sw x = false →
  count_occ string_dec (r_active (fold_left step ids r)) x
  = count_occ string_dec (r_active r) x.
Proof.
  induction ids as [|i ids IH]; intros r Hx; [done|].
  cbn [fold_left]. rewrite IH by done. rewrite sweep_step_active.
  destruct (decide (x = i)) as [->|Hne].
  - rewrite Hx. destruct (rec i) eqn:E; [done|].
    unfold sweepable in Hx. by rewrite E in Hx.
  - destruct (rec i); [destruct (sw i)|]; try done.
    + by apply count_remove_first_other.
    + by apply count_remove_all_other.
Qed.

Lemma sweep_fold_active_swept ids x : ∀ r,
  sw x = true →
  (count_occ string_dec (r_active r) x ≤ count_occ string_dec ids x)%nat →
  x ∉ r_active (fold_left step ids r).
Proof.
  induction ids as [|i ids IH]; intros r Hx Hc.
  - cbn [fold_left]. rewrite list_elem_of_In.
    apply (count_occ_not_In string_dec). cbn in Hc. lia.
  - cbn [fold_left]. apply IH; [done|]. rewrite sweep_step_active.
    destruct (decide (x = i)) as [->|Hne].
    + rewrite count_occ_cons_eq in Hc by done. rewrite Hx.
      destruct (rec i).
      * rewrite count_remove_first_same. lia.
      * rewrite count_remove_all_same. lia.
    + rewrite count_occ_cons_neq in Hc by congruence.
      destruct (rec i); [destruct (sw i)|]; try done.
      * by rewrite count_remove_first_other.
      * by rewrite count_remove_all_other.
Qed.

Lemma sweep_fold_published ids : ∀ r,
  r_published (fold_left step ids r)
  = r_published r
    ++ List.map (fun i => (i, "aborted"%string))
         (List.filter (fun i => match rec i with Some _ => sw i | None => false end) ids).
Proof.
  induction ids as [|i ids IH]; intros r.
  - cbn. by rewrite app_nil_r.
  - cbn [fold_left List.filter]. rewrite IH, sweep_step_published.
    rewrite <- app_assoc. f_equal.
    destruct (rec i); [destruct (sw i)|]; reflexivity.
Qed.
End SweepFold.

(** C6.  Take a world where the sweep lock is free ([lock] > 0 a valid
    expiry), the lock key is not itself listed in [active], and every id of
    [active] decodes without error, to [rec i]: nothing when the id has no
    record, otherwise a job whose id is [i].  Then [sweep] returns the ids
    of [active] that have no record or whose job is not ACTIVE or is stuck,
    one entry per occurrence in [active] and in that order.  An id without
    record is gone from [active] and from [incomplete].  An id whose job
    is not ACTIVE or is stuck is finished: the job gets status ABORTED and
    error "swept", the id is gone from [active] and [incomplete], its record
    is kept by the ttl rule, and "aborted" is published on its channel.
    Every other id keeps its record, its score, its occurrences in [active],
    and nothing is published on its channel.  [queued] is untouched. *)
Theorem sweep_classifies_active (seconds : Z → Q) (w : World) (lock : Z)
    (rec : string → option Job) :
  let key := namespace (self w) "sweep" in
  let ids := r_active (redis w) in
  let sw := sweepable seconds (now_ms w) rec in
  0 < lock →
  r_strings (redis w) !! key = None →
  key ∉ ids →
  (∀ i, i ∈ ids →
     deserialize (self w) (next_uuid w) (e_val <$> r_strings (redis w) !! i)
     = Ok (rec i)
     ∧ ∀ jb, rec i = Some jb → Job_id jb = Ok i) →
  ∃ w',
    sweep seconds lock w = (Ok (List.filter sw ids), w')
    ∧ (∀ i, i ∈ ids → rec i = None →
         (i ∉ r_active (redis w')) ∧ r_incomplete (redis w') !! i = None)
    ∧ (∀ i jb, i ∈ ids → rec i = Some jb → sw i = true →
         let j' := finished (now_ms w) ABORTED PNone (Some "swept"%string) jb in
         status j' = ABORTED ∧ error j' = Some "swept"%string
         ∧ (i ∉ r_active (redis w'))
         ∧ r_incomplete (redis w') !! i = None
         ∧ r_strings (redis w') !! i
           = (if 0 <? ttl jb
              then Some (mkEntry (serialize (self w) j') (Some (ttl jb)))
              else if ttl jb =? 0
              then Some (mkEntry (serialize (self w) j') None)
              else None)
         ∧ (i, "aborted"%string) ∈ r_published (redis w'))
    ∧ (∀ i, i ∈ ids → sw i = false →
         r_strings (redis w') !! i = r_strings (redis w) !! i
         ∧ r_incomplete (redis w') !! i = r_incomplete (redis w) !! i
         ∧ count_occ string_dec (r_active (redis w')) i
           = count_occ string_dec (r_active (redis w)) i
         ∧ ∀ m, (i, m) ∈ r_published (redis w') → (i, m) ∈ r_published (redis w))
    ∧ r_queued (redis w') = r_queued (redis w).
Proof.
  intros key ids sw Hlock Hfree Hkey Hrec.
  set (r1 := with_strings (<[key := mkEntry "1" (Some lock)]> (r_strings (redis w))) (redis w)).
  assert (Hr1 : ∀ i, i ∈ ids → r_strings r1 !! i = r_strings (redis w) !! i).
  { intros i Hi. unfold r1. cbn [r_strings with_strings].
    apply lookup_insert_ne. intros ->. done. }
  set (ser := serialize (self w)).
  set (step := sweep_step seconds (now_ms w) rec ser).
  (* the run *)
  assert (Hrun : ∃ w', sweep seconds lock w = (Ok (List.filter sw ids), w')
                       ∧ redis w' = fold_left step ids r1).
  { unfold sweep. rewrite (bind_ok _ _ w w w) by reflexivity.
    erewrite bind_ok.
    2:{ rewrite call_script_run. cbn [run_script]. fold key.
        rewrite (cleanup_script_free _ _ _ Hlock Hfree). reflexivity. }
    cbn [fst snd]. fold r1. rewrite bulk_items_map. fold ids.
    destruct ids as [|i0 ids0] eqn:Eids.
    { eexists. split; [reflexivity|]. reflexivity. }
    erewrite bind_ok by (by apply redis_call_run).
    rewrite <- Eids in *.
    assert (Hm : ∀ r, exec_cmd (MGET ids) r
                      = (r, RArray (List.map (fun k => reply_of_get (r_strings r !! k)) ids))).
    { intros r. rewrite Eids. reflexivity. }
    rewrite !Hm.
    cbn [fst snd redis with_trace with_redis].
    rewrite bulk_options_get, combine_map_self.
    set (w2 := with_trace _ _).
    destruct (sweep_loop_run seconds (now_ms w) rec (next_uuid w)
                (List.map (fun x => (x, e_val <$> r_strings r1 !! x)) ids) [] w2)
      as (w' & Hl & Hred).
    - reflexivity.
    - reflexivity.
    - intros i b Hin. apply list_elem_of_In, in_map_iff in Hin as (x & Hx & Hin).
      inversion Hx; subst. apply list_elem_of_In in Hin.
      pose proof (Hr1 _ Hin) as Hl1. unfold r1 in Hl1.
      cbn [r_strings with_strings] in Hl1. rewrite Hl1. by apply Hrec.
    - exists w'. rewrite List.map_map, List.map_id in Hl, Hred.
      split; [exact Hl | exact Hred]. }
  destruct Hrun as (w' & Hrun & Hred). exists w'. split; [exact Hrun|].
  rewrite Hred. split_and!.
  - intros i Hi Hn. assert (Hs : sw i = true) by (unfold sw, sweepable; by rewrite Hn).
    split.
    + apply sweep_fold_active_swept; [exact Hs | reflexivity].
    + unfold step. rewrite sweep_fold_incomplete. fold sw. rewrite Hs.
      by rewrite bool_decide_eq_true_2.
  - intros i jb Hi Hj Hs j'. split_and!.
    + apply finished_status.
    + reflexivity.
    + apply sweep_fold_active_swept; [exact Hs | reflexivity].
    + unfold step. rewrite sweep_fold_incomplete. fold sw. rewrite Hs.
      by rewrite bool_decide_eq_true_2.
    + unfold step. rewrite sweep_fold_strings. rewrite Hj. fold sw. rewrite Hs.
      by rewrite bool_decide_eq_true_2.
    + unfold step. rewrite sweep_fold_published. apply elem_of_app. right.
      apply list_elem_of_In, in_map_iff. exists i. split; [done|].
      apply filter_In. split; [by apply list_elem_of_In|]. by rewrite Hj.
  - intros i Hi Hs. split_and!.
    + unfold step. rewrite sweep_fold_strings. fold sw. rewrite Hs. cbn [andb].
      rewrite (Hr1 _ Hi). by destruct (rec i).
    + unfold step. rewrite sweep_fold_incomplete. fold sw. by rewrite Hs.
    + unfold step. by rewrite sweep_fold_active_keep.
    + intros m. unfold step. rewrite sweep_fold_published. intros Hin.
      apply elem_of_app in Hin as [Hin|Hin]; [exact Hin|].
      apply list_elem_of_In, in_map_iff in Hin as (x & Hx & Hin).
      inversion Hx; subst. apply filter_In in Hin as [_ Hin].
      fold sw in Hin. rewrite Hs in Hin. by destruct (rec i).
  - unfold step. by rewrite sweep_fold_queued.
Qed.

(** In [untimed_world] the sweep lock is free and the one active id decodes
    to [untimed_job], which is stuck: it is the one id swept. *)
Lemma sweep_witness :
  0 < 60
  ∧ r_strings (redis untimed_world) !! namespace (self untimed_world) "sweep" = None
  ∧ (namespace (self untimed_world) "sweep" ∉ r_active (redis untimed_world))
  ∧ List.filter (sweepable ms_to_seconds (now_ms untimed_world)
                   (fun _ => Some untimed_job))
      (r_active (redis untimed_world)) = ["saq:job:q:k"%string]
  ∧ ∃ w', sweep ms_to_seconds 60 untimed_world
          = (Ok (List.filter (sweepable ms_to_seconds (now_ms untimed_world)
                                (fun _ => Some untimed_job))
                   (r_active (redis untimed_world))), w')
          ∧ r_queued (redis w') = r_queued (redis untimed_world).
Proof.
  assert (H0 : 0 < 60) by lia.
  assert (H1 : r_strings (redis untimed_world)
               !! namespace (self untimed_world) "sweep" = None)
    by (vm_compute; reflexivity).
  assert (H2 : namespace (self untimed_world) "sweep" ∉ r_active (redis untimed_world)).
  { vm_compute. intros H. apply elem_of_cons in H as [H|H]; [discriminate|].
    by apply elem_of_nil in H. }
  assert (H3 : ∀ i, i ∈ r_active (redis untimed_world) →
            deserialize (self untimed_world) (next_uuid untimed_world)
              (e_val <$> r_strings (redis untimed_world) !! i)
            = Ok ((fun _ => Some untimed_job) i)
            ∧ ∀ jb, (fun _ : string => Some untimed_job) i = Some jb → Job_id jb = Ok i).
  { intros i Hi. change (r_active (redis untimed_world)) with ["saq:job:q:k"%string] in Hi.
    apply elem_of_cons in Hi as [->|Hi]; [|by apply elem_of_nil in Hi].
    split; [vm_compute; reflexivity|]. intros jb Hjb. inversion Hjb; subst. reflexivity. }
  split; [exact H0|]. split; [exact H1|]. split; [exact H2|].
  split; [vm_compute; reflexivity|].
  destruct (sweep_classifies_active ms_to_seconds untimed_world 60
              (fun _ => Some untimed_job) H0 H1 H2 H3)
    as (w' & Hrun & _ & _ & _ & Hq).
  exists w'. split; [exact Hrun | exact Hq].
Defined.

(** ** The queued-implies-ready invariant (C1) *)

Lemma remove_all_NoDup (v : string) (xs : list string) :
  NoDup xs → NoDup (remove_all v xs).
Proof.
  induction 1 as [|x xs Hx Hn IH]; [constructor|].
  unfold remove_all in *. cbn [List.filter].
  destruct (negb (String.eqb x v)); [|exact IH].
  constructor; [|exact IH]. intros Hin. apply Hx. 
  apply (proj1 (remove_all_elem v x xs)) in Hin. tauto.
Qed.

Lemma remove_first_NoDup (n : nat) (v : string) (xs : list string) :
  NoDup xs → NoDup (remove_first_n n v xs).
Proof.
  intros H. revert n. induction H as [|x xs Hx Hn IH]; intros n; destruct n; cbn [remove_first_n];
    try by constructor.
  destruct (String.eqb x v); [apply IH|].
  constructor; [|apply IH]. intros Hin. apply Hx. by eapply remove_first_sub.
Qed.

Lemma remove_first_gone (v : string) (xs : list string) :
  NoDup xs → v ∉ remove_first_n 1 v xs.
Proof.
  induction 1 as [|x xs Hx Hn IH]; [apply not_elem_of_nil|].
  cbn [remove_first_n]. destruct (String.eqb x v) eqn:E.
  - apply String.eqb_eq in E. subst. by destruct xs.
  - apply String.eqb_neq in E. apply not_elem_of_cons. split; [congruence|exact IH].
Qed.

Lemma enqueue_script_ready r i a s z :
  ready_inv r → ready_inv (fst (enqueue_script i a s z r)).
Proof.
  intros [Hn Hr].
  destruct (r_incomplete r !! i) as [q|] eqn:E1.
  { rewrite enqueue_script_blocked by (left; eauto). done. }
  destruct (r_strings r !! a) as [e|] eqn:E2.
  { rewrite enqueue_script_blocked by (right; eauto). done. }
  rewrite (enqueue_script_free _ _ _ _ _ E1 E2). cbn [fst].
  assert (Hi : i ∉ r_queued r).
  { intros Hin. destruct (Hr i Hin) as (q & Hq & _). congruence. }
  unfold ready_inv, queued_ready. cbn [r_queued r_incomplete].
  destruct (z =? 0) eqn:Ez.
  - apply Z.eqb_eq in Ez. subst. split.
    + apply NoDup_app. split_and!; [done| |apply NoDup_singleton].
      intros x Hx Hx'. apply list_elem_of_singleton in Hx'. by subst.
    + intros x Hx. apply elem_of_app in Hx as [Hx|Hx].
      * destruct (Hr x Hx) as (q & Hq & H0). exists q. split; [|done].
        rewrite lookup_insert_ne; [done|]. by intros ->.
      * apply list_elem_of_singleton in Hx. subst. exists (inject_Z 0).
        split; [apply lookup_insert_eq | reflexivity].
  - split; [done|]. intros x Hx.
    destruct (Hr x Hx) as (q & Hq & H0). exists q. split; [|done].
    rewrite lookup_insert_ne; [done|]. by intros ->.
Qed.

Lemma schedule_script_ready key lock now_s r :
  ready_inv r → ready_inv (fst (schedule_script key lock now_s r)).
Proof.
  intros [Hn Hr].
  destruct (r_strings r !! key) as [e|] eqn:E.
  { rewrite schedule_script_locked by eauto. done. }
  destruct (decide (lock ≤ 0)) as [Hl|Hl].
  { rewrite (schedule_script_rejected _ _ _ _ Hl E). done. }
  rewrite schedule_script_free by (done || lia). cbn [fst].
  set (due := zrangebyscore 1 now_s (r_incomplete r)).
  assert (Hlk : ∀ x,
    match due with
    | [] => r_incomplete r
    | _ :: _ => zadd (List.map (fun v => (0%Q, v)) due) (r_incomplete r)
    end !! x = if decide (x ∈ due) then Some 0%Q else r_incomplete r !! x).
  { intros x. destruct due as [|d due'] eqn:Ed.
    - rewrite decide_False; [done|apply not_elem_of_nil].
    - apply zadd_zero_lookup. }
  assert (Hdisj : ∀ x, x ∈ r_queued r → x ∉ due).
  { intros x Hx Hd. destruct (Hr x Hx) as (q & Hq & H0).
    apply zrangebyscore_elem in Hd as (q' & Hq' & H1 & _).
    rewrite Hq in Hq'. inversion Hq'; subst. rewrite H0 in H1.
    by apply Qle_bool_iff in H1. }
  unfold ready_inv, queued_ready. cbn [r_queued r_incomplete]. split.
  - apply NoDup_app. split_and!; [done|exact Hdisj|apply zrangebyscore_NoDup].
  - intros x Hx. rewrite Hlk. destruct (decide (x ∈ due)) as [Hd|Hd].
    + exists 0%Q. split; reflexivity.
    + apply elem_of_app in Hx as [Hx|Hx]; [|done]. by apply Hr.
Qed.

Lemma lmove_queued_ready r :
  ready_inv r → ready_inv (fst (lmove K_queued K_active RIGHT LEFT r)).
Proof.
  intros [Hn Hr]. unfold lmove. cbn [get_list pop_side].
  destruct (rev (r_queued r)) as [|x sx] eqn:E; [done|].
  cbn [fst with_list get_list push_side].
  assert (Hq : r_queued r = rev sx ++ [x]).
  { rewrite <- (rev_involutive (r_queued r)), E. reflexivity. }
  unfold ready_inv, queued_ready. cbn [r_queued r_incomplete].
  unfold queued_ready in Hr. rewrite Hq in Hn, Hr.
  apply NoDup_app in Hn as (Hn & _ & _). split; [done|].
  intros y Hy. apply Hr. apply elem_of_app. by left.
Qed.

Lemma schedule_redis seconds lock w :
  redis (snd (schedule seconds lock w))
  = fst (schedule_script (namespace (self w) "schedule") lock (seconds (now_ms w))
           (redis w)).
Proof.
  unfold schedule. rewrite (bind_ok _ _ w w w) by reflexivity.
  rewrite (bind_ok _ _ w (now_ms w) w) by reflexivity.
  unfold bind. rewrite call_script_run. cbn [run_script].
  destruct (checked _); reflexivity.
Qed.

Lemma get_job_by_id_redis i w : redis (snd (_get_job_by_id i w)) = redis w.
Proof.
  unfold _get_job_by_id. erewrite bind_ok by (by apply redis_call_run).
  erewrite bind_ok by reflexivity. unfold lift. cbn [snd exec_cmd fst redis with_trace with_redis].
  reflexivity.
Qed.

Lemma version_run w :
  ∃ v w', version w = (Ok v, w') ∧ redis w' = redis w.
Proof.
  unfold version. rewrite (bind_ok _ _ w w w) by reflexivity.
  destruct (_version (self w)) as [v|].
  - exists v, w. done.
  - erewrite bind_ok by (by apply redis_call_run).
    erewrite bind_ok by reflexivity. eexists _, _. split; [reflexivity|]. reflexivity.
Qed.

Lemma dequeue_redis tmo w :
  redis (snd (dequeue tmo w)) = fst (lmove K_queued K_active RIGHT LEFT (redis w)).
Proof.
  unfold dequeue. destruct (version_run w) as (v & w1 & Hv & Hr1).
  rewrite (bind_ok _ _ _ _ _ Hv). rewrite <- Hr1.
  destruct (tuple_ltb v [6; 2; 0]).
  - erewrite bind_ok by (by apply redis_call_run). cbn [exec_cmd].
    destruct (snd (lmove K_queued K_active RIGHT LEFT (redis w1))) eqn:E;
      try reflexivity.
    all: apply get_job_by_id_redis.
  - erewrite bind_ok by (by apply redis_call_run). cbn [exec_cmd].
    destruct (snd (lmove K_queued K_active RIGHT LEFT (redis w1))) eqn:E;
      try reflexivity.
    all: apply get_job_by_id_redis.
Qed.

Lemma finish_raise w j st res err e :
  Job_id j = Raise e → finish j st res err w = (Raise e, w).
Proof. intros H. unfold finish. apply bind_raise. unfold lift. by rewrite H. Qed.

Lemma finish_ready w j st res err :
  ready_inv (redis w) →
  (∀ i, Job_id j = Ok i → i ∉ r_queued (redis w)) →
  ready_inv (redis (snd (finish j st res err w))).
Proof.
  intros [Hn Hr] Hout. destruct (Job_id j) as [i|e] eqn:Hi.
  2:{ by rewrite (finish_raise _ _ _ _ _ _ Hi). }
  rewrite (finish_run _ _ _ _ _ _ Hi). cbn [snd redis with_trace with_redis].
  destruct (finish_store (redis w) (serialize (self w)) i (finished (now_ms w) st res err j) st)
    as (_ & Hq & Hz & _).
  unfold ready_inv, queued_ready. rewrite Hq, Hz. split; [done|].
  intros x Hx. destruct (Hr x Hx) as (q & Hl & H0). exists q. split; [|done].
  rewrite lookup_delete_ne; [done|]. intros Heq. subst x.
  by apply (Hout i).
Qed.

Lemma retry_run nrd w j err i :
  Job_id j = Ok i →
  let j' := requeued (now_ms w) err j in
  let cmds :=
    [LREM K_active 1 i; LREM K_queued 1 i] ++
    (if delay_truthy (nrd j')
     then [ZADD [((time_time w + default 0%Q (nrd j'))%Q, i)]]
     else [ZADD [(inject_Z (scheduled j'), i)]; RPUSH K_queued [i]]) ++
    [SET i (serialize (self w) j')] in
  redis (snd (retry nrd j err w))
  = fst (exec_cmd (PUBLISH i (Status_value QUEUED)) (fst (exec_cmds cmds (redis w)))).
Proof.
  intros Hi j' cmds. unfold retry.
  rewrite (bind_ok _ _ w i w) by (unfold lift; by rewrite Hi).
  rewrite (bind_ok _ _ w (now_ms w) w) by reflexivity.
  fold (requeued (now_ms w) err j). fold j'.
  rewrite (bind_ok _ _ w w w) by reflexivity. fold cmds.
  erewrite bind_ok.
  2:{ apply pipeline_execute_run. unfold cmds.
      destruct (delay_truthy _); repeat constructor. }
  erewrite bind_ok by reflexivity.
  erewrite bind_ok.
  2:{ apply notify_run. exact Hi. }
  reflexivity.
Qed.

Lemma retry_raise nrd w j err e :
  Job_id j = Raise e → retry nrd j err w = (Raise e, w).
Proof. intros H. unfold retry. apply bind_raise. unfold lift. by rewrite H. Qed.

Lemma retry_ready nrd w j err :
  ready_inv (redis w) →
  delay_truthy (nrd (requeued (now_ms w) err j)) = true ∨ scheduled j = 0 →
  ready_inv (redis (snd (retry nrd j err w))).
Proof.
  intros [Hn Hr] Hscope. destruct (Job_id j) as [i|e] eqn:Hi.
  2:{ by rewrite (retry_raise _ _ _ _ _ Hi). }
  rewrite (retry_run _ _ _ _ _ Hi).
  set (q1 := remove_first_n 1 i (r_queued (redis w))).
  assert (Hq1n : NoDup q1) by (by apply remove_first_NoDup).
  assert (Hq1i : i ∉ q1) by (by apply remove_first_gone).
  assert (Hq1r : ∀ x, x ∈ q1 → x ≠ i ∧ ∃ s, r_incomplete (redis w) !! x = Some s ∧ (s == 0)%Q).
  { intros x Hx. split; [by intros ->|]. apply Hr. by eapply remove_first_sub. }
  destruct (delay_truthy _) eqn:Hd.
  - cbn [app exec_cmds exec_cmd fst]. unfold ready_inv, queued_ready.
    cbn [r_queued r_incomplete with_published with_strings with_incomplete with_list
         get_list zadd fold_left fst snd lrem Z.eqb Z.ltb Z.compare Z.to_nat Pos.to_nat
         Pos.iter_op Nat.add].
    fold q1. split; [done|]. intros x Hx. destruct (Hq1r x Hx) as (Hne & s & Hs & H0).
    exists s. split; [|done]. by rewrite lookup_insert_ne.
  - destruct Hscope as [?|Hz]; [discriminate|].
    cbn [app exec_cmds exec_cmd fst]. unfold ready_inv, queued_ready.
    cbn [r_queued r_incomplete with_published with_strings with_incomplete with_list
         get_list zadd fold_left fst snd lrem Z.eqb Z.ltb Z.compare Z.to_nat Pos.to_nat
         Pos.iter_op Nat.add].
    fold q1. split.
    + apply NoDup_app. split_and!; [done| |apply NoDup_singleton].
      intros x Hx Hx'. apply list_elem_of_singleton in Hx'. by subst.
    + intros x Hx. apply elem_of_app in Hx as [Hx|Hx].
      * destruct (Hq1r x Hx) as (Hne & s & Hs & H0).
        exists s. split; [|done]. by rewrite lookup_insert_ne.
      * apply list_elem_of_singleton in Hx. subst.
        exists (inject_Z (scheduled (requeued (now_ms w) err j))).
        split; [apply lookup_insert_eq|]. 
        change (scheduled (requeued (now_ms w) err j)) with (scheduled j).
        rewrite Hz. reflexivity.
Qed.

Lemma abort_raise w j err ttl_ e :
  Job_id j = Raise e → abort j err ttl_ w = (Raise e, w).
Proof. intros H. unfold abort. apply bind_raise. unfold lift. by rewrite H. Qed.

Lemma Job_finish_cases w j st res err :
  Job_finish j st res err w = finish j st res err w
  ∨ ∃ e, Job_finish j st res err w = (Raise e, w).
Proof.
  unfold Job_finish. rewrite (bind_ok _ _ w w w) by reflexivity.
  destruct (queue j) as [n|]; [|right; by eexists].
  destruct (String.eqb n (name (self w))); [by left | right; by eexists].
Qed.

Lemma pipeline_execute_world cs w :
  snd (pipeline_execute cs w)
  = with_trace (trace w ++ [EvPipeline cs])
      (with_redis (fst (exec_cmds cs (redis w))) w).
Proof.
  unfold pipeline_execute. by destruct (exec_cmds cs (redis w)).
Qed.

Lemma abort_summary w j err ttl_ i :
  Job_id j = Ok i →
  r_queued (redis (snd (abort j err ttl_ w))) = remove_all i (r_queued (redis w))
  ∧ ∀ x, x ≠ i →
      r_incomplete (redis (snd (abort j err ttl_ w))) !! x
      = r_incomplete (redis w) !! x.
Proof.
  intros Hi. remember (snd (abort j err ttl_ w)) as wf eqn:Hwf. revert Hwf.
  unfold abort.
  rewrite (bind_ok _ _ w i w) by (unfold lift; by rewrite Hi).
  rewrite (bind_ok _ _ w (i +:+ ":abort") w)
    by (unfold lift; by rewrite (Job_abort_id_of _ _ Hi)).
  set (cmds := [LREM K_queued 0 i; ZREM i; EXPIRE i (ttl_ + 1);
                SETEX (i +:+ ":abort") ttl_ err]).
  set (r1 := fst (exec_cmds cmds (redis w))).
  assert (Hr1 : r_queued r1 = remove_all i (r_queued (redis w))
                ∧ r_incomplete r1 = delete i (r_incomplete (redis w))).
  { unfold r1, cmds. cbn [exec_cmds exec_cmd].
    destruct (ttl_ <=? 0);
      (destruct (r_strings _ !! i); [destruct (ttl_ + 1 <=? 0)|]); cbn; done. }
  destruct Hr1 as [Hq1 Hz1].
  pose proof (pipeline_execute_world cmds w) as Hw1. fold r1 in Hw1.
  unfold bind at 1.
  destruct (pipeline_execute cmds w) as [[reps|e] w1] eqn:Hp; cbn [snd] in Hw1; subst w1.
  2:{ intros ->. cbn [snd redis with_trace with_redis]. rewrite Hq1, Hz1.
      split; [done|]. intros x Hx. by rewrite lookup_delete_ne. }
  set (w1 := with_trace _ (with_redis r1 w)).
  destruct (reply_truthy _).
  - destruct (Job_finish_cases w1 j ABORTED PNone (Some err)) as [Hf | (e & Hf)].
    + erewrite bind_ok by (rewrite Hf; apply (finish_run _ _ _ _ _ _ Hi)).
      erewrite bind_ok by (by apply redis_call_run).
      intros ->.
      cbn [snd ret redis with_trace with_redis with_self fst].
      destruct (finish_store r1 (serialize (self w1)) i
                  (finished (now_ms w1) ABORTED PNone (Some err) j) ABORTED)
        as (_ & Hq & Hz & _).
      change (redis w1) with r1.
      set (r2 := fst (exec_cmd (PUBLISH i (Status_value ABORTED)) _)) in *.
      change (r_queued (fst (exec_cmd (DEL (i +:+ ":abort")) r2))) with (r_queued r2).
      change (r_incomplete (fst (exec_cmd (DEL (i +:+ ":abort")) r2)))
        with (r_incomplete r2).
      rewrite Hq, Hz, Hq1, Hz1. split; [done|].
      intros x Hx. by rewrite !lookup_delete_ne.
    + rewrite (bind_raise _ _ _ _ _ Hf). intros ->.
      cbn [snd redis with_trace with_redis w1]. rewrite Hq1, Hz1.
      split; [done|]. intros x Hx. by rewrite lookup_delete_ne.
  - erewrite bind_ok by (by apply redis_call_run). intros ->.
    cbn [snd ret redis with_trace with_redis exec_cmd fst w1 r_queued r_incomplete
         with_list get_list].
    rewrite Hq1, Hz1. split; [done|]. intros x Hx. by rewrite lookup_delete_ne.
Qed.

Lemma abort_ready w j err ttl_ :
  ready_inv (redis w) → ready_inv (redis (snd (abort j err ttl_ w))).
Proof.
  intros [Hn Hr]. destruct (Job_id j) as [i|e] eqn:Hi.
  2:{ by rewrite (abort_raise _ _ _ _ _ Hi). }
  destruct (abort_summary w j err ttl_ i Hi) as [Hq Hz].
  unfold ready_inv, queued_ready. rewrite Hq. split; [by apply remove_all_NoDup|].
  intros x Hx. apply remove_all_elem in Hx as [Hx Hne].
  rewrite (Hz x Hne). by apply Hr.
Qed.

Lemma enqueue_ready w jf kw :
  ready_inv (redis w) → ready_inv (redis (snd (enqueue jf kw w))).
Proof.
  intros H. destruct (enqueue_cases w jf kw) as [(e & cids & ->) | (j' & i & _ & -> & _)].
  - exact H.
  - by apply enqueue_script_ready.
Qed.

Lemma run_op_ready seconds nrd w op :
  ready_inv (redis w) → op_in_scope nrd w op →
  ready_inv (redis (run_op seconds nrd op w)).
Proof.
  intros Hinv Hscope.
  destruct op as [jf kw|lock|tmo|j st res err|j err|j err ttl_]; cbn [run_op].
  - by apply enqueue_ready.
  - rewrite schedule_redis. by apply schedule_script_ready.
  - rewrite dequeue_redis. by apply lmove_queued_ready.
  - by apply finish_ready.
  - by apply retry_ready.
  - by apply abort_ready.
Qed.

Lemma run_ops_ready seconds nrd ops : ∀ w,
  ready_inv (redis w) → ops_in_scope seconds nrd ops w →
  ready_inv (redis (run_ops seconds nrd ops w)).
Proof.
  induction ops as [|op ops IH]; intros w Hinv Hscope; [exact Hinv|].
  destruct Hscope as [Hop Hrest]. cbn [run_ops].
  apply IH; [|exact Hrest]. by apply run_op_ready.
Qed.

Lemma empty_redis_ready : ready_inv empty_redis.
Proof.
  split; [constructor|]. intros i Hi. apply elem_of_nil in Hi. destruct Hi.
Qed.

(** C1, as amended.  Call a store ready when the ids in [queued] are
    distinct and each of them is in [incomplete] with score 0.  From a ready
    store, each of these leaves a ready store, whether it returns or raises:
    [enqueue], [schedule], [dequeue] and [abort], with any arguments;
    [finish] of a job whose id is not in [queued]; and [retry] of a job that
    the retry policy gives a delay, or whose [scheduled] is 0.  So in the
    store such an operation leaves, and in the store any run of such
    operations leaves, every id in [queued] is in [incomplete] with
    score 0. *)
Theorem queued_ready_preserved (seconds : Z → Q) (next_retry_delay : Job → option Q)
    (w : World) :
  ready_inv (redis w) →
  (∀ op, op_in_scope next_retry_delay w op →
     ready_inv (redis (run_op seconds next_retry_delay op w))
     ∧ queued_ready (redis (run_op seconds next_retry_delay op w)))
  ∧ (∀ ops, ops_in_scope seconds next_retry_delay ops w →
       queued_ready (redis (run_ops seconds next_retry_delay ops w))).
Proof.
  intros Hinv. split.
  - intros op Hscope.
    pose proof (run_op_ready seconds next_retry_delay w op Hinv Hscope) as H.
    split; [exact H | exact (proj2 H)].
  - intros ops Hscope.
    exact (proj2 (run_ops_ready seconds next_retry_delay ops w Hinv Hscope)).
Qed.

(** Two runs from an empty store end with an id in [queued] that is not in
    [incomplete] with score 0.  In the first, a job is enqueued and finished
    before any worker took it: [finish] removes the id from [incomplete]
    and does not look at [queued].  In the second, a job scheduled for
    second 5 is promoted by the scheduler, dequeued, and retried without
    delay: [retry] pushes the id on [queued] with score 5. *)
Lemma queued_ready_broken :
  ((∃ j, fst (early_finish_run add_world) = Ok j)
   ∧ r_queued (redis (snd (early_finish_run add_world))) = ["saq:job:q:k1"%string]
   ∧ r_incomplete (redis (snd (early_finish_run add_world))) !! "saq:job:q:k1"%string
     = None
   ∧ ¬ queued_ready (redis (snd (early_finish_run add_world))))
  ∧ ((∃ j, fst (late_run late_world) = Ok j)
     ∧ r_queued (redis (snd (late_run late_world))) = ["saq:job:q:k1"%string]
     ∧ r_incomplete (redis (snd (late_run late_world))) !! "saq:job:q:k1"%string
       = Some 5%Q
     ∧ ¬ queued_ready (redis (snd (late_run late_world)))).
Proof.
  assert (Hq1 : r_queued (redis (snd (early_finish_run add_world)))
                = ["saq:job:q:k1"%string]) by (vm_compute; reflexivity).
  assert (Hs1 : r_incomplete (redis (snd (early_finish_run add_world)))
                !! "saq:job:q:k1"%string = None) by (vm_compute; reflexivity).
  assert (Hq2 : r_queued (redis (snd (late_run late_world))) = ["saq:job:q:k1"%string])
    by (vm_compute; reflexivity).
  assert (Hs2 : r_incomplete (redis (snd (late_run late_world))) !! "saq:job:q:k1"%string
                = Some 5%Q) by (vm_compute; reflexivity).
  split; split_and!.
  - eexists. vm_compute. reflexivity.
  - exact Hq1.
  - exact Hs1.
  - intros H. destruct (H "saq:job:q:k1"%string) as (s & Hs' & _).
    + rewrite Hq1. apply list_elem_of_singleton. reflexivity.
    + rewrite Hs1 in Hs'. discriminate Hs'.
  - eexists. vm_compute. reflexivity.
  - exact Hq2.
  - exact Hs2.
  - intros H. destruct (H "saq:job:q:k1"%string) as (s & Hs' & H0).
    + rewrite Hq2. apply list_elem_of_singleton. reflexivity.
    + rewrite Hs2 in Hs'. inversion Hs'; subst. vm_compute in H0. discriminate H0.
Qed.

(** [untimed_job] (scheduled = 0) retried without delay in [untimed_world]:
    its id is pushed on [queued] with score 0. *)
Lemma queued_ready_witness :
  ready_inv (redis untimed_world)
  ∧ op_in_scope no_retry_delay untimed_world (OpRetry untimed_job (Some "boom"%string))
  ∧ queued_ready
      (redis (run_op ms_to_seconds no_retry_delay
                (OpRetry untimed_job (Some "boom"%string)) untimed_world))
  ∧ r_queued
      (redis (run_op ms_to_seconds no_retry_delay
                (OpRetry untimed_job (Some "boom"%string)) untimed_world))
    = ["saq:job:q:k"%string].
Proof.
  assert (H1 : ready_inv (redis untimed_world)).
  { split; [constructor|]. intros i Hi. apply elem_of_nil in Hi. destruct Hi. }
  assert (H2 : op_in_scope no_retry_delay untimed_world
                 (OpRetry untimed_job (Some "boom"%string))).
  { right. reflexivity. }
  split; [exact H1|]. split; [exact H2|]. split.
  - exact (proj2 (proj1 (queued_ready_preserved ms_to_seconds no_retry_delay
                           untimed_world H1)
                    (OpRetry untimed_job (Some "boom"%string)) H2)).
  - vm_compute. reflexivity.
Defined.


(** * Further properties *)

(** ** The codec round trip *)

Lemma Status_round_trip (st : Status) : Status_of_value (Status_value st) = Some st.
Proof. by destruct st. Qed.

Lemma Job_init_to_dict (fresh : string) (j : Job) :
  Job_init fresh (dict_del "queue" (to_dict j)) = Ok (set_queue None j).
Proof.
  destruct j as [fn kw qn k tmo hb rt tl sc at_ cp qd sd td pg rs er st].
  destruct kw, er, st; reflexivity.
Qed.

Lemma decode_encoded (q : Queue) (fresh : string) (j : Job) :
  codec_ok q j → queue j = Some (name q) →
  deserialize q fresh (Some (serialize q j)) = Ok (Some j).
Proof.
  intros [Hl Hne] Hq. unfold deserialize.
  destruct (serialize q j) as [|c s] eqn:E; [done|].
  rewrite Hl. cbn [res_bind].
  change (dict_get "queue" (to_dict j))
    with (Some (match queue j with Some n => PStr n | None => PNone end)).
  rewrite Hq. rewrite String.eqb_refl. rewrite Job_init_to_dict.
  cbn [res_bind]. destruct j; cbn in *. by subst.
Qed.

(** X1.  Decoding what [serialize] wrote gives the job back.  When the
    injected codec returns the dictionary it was given (and its dump is not
    empty): for a job bound to this queue, [deserialize (serialize j)] is
    [j], every field included; for a job bound to no queue or to a queue of
    another name it raises [AssertionError]. *)
Theorem deserialize_serialize (q : Queue) (fresh : string) (j : Job) :
  codec_ok q j →
  (queue j = Some (name q) →
   deserialize q fresh (Some (serialize q j)) = Ok (Some j))
  ∧ (queue j ≠ Some (name q) →
     deserialize q fresh (Some (serialize q j))
     = Raise (AssertionError "fetched by wrong queue")).
Proof.
  intros Hc. split; [by apply decode_encoded|].
  destruct Hc as [Hl Hne]. intros Hq. unfold deserialize.
  destruct (serialize q j) as [|c s] eqn:E; [done|].
  rewrite Hl. cbn [res_bind].
  change (dict_get "queue" (to_dict j))
    with (Some (match queue j with Some n => PStr n | None => PNone end)).
  destruct (queue j) as [n|]; [|reflexivity].
  destruct (String.eqb n (name q)) eqn:En; [|reflexivity].
  apply String.eqb_eq in En. congruence.
Qed.

Lemma deserialize_serialize_witness :
  codec_ok add_queue add_job ∧ queue add_job = Some (name add_queue)
  ∧ deserialize add_queue "u" (Some (serialize add_queue add_job)) = Ok (Some add_job).
Proof.
  assert (H1 : codec_ok add_queue add_job) by (split; [reflexivity | discriminate]).
  assert (H2 : queue add_job = Some (name add_queue)) by reflexivity.
  split; [exact H1|]. split; [exact H2|].
  exact (proj1 (deserialize_serialize add_queue "u" add_job H1) H2).
Defined.

(** ** version and dequeue *)

Lemma ints_of_version (l : list Z) : ints_of (RArray (List.map RInt l)) = l.
Proof.
  induction l as [|x l IH]; [done|].
  change (ints_of (RArray (List.map RInt (x :: l))))
    with (x :: ints_of (RArray (List.map RInt l))).
  by rewrite IH.
Qed.

Lemma version_versioned (w : World) :
  version w = (Ok (known_version w), versioned w).
Proof.
  unfold version, known_version, versioned.
  rewrite (bind_ok _ _ w w w) by reflexivity.
  destruct (_version (self w)) as [v|]; [reflexivity|].
  erewrite bind_ok by (by apply redis_call_run).
  erewrite bind_ok by reflexivity.
  cbn [exec_cmd snd fst ret default]. rewrite ints_of_version.
  destruct w as [r q n t u tr]. reflexivity.
Qed.

Lemma versioned_cached (w : World) :
  _version (self (versioned w)) = Some (known_version w).
Proof.
  unfold versioned, known_version.
  destruct (_version (self w)) as [v|] eqn:E; [by rewrite E | reflexivity].
Qed.

(** X2.  The server version is asked for once.  With a cached version
    [version] answers without a round trip and changes nothing; without one
    it sends a single INFO, answers with the server's version and caches it,
    so that the next call sends nothing. *)
Theorem version_asked_once (w : World) :
  (∀ v, _version (self w) = Some v → version w = (Ok v, w))
  ∧ (_version (self w) = None →
     ∃ w1,
       version w = (Ok (r_version (redis w)), w1)
       ∧ trace w1 = trace w ++ [EvCmd INFO]
       ∧ redis w1 = redis w
       ∧ version w1 = (Ok (r_version (redis w)), w1)).
Proof.
  split.
  - intros v Hv. rewrite version_versioned. unfold known_version, versioned.
    by rewrite Hv.
  - intros Hn. exists (versioned w). rewrite version_versioned.
    pose proof (versioned_cached w) as Hc.
    unfold known_version, versioned in *. rewrite Hn in *. cbn [default] in *.
    split_and!; reflexivity.
Qed.

Lemma version_asked_once_witness :
  _version (self add_world) = None
  ∧ ∃ w1, version add_world = (Ok [7; 0; 0], w1) ∧ version w1 = (Ok [7; 0; 0], w1).
Proof.
  assert (H : _version (self add_world) = None) by reflexivity.
  split; [exact H|].
  destruct (proj2 (version_asked_once add_world) H) as (w1 & H1 & _ & _ & H2).
  exists w1. split; [exact H1 | exact H2].
Defined.

Lemma versioned_redis (w : World) : redis (versioned w) = redis w.
Proof. unfold versioned. by destruct (_version (self w)). Qed.

Lemma versioned_trace (w : World) :
  trace (versioned w)
  = trace w ++ version_events w.
Proof.
  unfold versioned, version_events.
  destruct (_version (self w)); [by rewrite app_nil_r | reflexivity].
Qed.

Lemma versioned_codec (w : World) :
  _load (self (versioned w)) = _load (self w)
  ∧ _dump (self (versioned w)) = _dump (self w)
  ∧ name (self (versioned w)) = name (self w)
  ∧ next_uuid (versioned w) = next_uuid w
  ∧ now_ms (versioned w) = now_ms w.
Proof. unfold versioned. by destruct (_version (self w)). Qed.

Lemma deserialize_ext (q q' : Queue) (fresh : string) (b : option string) :
  _load q' = _load q → name q' = name q →
  deserialize q' fresh b = deserialize q fresh b.
Proof. intros Hl Hn. unfold deserialize. by rewrite Hl, Hn. Qed.

Lemma pop_right_snoc (l : list string) (i : string) :
  pop_side RIGHT (l ++ [i]) = Some (i, l).
Proof. unfold pop_side. rewrite rev_app_distr. simpl. by rewrite rev_involutive. Qed.

Lemma move_cmd_accepted v tmo : accepted (move_cmd v tmo).
Proof. unfold move_cmd. by destruct (tuple_ltb _ _). Qed.

Lemma move_cmd_exec v tmo r :
  exec_cmd (move_cmd v tmo) r = lmove K_queued K_active RIGHT LEFT r.
Proof. unfold move_cmd. by destruct (tuple_ltb _ _). Qed.

Lemma dequeue_unfold (tmo : Z) (w : World) :
  dequeue tmo w
  = (rep <- redis_call (move_cmd (known_version w) tmo);;
     match rep with
     | RBulk i => _get_job_by_id i
     | _ => ret None
     end) (versioned w).
Proof.
  unfold dequeue. rewrite (bind_ok _ _ _ _ _ (version_versioned w)).
  unfold move_cmd. by destruct (tuple_ltb _ _).
Qed.

Lemma dequeue_tail_run (w : World) (tmo : Z) (l : list string) (i : string) :
  r_queued (redis w) = l ++ [i] →
  dequeue tmo w
  = (deserialize (self w) (next_uuid w) (e_val <$> r_strings (redis w) !! i),
     with_trace
       (trace w ++ version_events w
        ++ [EvCmd (move_cmd (known_version w) tmo); EvCmd (GET i)])
       (with_redis
          (with_list K_active (i :: r_active (redis w)) (with_list K_queued l (redis w)))
          (versioned w))).
Proof.
  intros Hq. rewrite dequeue_unfold.
  erewrite bind_ok by (apply redis_call_run, move_cmd_accepted).
  rewrite move_cmd_exec, versioned_redis. unfold lmove. cbn [get_list].
  rewrite Hq, pop_right_snoc. cbn [snd fst].
  unfold _get_job_by_id. erewrite bind_ok by (by apply redis_call_run).
  erewrite bind_ok by reflexivity. unfold lift.
  destruct (versioned_codec w) as (Hl & _ & Hn & Hu & _).
  f_equal.
  - cbn [self next_uuid with_trace with_redis exec_cmd snd fst redis
         with_list r_strings].
    rewrite Hu. rewrite (deserialize_ext _ _ _ _ Hl Hn). f_equal.
    by destruct (r_strings (redis w) !! i).
  - cbn [trace redis with_trace with_redis exec_cmd fst with_list get_list
         r_queued r_active r_incomplete r_strings r_published push_side].
    rewrite versioned_trace, <- !app_assoc. done.
Qed.

(** X3.  [dequeue] takes the id at the tail of [queued], the end that
    RPUSH appends to, and puts it at the head of [active] in one command:
    BRPOPLPUSH on a server older than 6.2.0, BLMOVE RIGHT LEFT otherwise.  It
    then reads the record under that id and returns what it decodes to.  The
    sorted set, the records and the publications are as they were. *)
Theorem dequeue_takes_tail (w : World) (tmo : Z) (l : list string) (i : string) :
  r_queued (redis w) = l ++ [i] →
  ∃ w',
    dequeue tmo w
    = (deserialize (self w) (next_uuid w) (e_val <$> r_strings (redis w) !! i), w')
    ∧ trace w'
      = trace w ++ version_events w
        ++ [EvCmd (move_cmd (known_version w) tmo); EvCmd (GET i)]
    ∧ r_queued (redis w') = l
    ∧ r_active (redis w') = i :: r_active (redis w)
    ∧ r_incomplete (redis w') = r_incomplete (redis w)
    ∧ r_strings (redis w') = r_strings (redis w)
    ∧ r_published (redis w') = r_published (redis w).
Proof.
  intros Hq. eexists. split; [apply (dequeue_tail_run _ _ _ _ Hq)|].
  split_and!; reflexivity.
Qed.

Lemma dequeue_takes_tail_witness :
  r_queued (redis (snd (enqueue (AJob add_job) [] add_world))) = [] ++ ["saq:job:q:k1"%string]
  ∧ fst (dequeue 1 (snd (enqueue (AJob add_job) [] add_world))) = Ok (Some add_job).
Proof.
  assert (H : r_queued (redis (snd (enqueue (AJob add_job) [] add_world)))
              = [] ++ ["saq:job:q:k1"%string]) by (vm_compute; reflexivity).
  split; [exact H|].
  destruct (dequeue_takes_tail _ 1 _ _ H) as (w' & Hd & _).
  rewrite Hd. vm_compute. reflexivity.
Defined.




(** ** update and retry *)

(** X5.  [update] stamps [touched] with the current time, writes the record
    with a plain SET and then publishes the job's status.  The record is
    left without expiry, whatever expiry it had; the lists and the sorted
    set are not touched. *)
Theorem update_overwrites_record (w : World) (j : Job) (i : string) :
  Job_id j = Ok i →
  let j' := set_touched (now_ms w) j in
  ∃ w',
    update j w = (Ok j', w')
    ∧ trace w'
      = trace w ++ [EvCmd (SET i (serialize (self w) j'));
                    EvCmd (PUBLISH i (Status_value (status j)))]
    ∧ r_strings (redis w') = <[i := mkEntry (serialize (self w) j') None]> (r_strings (redis w))
    ∧ r_strings (redis w') !! i = Some (mkEntry (serialize (self w) j') None)
    ∧ r_queued (redis w') = r_queued (redis w)
    ∧ r_active (redis w') = r_active (redis w)
    ∧ r_incomplete (redis w') = r_incomplete (redis w)
    ∧ r_published (redis w') = r_published (redis w) ++ [(i, Status_value (status j))]
    ∧ self w' = self w.
Proof.
  intros Hi j'. unfold update.
  rewrite (bind_ok _ _ w (now_ms w) w) by reflexivity. fold j'.
  rewrite (bind_ok _ _ w i w) by (unfold lift; by rewrite <- Hi).
  rewrite (bind_ok _ _ w w w) by reflexivity.
  erewrite bind_ok by (by apply redis_call_run).
  erewrite bind_ok by (apply notify_run; exact Hi).
  eexists. split; [reflexivity|].
  cbn [trace redis self with_trace with_redis exec_cmd fst with_strings
       with_published r_strings r_queued r_active r_incomplete r_published status j'
       set_touched].
  rewrite <- app_assoc. split_and!; try reflexivity. apply lookup_insert_eq.
Qed.

Lemma update_overwrites_record_witness :
  Job_id untimed_job = Ok "saq:job:q:k"%string
  ∧ ∃ w', update untimed_job untimed_world = (Ok (set_touched 2000 untimed_job), w')
          ∧ r_active (redis w') = r_active (redis untimed_world).
Proof.
  assert (H : Job_id untimed_job = Ok "saq:job:q:k"%string) by reflexivity.
  split; [exact H|].
  destruct (update_overwrites_record untimed_world untimed_job _ H)
    as (w' & Hu & _ & _ & _ & _ & Ha & _).
  exists w'. split; [exact Hu | exact Ha].
Defined.

Lemma retry_full nrd w j err i :
  Job_id j = Ok i →
  let j' := requeued (now_ms w) err j in
  let cmds :=
    [LREM K_active 1 i; LREM K_queued 1 i] ++
    (if delay_truthy (nrd j')
     then [ZADD [((time_time w + default 0%Q (nrd j'))%Q, i)]]
     else [ZADD [(inject_Z (scheduled j'), i)]; RPUSH K_queued [i]]) ++
    [SET i (serialize (self w) j')] in
  retry nrd j err w
  = (Ok j',
     with_trace (trace w ++ [EvPipeline cmds; EvCmd (PUBLISH i (Status_value QUEUED))])
       (with_redis
          (fst (exec_cmd (PUBLISH i (Status_value QUEUED)) (fst (exec_cmds cmds (redis w)))))
          (with_self
             (with_counters (complete (self w)) (failed (self w))
                (retried (self w) + 1) (aborted (self w)) (self w)) w))).
Proof.
  intros Hi j' cmds. unfold retry.
  rewrite (bind_ok _ _ w i w) by (unfold lift; by rewrite Hi).
  rewrite (bind_ok _ _ w (now_ms w) w) by reflexivity.
  fold (requeued (now_ms w) err j). fold j'.
  rewrite (bind_ok _ _ w w w) by reflexivity. fold cmds.
  erewrite bind_ok.
  2:{ apply pipeline_execute_run. unfold cmds.
      destruct (delay_truthy _); repeat constructor. }
  erewrite bind_ok by reflexivity.
  erewrite bind_ok.
  2:{ apply notify_run. exact Hi. }
  unfold ret. f_equal.
  cbn [trace redis self with_trace with_redis with_self exec_cmd fst].
  rewrite <- app_assoc. reflexivity.
Qed.

(** X6.  [retry] returns the job reset to QUEUED (error set, [completed],
    [started] and [progress] cleared, [touched] stamped), sends one
    transaction and then publishes "queued"; [retried] goes up by one, the
    other counters stay.  The first occurrence of the id leaves [active] and
    [queued], and the record is rewritten without expiry.  When the retry
    policy gives a delay the id is scored at [time.time()] plus the delay
    and stays out of [queued]; without a delay it is scored at
    [job.scheduled] and pushed on the tail of [queued]. *)
Theorem retry_requeues (next_retry_delay : Job → option Q) (w : World) (j : Job)
    (err : option string) (i : string) :
  Job_id j = Ok i →
  let j' := requeued (now_ms w) err j in
  ∃ w',
    retry next_retry_delay j err w = (Ok j', w')
    ∧ status j' = QUEUED ∧ error j' = err ∧ completed j' = 0 ∧ started j' = 0
    ∧ touched j' = now_ms w
    ∧ retried (self w') = retried (self w) + 1
    ∧ complete (self w') = complete (self w)
    ∧ failed (self w') = failed (self w)
    ∧ aborted (self w') = aborted (self w)
    ∧ r_active (redis w') = remove_first_n 1 i (r_active (redis w))
    ∧ r_strings (redis w') = <[i := mkEntry (serialize (self w) j') None]> (r_strings (redis w))
    ∧ r_published (redis w') = r_published (redis w) ++ [(i, "queued"%string)]
    ∧ (∀ d, next_retry_delay j' = Some d → ¬ (d == 0)%Q →
         r_queued (redis w') = remove_first_n 1 i (r_queued (redis w))
         ∧ r_incomplete (redis w') = <[i := (time_time w + d)%Q]> (r_incomplete (redis w)))
    ∧ (delay_truthy (next_retry_delay j') = false →
         r_queued (redis w') = remove_first_n 1 i (r_queued (redis w)) ++ [i]
         ∧ r_incomplete (redis w') = <[i := inject_Z (scheduled j)]> (r_incomplete (redis w))).
Proof.
  intros Hi j'. eexists. split; [apply (retry_full _ _ _ _ _ Hi)|].
  fold j'. cbn [self redis with_trace with_redis with_self retried complete failed
                aborted with_counters].
  split_and!; try reflexivity.
  - destruct (delay_truthy _); reflexivity.
  - destruct (delay_truthy _); reflexivity.
  - destruct (delay_truthy _); reflexivity.
  - intros d Hd Hnz.
    assert (Ht : delay_truthy (next_retry_delay j') = true).
    { rewrite Hd. cbn [delay_truthy]. apply negb_true_iff.
      destruct (Qeq_bool d 0) eqn:E; [|done]. apply Qeq_bool_iff in E. done. }
    rewrite Ht, Hd. split; reflexivity.
  - intros Hf. rewrite Hf. split; reflexivity.
Qed.

Lemma retry_requeues_witness :
  Job_id untimed_job = Ok "saq:job:q:k"%string
  ∧ ∃ w', retry no_retry_delay untimed_job (Some "boom"%string) untimed_world
          = (Ok (requeued 2000 (Some "boom"%string) untimed_job), w')
          ∧ retried (self w') = 1.
Proof.
  assert (H : Job_id untimed_job = Ok "saq:job:q:k"%string) by reflexivity.
  split; [exact H|].
  destruct (retry_requeues no_retry_delay untimed_world untimed_job
              (Some "boom"%string) _ H)
    as (w' & Hr & _ & _ & _ & _ & _ & Hc & _).
  exists w'. split; [exact Hr | exact Hc].
Defined.

(** ** abort of a job that is still queued *)

Lemma remove_all_shorter (v : string) (xs : list string) :
  v ∈ xs → (length (remove_all v xs) < length xs)%nat.
Proof.
  induction xs as [|x xs IH]; intros H; [by apply elem_of_nil in H|].
  unfold remove_all in *. cbn [List.filter].
  destruct (String.eqb x v) eqn:E; cbn [negb length].
  - pose proof (List.filter_length_le (fun x => negb (String.eqb x v)) xs). lia.
  - apply elem_of_cons in H as [->|H]; [by rewrite String.eqb_refl in E|].
    specialize (IH H). lia.
Qed.

Lemma append_abort_ne (i : string) : i +:+ ":abort" ≠ i.
Proof.
  induction i as [|c i IH]; [discriminate|].
  simpl. intros H. injection H as H. by apply IH.
Qed.

(** The store after the abort transaction. *)
Lemma abort_tx_store r i ttl_ err :
  0 < ttl_ →
  let r1 := fst (exec_cmds [LREM K_queued 0 i; ZREM i; EXPIRE i (ttl_ + 1);
                            SETEX (i +:+ ":abort") ttl_ err] r) in
  r_active r1 = r_active r
  ∧ r_queued r1 = remove_all i (r_queued r)
  ∧ r_incomplete r1 = delete i (r_incomplete r)
  ∧ r_published r1 = r_published r
  ∧ (∀ x, x ≠ i → x ≠ i +:+ ":abort" → r_strings r1 !! x = r_strings r !! x).
Proof.
  intros Httl. cbn [exec_cmds exec_cmd].
  destruct (ttl_ <=? 0) eqn:E0; [apply Z.leb_le in E0; lia|].
  destruct (r_strings _ !! i) eqn:E; [destruct (ttl_ + 1 <=? 0)|];
    cbn; repeat split; try reflexivity; intros x H1 H2.
  - rewrite lookup_insert_ne by done. by rewrite lookup_delete_ne.
  - rewrite lookup_insert_ne by done. by rewrite lookup_insert_ne.
  - by rewrite lookup_insert_ne.
Qed.

(** X7.  [abort] of a job whose id is in [queued] (ttl > 0, the job bound
    to this queue): after the transaction the job is finished as ABORTED
    with the given error and the abort marker is deleted again.  Every
    occurrence of the id is gone from [queued], the id is gone from
    [incomplete], the record is kept by the job's ttl rule, no key is left
    under the abort id, "aborted" is published, and [aborted] goes up by
    one. *)
Theorem abort_queued_finishes (w : World) (j : Job) (err : string) (ttl_ : Z)
    (i : string) :
  0 < ttl_ → Job_id j = Ok i → queue j = Some (name (self w)) →
  i ∈ r_queued (redis w) →
  let j' := finished (now_ms w) ABORTED PNone (Some err) j in
  ∃ w',
    abort j err ttl_ w = (Ok j', w')
    ∧ status j' = ABORTED ∧ error j' = Some err ∧ completed j' = now_ms w
    ∧ trace w'
      = trace w ++
        [EvPipeline [LREM K_queued 0 i; ZREM i; EXPIRE i (ttl_ + 1);
                     SETEX (i +:+ ":abort") ttl_ err];
         EvPipeline [LREM K_active 1 i; ZREM i; retain_cmd (serialize (self w)) i j'];
         EvCmd (PUBLISH i "aborted");
         EvCmd (DEL (i +:+ ":abort"))]
    ∧ r_queued (redis w') = remove_all i (r_queued (redis w))
    ∧ (i ∉ r_queued (redis w'))
    ∧ r_active (redis w') = remove_first_n 1 i (r_active (redis w))
    ∧ r_incomplete (redis w') = delete i (r_incomplete (redis w))
    ∧ r_strings (redis w') !! (i +:+ ":abort") = None
    ∧ r_strings (redis w') !! i = retained (serialize (self w)) j'
    ∧ (∀ x, x ≠ i → x ≠ i +:+ ":abort" →
         r_strings (redis w') !! x = r_strings (redis w) !! x)
    ∧ r_published (redis w') = r_published (redis w) ++ [(i, "aborted"%string)]
    ∧ aborted (self w') = aborted (self w) + 1.
Proof.
  intros Httl Hi Hqn Hin j'. unfold abort.
  rewrite (bind_ok _ _ w i w) by (unfold lift; by rewrite Hi).
  rewrite (bind_ok _ _ w (i +:+ ":abort") w)
    by (unfold lift; by rewrite (Job_abort_id_of _ _ Hi)).
  set (cmds := [LREM K_queued 0 i; ZREM i; EXPIRE i (ttl_ + 1);
                SETEX (i +:+ ":abort") ttl_ err]).
  erewrite bind_ok
    by (apply pipeline_execute_run; unfold cmds; repeat constructor; exact Httl).
  assert (Hd : reply_truthy (hd RNil (snd (exec_cmds cmds (redis w)))) = true).
  { unfold cmds. rewrite hd_exec_cmds. cbn [exec_cmd get_list snd]. unfold lrem.
    cbn [Z.eqb reply_truthy]. pose proof (remove_all_shorter _ _ Hin).
    apply negb_true_iff, Z.eqb_neq. lia. }
  rewrite Hd.
  set (w1 := with_trace _ (with_redis _ w)).
  destruct (abort_tx_store (redis w) i ttl_ err Httl) as (Ha1 & Hq1 & Hz1 & Hp1 & Hs1).
  fold cmds in Ha1, Hq1, Hz1, Hp1, Hs1.
  erewrite bind_ok.
  2:{ rewrite (Job_finish_run w1 j ABORTED PNone (Some err) i Hi Hqn).
      apply (finish_run _ _ _ _ _ _ Hi). }
  erewrite bind_ok by (by apply redis_call_run).
  change (now_ms w1) with (now_ms w). change (self w1) with (self w). fold j'.
  eexists. split; [reflexivity|].
  destruct (finish_store (redis w1) (serialize (self w)) i j' ABORTED)
    as (Ha & Hq & Hz & Hs & Hp & _).
  set (r2 := fst (exec_cmd (PUBLISH i (Status_value ABORTED)) _)) in *.
  change (redis w1) with (fst (exec_cmds cmds (redis w))) in *.
  cbn [trace redis self with_trace with_redis with_self exec_cmd fst with_strings
       r_queued r_active r_incomplete r_published r_strings w1].
  rewrite Ha, Hq, Hz, Hp, Hs, Ha1, Hq1, Hz1, Hp1.
  split_and!; try reflexivity.
  - rewrite <- !app_assoc. reflexivity.
  - intros H. by apply remove_all_elem in H as [_ H].
  - by rewrite delete_delete_eq.
  - apply lookup_delete_eq.
  - rewrite lookup_delete_ne by apply append_abort_ne.
    unfold retained.
    destruct (0 <? ttl j'); [apply lookup_insert_eq|].
    destruct (ttl j' =? 0); [apply lookup_insert_eq | apply lookup_delete_eq].
  - intros x H1 H2. rewrite lookup_delete_ne by done.
    rewrite <- (Hs1 x H1 H2).
    destruct (0 <? ttl j'); [by rewrite lookup_insert_ne|].
    destruct (ttl j' =? 0); [by rewrite lookup_insert_ne | by rewrite lookup_delete_ne].
Qed.

Lemma abort_queued_finishes_witness :
  0 < 5
  ∧ Job_id add_job = Ok "saq:job:q:k1"%string
  ∧ queue add_job = Some (name (self queued_world))
  ∧ ("saq:job:q:k1"%string ∈ r_queued (redis queued_world))
  ∧ ∃ w', abort add_job "stop" 5 queued_world
          = (Ok (finished 5000 ABORTED PNone (Some "stop"%string) add_job), w')
          ∧ r_queued (redis w') = [].
Proof.
  assert (H0 : 0 < 5) by lia.
  assert (H1 : Job_id add_job = Ok "saq:job:q:k1"%string) by reflexivity.
  assert (H2 : queue add_job = Some (name (self queued_world))) by reflexivity.
  assert (H3 : "saq:job:q:k1"%string ∈ r_queued (redis queued_world))
    by (vm_compute; constructor).
  split; [exact H0|]. split; [exact H1|]. split; [exact H2|]. split; [exact H3|].
  destruct (abort_queued_finishes queued_world add_job "stop" 5 _ H0 H1 H2 H3)
    as (w' & Hr & _ & _ & _ & _ & Hq & _).
  exists w'. split; [exact Hr|]. rewrite Hq. vm_compute. reflexivity.
Defined.

(** ** enqueue, and what follows it *)

(** A successful [enqueue], taken apart. *)
Lemma enqueue_some (w : World) (jf : JobOrFunc) (kw : pydict) (j : Job) (w1 : World) :
  enqueue jf kw w = (Ok (Some j), w1) →
  ∃ i,
    Job_id j = Ok i
    ∧ r_incomplete (redis w) !! i = None
    ∧ r_strings (redis w) !! (i +:+ ":abort") = None
    ∧ redis w1
      = {| r_strings := <[i := mkEntry (serialize (self w) j) None]> (r_strings (redis w));
           r_incomplete := <[i := inject_Z (scheduled j)]> (r_incomplete (redis w));
           r_queued := if scheduled j =? 0 then r_queued (redis w) ++ [i]
                       else r_queued (redis w);
           r_active := r_active (redis w);
           r_published := r_published (redis w);
           r_version := r_version (redis w) |}
    ∧ self w1 = self w ∧ now_ms w1 = now_ms w ∧ next_uuid w1 = next_uuid w.
Proof.
  intros H.
  destruct (prepare (self w) (next_uuid w) (now_ms w) jf kw) as [jq|e] eqn:Hp.
  2:{ rewrite (enqueue_prepare_raise _ _ _ _ Hp) in H. discriminate. }
  destruct (fst (_before_enqueue jq w)) as [j'|e] eqn:Hc.
  2:{ rewrite (enqueue_callbacks_raise _ _ _ _ _ Hp Hc) in H. discriminate. }
  pose proof Hc as Hc'. rewrite before_enqueue_unfold in Hc'.
  pose proof (run_callbacks_ok _ _ _ _ Hc') as Hw1.
  rewrite <- before_enqueue_unfold in Hw1.
  destruct (Job_id j') as [i|e] eqn:Hi.
  2:{ rewrite (enqueue_no_id _ _ _ _ _ _ Hp Hc Hi) in H. discriminate. }
  rewrite (enqueue_run _ _ _ _ _ _ Hp Hc Hi) in H. rewrite Hw1 in H.
  cbn [run_script redis with_trace] in H.
  destruct (r_incomplete (redis w) !! i) as [q|] eqn:E1.
  { rewrite enqueue_script_blocked in H by (left; eauto). discriminate. }
  destruct (r_strings (redis w) !! (i +:+ ":abort")) as [e|] eqn:E2.
  { rewrite enqueue_script_blocked in H by (right; eauto). discriminate. }
  rewrite (enqueue_script_free _ _ _ _ _ E1 E2) in H.
  cbn [snd fst reply_truthy Z.eqb negb] in H.
  inversion H; subst. exists i. split_and!; first [assumption | reflexivity].
Qed.

(** X8.  An id is enqueued at most once while it is incomplete.  A
    successful [enqueue] leaves the job's id in [incomplete] with the score
    [scheduled] and its record stored without expiry; and from any store
    where an id has a score in [incomplete], or a key exists under its abort
    id, no [enqueue] call returns a job with that id. *)
Theorem enqueue_at_most_once (w : World) (jf : JobOrFunc) (kw : pydict) (j : Job)
    (w1 : World) :
  enqueue jf kw w = (Ok (Some j), w1) →
  ∃ i,
    Job_id j = Ok i
    ∧ ¬ blocked (redis w) i (i +:+ ":abort")
    ∧ r_incomplete (redis w1) !! i = Some (inject_Z (scheduled j))
    ∧ r_strings (redis w1) !! i = Some (mkEntry (serialize (self w) j) None)
    ∧ ∀ jf' kw' j2 w2,
        enqueue jf' kw' w1 = (Ok (Some j2), w2) → Job_id j2 ≠ Ok i.
Proof.
  intros H. destruct (enqueue_some _ _ _ _ _ H) as (i & Hi & Hz & Ha & Hr & _).
  exists i. rewrite Hr. cbn [r_incomplete r_strings].
  split_and!; [done| |apply lookup_insert_eq|apply lookup_insert_eq|].
  - intros [[q Hq]|[e He]]; congruence.
  - intros jf' kw' j2 w2 H2 Hi2.
    destruct (enqueue_some _ _ _ _ _ H2) as (i2 & Hi2' & Hz2 & _).
    rewrite Hi2 in Hi2'. inversion Hi2'; subst i2.
    rewrite Hr in Hz2. cbn [r_incomplete] in Hz2.
    by rewrite lookup_insert_eq in Hz2.
Qed.

Lemma enqueue_at_most_once_witness :
  enqueue (AJob add_job) [] add_world = (Ok (Some add_job), queued_world)
  ∧ ∃ i, Job_id add_job = Ok i
         ∧ r_incomplete (redis queued_world) !! i = Some (inject_Z (scheduled add_job)).
Proof.
  assert (H : enqueue (AJob add_job) [] add_world = (Ok (Some add_job), queued_world))
    by (vm_compute; reflexivity).
  split; [exact H|].
  destruct (enqueue_at_most_once _ _ _ _ _ H) as (i & Hi & _ & Hz & _).
  exists i. split; [exact Hi | exact Hz].
Defined.

(** X9.  Last in, first out.  When [enqueue] has returned a job that is due
    at once ([scheduled] = 0), the next [dequeue] returns that very job,
    whatever else is waiting in [queued]: the id was appended to the tail and
    the tail is where [dequeue] takes from.  (The job is bound to this queue
    and the codec gives its dictionary back.)  The ids that were waiting
    before are waiting still, the id is at the head of [active], and its
    score in [incomplete] is 0. *)
Theorem enqueue_then_dequeue (w : World) (jf : JobOrFunc) (kw : pydict) (j : Job)
    (w1 : World) (tmo : Z) :
  enqueue jf kw w = (Ok (Some j), w1) →
  scheduled j = 0 → queue j = Some (name (self w)) → codec_ok (self w) j →
  ∃ i w2,
    Job_id j = Ok i
    ∧ dequeue tmo w1 = (Ok (Some j), w2)
    ∧ r_queued (redis w2) = r_queued (redis w)
    ∧ r_active (redis w2) = i :: r_active (redis w)
    ∧ r_incomplete (redis w2) !! i = Some 0%Q.
Proof.
  intros H Hs Hq Hc.
  destruct (enqueue_some _ _ _ _ _ H) as (i & Hi & _ & _ & Hr & Hself & _ & Hu).
  rewrite Hs in Hr. cbn [Z.eqb] in Hr.
  assert (Hq1 : r_queued (redis w1) = r_queued (redis w) ++ [i]) by (by rewrite Hr).
  exists i. eexists. split; [exact Hi|]. split.
  - rewrite (dequeue_tail_run _ tmo _ _ Hq1). f_equal.
    rewrite Hr, Hself. cbn [r_strings]. rewrite lookup_insert_eq. cbn.
    by apply decode_encoded.
  - cbn [redis with_trace with_redis with_list r_queued r_active r_incomplete].
    rewrite Hr. cbn [r_active r_incomplete]. split_and!; try reflexivity.
    apply lookup_insert_eq.
Qed.

Lemma enqueue_then_dequeue_witness :
  enqueue (AJob add_job) [] add_world = (Ok (Some add_job), queued_world)
  ∧ scheduled add_job = 0
  ∧ queue add_job = Some (name (self add_world))
  ∧ codec_ok (self add_world) add_job
  ∧ ∃ w2, dequeue 1 queued_world = (Ok (Some add_job), w2).
Proof.
  assert (H : enqueue (AJob add_job) [] add_world = (Ok (Some add_job), queued_world))
    by (vm_compute; reflexivity).
  assert (H1 : scheduled add_job = 0) by reflexivity.
  assert (H2 : queue add_job = Some (name (self add_world))) by reflexivity.
  assert (H3 : codec_ok (self add_world) add_job)
    by (split; [reflexivity | vm_compute; discriminate]).
  split; [exact H|]. split; [exact H1|]. split; [exact H2|]. split; [exact H3|].
  destruct (enqueue_then_dequeue _ _ _ _ _ 1 H H1 H2 H3) as (i & w2 & _ & Hd & _).
  exists w2. exact Hd.
Defined.

(** X10.  The abort marker keeps the job out.  After [abort] of a job that
    was not in [queued] (ttl > 0), the key under the abort id stands, and
    no [enqueue] call on that store returns a job with the aborted id. *)
Theorem abort_marker_blocks_enqueue (w : World) (j : Job) (err : string) (ttl_ : Z)
    (i : string) :
  0 < ttl_ → Job_id j = Ok i → i ∉ r_queued (redis w) →
  ∃ w1,
    abort j err ttl_ w = (Ok j, w1)
    ∧ is_Some (r_strings (redis w1) !! (i +:+ ":abort"))
    ∧ ∀ jf kw j2 w2, enqueue jf kw w1 = (Ok (Some j2), w2) → Job_id j2 ≠ Ok i.
Proof.
  intros Httl Hi Hq. eexists. split; [apply (abort_not_queued_run _ _ _ _ _ Httl Hi Hq)|].
  cbn [redis with_trace with_redis].
  destruct (abort_store (redis w) i ttl_ err Httl) as (_ & _ & _ & Hm & _).
  split; [by rewrite Hm|].
  intros jf kw j2 w2 H2 Hi2.
  destruct (enqueue_some _ _ _ _ _ H2) as (i2 & Hi2' & _ & Ha & _).
  rewrite Hi2 in Hi2'. inversion Hi2'; subst i2.
  cbn [redis with_trace with_redis] in Ha. rewrite Hm in Ha. discriminate.
Qed.

Lemma abort_marker_blocks_enqueue_witness :
  0 < 5
  ∧ Job_id untimed_job = Ok "saq:job:q:k"%string
  ∧ ("saq:job:q:k"%string ∉ r_queued (redis untimed_world))
  ∧ ∃ w1, abort untimed_job "stop" 5 untimed_world = (Ok untimed_job, w1)
          ∧ fst (enqueue (AJob untimed_job) [] w1) = Ok None.
Proof.
  assert (H0 : 0 < 5) by lia.
  assert (H1 : Job_id untimed_job = Ok "saq:job:q:k"%string) by reflexivity.
  assert (H2 : "saq:job:q:k"%string ∉ r_queued (redis untimed_world))
    by (vm_compute; apply not_elem_of_nil).
  split; [exact H0|]. split; [exact H1|]. split; [exact H2|].
  destruct (abort_marker_blocks_enqueue untimed_world untimed_job "stop" 5 _ H0 H1 H2)
    as (w1 & Ha & _).
  exists w1. split; [exact Ha|].
  rewrite (abort_not_queued_run _ _ _ _ _ H0 H1 H2) in Ha.
  injection Ha as <-. vm_compute. reflexivity.
Defined.

(** ** finish, and the lookup after it *)

Lemma count_finished_codec st q :
  _load (count_finished st q) = _load q ∧ _dump (count_finished st q) = _dump q
  ∧ name (count_finished st q) = name q.
Proof. by destruct st. Qed.

Lemma Job_id_job_id (q : Queue) (j : Job) :
  queue j = Some (name q) → Job_id j = Ok (job_id q (key j)).
Proof. unfold Job_id, job_id. by intros ->. Qed.

(** X11.  What [finish] stored is what a lookup finds.  For a job bound to
    this queue whose finished form the codec gives back: after [finish], the
    lookup [Queue.job] of the job's key returns the finished job, with the
    new status, result and error, when the job's ttl is 0 or more, and
    [None] when the ttl is negative, the record having been deleted. *)
Theorem finish_then_lookup (w : World) (j : Job) (st : Status) (res : PyVal)
    (err : option string) :
  queue j = Some (name (self w)) →
  let j' := finished (now_ms w) st res err j in
  codec_ok (self w) j' →
  ∃ w1 w2,
    finish j st res err w = (Ok j', w1)
    ∧ status j' = st ∧ result j' = res ∧ error j' = err
    ∧ job (key j) w1 = (Ok (if 0 <=? ttl j then Some j' else None), w2).
Proof.
  intros Hq j' [Hl Hne].
  pose proof (Job_id_job_id _ _ Hq) as Hi.
  eexists _, _. split; [apply (finish_run _ _ _ _ _ _ Hi)|].
  split; [apply finished_status|].
  split; [unfold j', finished; by destruct (decide _)|].
  split; [unfold j', finished; by destruct (decide _)|].
  rewrite job_stored. f_equal. unfold stored.
  cbn [self redis next_uuid with_trace with_redis with_self].
  destruct (count_finished_codec st (self w)) as (Hl' & Hd' & Hn').
  rewrite (deserialize_ext _ _ _ _ Hl' Hn').
  change (job_id (count_finished st (self w)) (key j))
    with (ID_PREFIX +:+ name (count_finished st (self w)) +:+ ":" +:+ key j).
  rewrite Hn'. fold (job_id (self w) (key j)).
  destruct (finish_store (redis w) (serialize (self w)) (job_id (self w) (key j)) j' st)
    as (_ & _ & _ & Hs & _).
  assert (Httl : ttl j' = ttl j) by apply finished_ttl.
  assert (Hq' : queue j' = Some (name (self w)))
    by (unfold j', finished; by destruct (decide _)).
  fold j'. rewrite Hs, Httl.
  destruct (0 <? ttl j) eqn:E1; [|destruct (ttl j =? 0) eqn:E2].
  - apply Z.ltb_lt in E1.
    replace (0 <=? ttl j) with true by (symmetry; apply Z.leb_le; lia).
    rewrite lookup_insert_eq. cbn [fmap option_fmap option_map e_val].
    by apply decode_encoded.
  - apply Z.eqb_eq in E2.
    replace (0 <=? ttl j) with true by (symmetry; apply Z.leb_le; lia).
    rewrite lookup_insert_eq. cbn [fmap option_fmap option_map e_val].
    by apply decode_encoded.
  - apply Z.ltb_ge in E1. apply Z.eqb_neq in E2.
    replace (0 <=? ttl j) with false by (symmetry; apply Z.leb_gt; lia).
    by rewrite lookup_delete_eq.
Qed.

Lemma finish_then_lookup_witness :
  queue untimed_job = Some (name (self done_world))
  ∧ codec_ok (self done_world) (finished (now_ms done_world) COMPLETE (PInt 3) None untimed_job)
  ∧ ∃ w1 w2,
      finish untimed_job COMPLETE (PInt 3) None done_world = (Ok done_job, w1)
      ∧ job "k" w1 = (Ok (Some done_job), w2).
Proof.
  assert (H1 : queue untimed_job = Some (name (self done_world))) by reflexivity.
  assert (H2 : codec_ok (self done_world)
                 (finished (now_ms done_world) COMPLETE (PInt 3) None untimed_job))
    by (split; [reflexivity | vm_compute; discriminate]).
  split; [exact H1|]. split; [exact H2|].
  destruct (finish_then_lookup done_world untimed_job COMPLETE (PInt 3) None H1 H2)
    as (w1 & w2 & Hf & _ & _ & _ & Hj).
  exists w1, w2. split; [exact Hf | exact Hj].
Defined.

Lemma remove_first_head (i : string) (l : list string) :
  remove_first_n 1 i (i :: l) = l.
Proof. simpl. rewrite String.eqb_refl. by destruct l. Qed.

(** X12.  One turn of the life cycle leaves the collections as they were.
    When [enqueue] has returned a job that is due at once, the next
    [dequeue] returns it, and [finish] is then called on it: [queued],
    [active] and [incomplete] are again what they were before the
    [enqueue]; what is left of the job is its record, kept or deleted by
    the ttl rule, and one publication of the final status. *)
Theorem lifecycle_restores_collections (w : World) (jf : JobOrFunc) (kw : pydict)
    (j : Job) (w1 : World) (tmo : Z) (st : Status) (res : PyVal) (err : option string) :
  enqueue jf kw w = (Ok (Some j), w1) →
  scheduled j = 0 → queue j = Some (name (self w)) → codec_ok (self w) j →
  let j' := finished (now_ms w) st res err j in
  ∃ i w2 w3,
    Job_id j = Ok i
    ∧ dequeue tmo w1 = (Ok (Some j), w2)
    ∧ finish j st res err w2 = (Ok j', w3)
    ∧ r_queued (redis w3) = r_queued (redis w)
    ∧ r_active (redis w3) = r_active (redis w)
    ∧ r_incomplete (redis w3) = r_incomplete (redis w)
    ∧ r_strings (redis w3) !! i = retained (serialize (self w)) j'
    ∧ r_published (redis w3) = r_published (redis w) ++ [(i, Status_value st)].
Proof.
  intros H Hs Hq Hc j'.
  destruct (enqueue_some _ _ _ _ _ H) as (i & Hi & Hz & _ & Hr & Hself & Hnow & Hu).
  rewrite Hs in Hr. cbn [Z.eqb] in Hr.
  assert (Hq1 : r_queued (redis w1) = r_queued (redis w) ++ [i]) by (by rewrite Hr).
  pose (w2 := snd (dequeue tmo w1)).
  pose (w3 := snd (finish j st res err w2)).
  exists i, w2, w3.
  destruct (versioned_codec w1) as (_ & Hd & _ & _ & Hn).
  assert (Hdq : dequeue tmo w1 = (Ok (Some j), w2)).
  { unfold w2. rewrite (dequeue_tail_run _ tmo _ _ Hq1). cbn [snd]. f_equal.
    rewrite Hr, Hself. cbn [r_strings]. rewrite lookup_insert_eq. cbn.
    by apply decode_encoded. }
  assert (Hr2 : redis w2
                = with_list K_active (i :: r_active (redis w1))
                    (with_list K_queued (r_queued (redis w)) (redis w1))).
  { unfold w2. by rewrite (dequeue_tail_run _ tmo _ _ Hq1). }
  assert (Hser : serialize (self w2) = serialize (self w)).
  { unfold w2. rewrite (dequeue_tail_run _ tmo _ _ Hq1). unfold serialize.
    cbn [snd self with_trace with_redis]. by rewrite Hd, Hself. }
  assert (Hnow2 : now_ms w2 = now_ms w).
  { unfold w2. rewrite (dequeue_tail_run _ tmo _ _ Hq1).
    cbn [snd now_ms with_trace with_redis]. by rewrite Hn. }
  clearbody w2.
  pose proof (finish_run w2 j st res err i Hi) as Hf. cbv zeta in Hf.
  rewrite Hnow2, Hser in Hf. fold j' in Hf.
  unfold w3. rewrite Hf.
  split; [exact Hi|]. split; [exact Hdq|]. split; [reflexivity|]. cbn [snd redis with_trace with_redis].
  destruct (finish_store (redis w2) (serialize (self w)) i j' st)
    as (Ha & Hqq & Hzz & Hss & Hp & _).
  rewrite Ha, Hqq, Hzz, Hss, Hp, Hr2, Hr.
  cbn [with_list r_queued r_active r_incomplete r_strings r_published].
  split_and!; try reflexivity.
  - apply remove_first_head.
  - rewrite delete_insert_eq. by apply delete_id.
  - unfold retained.
    destruct (0 <? ttl j'); [apply lookup_insert_eq|].
    destruct (ttl j' =? 0); [apply lookup_insert_eq | apply lookup_delete_eq].
Qed.

Lemma lifecycle_restores_collections_witness :
  enqueue (AJob add_job) [] add_world = (Ok (Some add_job), queued_world)
  ∧ scheduled add_job = 0
  ∧ queue add_job = Some (name (self add_world))
  ∧ codec_ok (self add_world) add_job
  ∧ ∃ w2 w3,
      dequeue 1 queued_world = (Ok (Some add_job), w2)
      ∧ finish add_job COMPLETE (PInt 3) None w2
        = (Ok (finished 5000 COMPLETE (PInt 3) None add_job), w3)
      ∧ r_queued (redis w3) = [] ∧ r_active (redis w3) = []
      ∧ r_incomplete (redis w3) = ∅.
Proof.
  assert (H : enqueue (AJob add_job) [] add_world = (Ok (Some add_job), queued_world))
    by (vm_compute; reflexivity).
  assert (H1 : scheduled add_job = 0) by reflexivity.
  assert (H2 : queue add_job = Some (name (self add_world))) by reflexivity.
  assert (H3 : codec_ok (self add_world) add_job)
    by (split; [reflexivity | vm_compute; discriminate]).
  split; [exact H|]. split; [exact H1|]. split; [exact H2|]. split; [exact H3|].
  destruct (lifecycle_restores_collections _ _ _ _ _ 1 COMPLETE (PInt 3) None H H1 H2 H3)
    as (i & w2 & w3 & _ & Hd & Hf & Hq & Ha & Hz & _).
  exists w2, w3. split; [exact Hd|]. split; [exact Hf|].
  split; [exact Hq|]. split; [exact Ha | exact Hz].
Defined.

(** ** schedule and sweep at the edges *)

Lemma cleanup_script_locked key lock r :
  is_Some (r_strings r !! key) → cleanup_script key lock r = (r, RNil).
Proof.
  intros H. unfold cleanup_script, lua_call. cbn [exec_cmd].
  by rewrite (bool_decide_eq_true_2 _ H).
Qed.

Lemma cleanup_script_rejected key lock r :
  lock ≤ 0 → r_strings r !! key = None →
  cleanup_script key lock r = (r, RErr "invalid expire time in 'setex' command").
Proof.
  intros Hl H. unfold cleanup_script, lua_call. cbn [exec_cmd].
  rewrite bool_decide_eq_false_2 by (rewrite H; by intros [? ?]).
  cbn [bool_to_Z reply_is_int Z.eqb].
  destruct (lock <=? 0) eqn:E; [reflexivity | apply Z.leb_gt in E; lia].
Qed.

(** X13.  A sweep that does not get the lock does nothing: while the sweep
    lock key exists, [sweep] returns the empty list after the one script
    call; it reads no record (no MGET is sent) and the store is
    unchanged. *)
Theorem sweep_lock_held (seconds : Z → Q) (w : World) (lock : Z) :
  is_Some (r_strings (redis w) !! namespace (self w) "sweep") →
  sweep seconds lock w
  = (Ok [],
     with_trace (trace w ++ [EvScript (CleanupScript (namespace (self w) "sweep") lock)]) w).
Proof.
  intros H. unfold sweep. rewrite (bind_ok _ _ w w w) by reflexivity.
  erewrite bind_ok.
  2:{ rewrite call_script_run. cbn [run_script].
      rewrite (cleanup_script_locked _ _ _ H). reflexivity. }
  cbn [bulk_items fst]. by rewrite with_redis_same.
Qed.

Lemma sweep_lock_held_witness :
  is_Some (r_strings (redis (snd (sweep ms_to_seconds 60 untimed_world)))
             !! namespace (self (snd (sweep ms_to_seconds 60 untimed_world))) "sweep")
  ∧ fst (sweep ms_to_seconds 60 (snd (sweep ms_to_seconds 60 untimed_world))) = Ok [].
Proof.
  assert (H : is_Some (r_strings (redis (snd (sweep ms_to_seconds 60 untimed_world)))
                !! namespace (self (snd (sweep ms_to_seconds 60 untimed_world))) "sweep"))
    by (vm_compute; eauto).
  split; [exact H|].
  by rewrite (sweep_lock_held ms_to_seconds _ 60 H).
Defined.

(** X14.  A lock time of 0 or less is refused.  With the lock key absent,
    [schedule] and [sweep] called with [lock] <= 0 raise the server's error
    for the SETEX inside the script, and the store is as it was: nothing is
    promoted and nothing is swept. *)
Theorem nonpositive_lock_refused (seconds : Z → Q) (w : World) (lock : Z) :
  lock ≤ 0 →
  (r_strings (redis w) !! namespace (self w) "schedule" = None →
   fst (schedule seconds lock w)
   = Raise (ResponseError "invalid expire time in 'setex' command")
   ∧ redis (snd (schedule seconds lock w)) = redis w)
  ∧ (r_strings (redis w) !! namespace (self w) "sweep" = None →
     fst (sweep seconds lock w)
     = Raise (ResponseError "invalid expire time in 'setex' command")
     ∧ redis (snd (sweep seconds lock w)) = redis w).
Proof.
  intros Hl. split; intros H.
  - unfold schedule. rewrite (bind_ok _ _ w w w) by reflexivity.
    rewrite (bind_ok _ _ w (now_ms w) w) by reflexivity.
    erewrite bind_raise.
    2:{ rewrite call_script_run. cbn [run_script].
        rewrite (schedule_script_rejected _ _ _ _ Hl H). reflexivity. }
    done.
  - unfold sweep. rewrite (bind_ok _ _ w w w) by reflexivity.
    erewrite bind_raise.
    2:{ rewrite call_script_run. cbn [run_script].
        rewrite (cleanup_script_rejected _ _ _ Hl H). reflexivity. }
    done.
Qed.

Lemma nonpositive_lock_refused_witness :
  0 ≤ 0
  ∧ r_strings (redis scheduled_world) !! namespace (self scheduled_world) "schedule" = None
  ∧ fst (schedule ms_to_seconds 0 scheduled_world)
    = Raise (ResponseError "invalid expire time in 'setex' command")
  ∧ r_queued (redis (snd (schedule ms_to_seconds 0 scheduled_world))) = [].
Proof.
  assert (H0 : 0 ≤ 0) by lia.
  assert (H1 : r_strings (redis scheduled_world)
               !! namespace (self scheduled_world) "schedule" = None)
    by (vm_compute; reflexivity).
  split; [exact H0|]. split; [exact H1|].
  destruct (proj1 (nonpositive_lock_refused ms_to_seconds scheduled_world 0 H0) H1)
    as [He Hr].
  split; [exact He|]. rewrite Hr. reflexivity.
Defined.

(** ** count *)

(** X15.  [count] only reads.  The three kinds answer with the length of
    [queued], the length of [active] and the size of [incomplete], each in
    one round trip that leaves the store as it was; any other kind raises
    [ValueError] and the store is not contacted. *)
Theorem count_reads (w : World) :
  count "queued" w
  = (Ok (Z.of_nat (length (r_queued (redis w)))),
     with_trace (trace w ++ [EvCmd (LLEN K_queued)]) w)
  ∧ count "active" w
    = (Ok (Z.of_nat (length (r_active (redis w)))),
       with_trace (trace w ++ [EvCmd (LLEN K_active)]) w)
  ∧ count "incomplete" w
    = (Ok (Z.of_nat (size (r_incomplete (redis w)))),
       with_trace (trace w ++ [EvCmd ZCARD]) w)
  ∧ ∀ kind, kind ≠ "queued"%string → kind ≠ "active"%string →
            kind ≠ "incomplete"%string →
            count kind w = (Raise (ValueError "Can't count unknown type {kind}"), w).
Proof.
  split_and!.
  - unfold count. cbn [String.eqb Ascii.eqb Bool.eqb].
    erewrite bind_ok by (by apply redis_call_run).
    cbn [exec_cmd snd fst ret reply_int get_list]. by rewrite with_redis_same.
  - unfold count. cbn [String.eqb Ascii.eqb Bool.eqb].
    erewrite bind_ok by (by apply redis_call_run).
    cbn [exec_cmd snd fst ret reply_int get_list]. by rewrite with_redis_same.
  - unfold count. cbn [String.eqb Ascii.eqb Bool.eqb].
    erewrite bind_ok by (by apply redis_call_run).
    cbn [exec_cmd snd fst ret reply_int get_list]. by rewrite with_redis_same.
  - intros kind H1 H2 H3. unfold count.
    apply String.eqb_neq in H1, H2, H3. by rewrite H1, H2, H3.
Qed.

Lemma count_value (w : World) :
  fst (count "queued" w) = Ok (Z.of_nat (length (r_queued (redis w))))
  ∧ fst (count "active" w) = Ok (Z.of_nat (length (r_active (redis w))))
  ∧ fst (count "incomplete" w) = Ok (Z.of_nat (size (r_incomplete (redis w)))).
Proof.
  split_and!; unfold count; cbn [String.eqb Ascii.eqb Bool.eqb];
    (erewrite bind_ok by (by apply redis_call_run)); reflexivity.
Qed.

(** X16.  The counts after an [enqueue] that returned a job: [incomplete]
    has one member more, [queued] is one longer when the job is due at once
    ([scheduled] = 0) and as long as before when it is scheduled for later,
    and [active] is as long as before. *)
Theorem count_after_enqueue (w : World) (jf : JobOrFunc) (kw : pydict) (j : Job)
    (w1 : World) :
  enqueue jf kw w = (Ok (Some j), w1) →
  ∃ nq na ni,
    fst (count "queued" w) = Ok nq ∧ fst (count "active" w) = Ok na
    ∧ fst (count "incomplete" w) = Ok ni
    ∧ fst (count "queued" w1) = Ok (if scheduled j =? 0 then nq + 1 else nq)
    ∧ fst (count "active" w1) = Ok na
    ∧ fst (count "incomplete" w1) = Ok (ni + 1).
Proof.
  intros H. destruct (enqueue_some _ _ _ _ _ H) as (i & _ & Hz & _ & Hr & _).
  destruct (count_value w) as (Hq & Ha & Hi).
  destruct (count_value w1) as (Hq1 & Ha1 & Hi1).
  eexists _, _, _. split; [exact Hq|]. split; [exact Ha|]. split; [exact Hi|].
  rewrite Hq1, Ha1, Hi1, Hr. cbn [r_queued r_active r_incomplete].
  split_and!; f_equal.
  - destruct (scheduled j =? 0); [|reflexivity]. rewrite length_app. simpl. lia.
  - rewrite (map_size_insert_None _ _ _ Hz). lia.
Qed.

Lemma count_after_enqueue_witness :
  enqueue (AJob add_job) [] add_world = (Ok (Some add_job), queued_world)
  ∧ fst (count "queued" queued_world) = Ok 1
  ∧ fst (count "incomplete" queued_world) = Ok 1.
Proof.
  assert (H : enqueue (AJob add_job) [] add_world = (Ok (Some add_job), queued_world))
    by (vm_compute; reflexivity).
  split; [exact H|].
  destruct (count_after_enqueue _ _ _ _ _ H) as (nq & na & ni & Hq & _ & Hi & Hq1 & _ & Hi1).
  rewrite Hq1, Hi1.
  assert (nq = 0) as -> by (vm_compute in Hq; congruence).
  assert (ni = 0) as -> by (vm_compute in Hi; congruence).
  split; reflexivity.
Defined.

Lemma count_reads_witness :
  "jobs"%string ≠ "queued"%string ∧ "jobs"%string ≠ "active"%string
  ∧ "jobs"%string ≠ "incomplete"%string
  ∧ count "jobs" untimed_world
    = (Raise (ValueError "Can't count unknown type {kind}"), untimed_world).
Proof.
  assert (H1 : "jobs"%string ≠ "queued"%string) by discriminate.
  assert (H2 : "jobs"%string ≠ "active"%string) by discriminate.
  assert (H3 : "jobs"%string ≠ "incomplete"%string) by discriminate.
  split; [exact H1|]. split; [exact H2|]. split; [exact H3|].
  exact (proj2 (proj2 (proj2 (count_reads untimed_world))) "jobs"%string H1 H2 H3).
Defined.

(** ** Job.duration *)

Lemma truthy_ne (z : Z) : z ≠ 0 → truthy z = true.
Proof. intros H. unfold truthy. apply negb_true_iff. by apply Z.eqb_neq. Qed.

(** X17.  Durations add up.  When the job has been queued, started and
    completed (the three time stamps are not 0), the three kinds of
    [duration] are defined and total = process + start.  A duration is
    [None] as soon as one of its two time stamps is 0, and a kind other than
    "process", "start" and "total" raises [ValueError]. *)
Theorem duration_adds_up (j : Job) :
  (completed j ≠ 0 → started j ≠ 0 → queued j ≠ 0 →
   ∃ p s t,
     duration "process" j = Ok (Some p) ∧ duration "start" j = Ok (Some s)
     ∧ duration "total" j = Ok (Some t) ∧ t = p + s)
  ∧ (completed j = 0 →
     duration "process" j = Ok None ∧ duration "total" j = Ok None)
  ∧ (started j = 0 →
     duration "process" j = Ok None ∧ duration "start" j = Ok None)
  ∧ (queued j = 0 →
     duration "start" j = Ok None ∧ duration "total" j = Ok None)
  ∧ (∀ kind, kind ≠ "process"%string → kind ≠ "start"%string →
             kind ≠ "total"%string →
             duration kind j = Raise (ValueError ("Unknown duration type: " +:+ kind))).
Proof.
  split_and!.
  - intros Hc Hs Hq. exists (completed j - started j), (started j - queued j),
      (completed j - queued j).
    unfold duration, _duration. cbn [String.eqb Ascii.eqb Bool.eqb].
    rewrite !truthy_ne by done. cbn [andb]. split_and!; try reflexivity. lia.
  - intros H. unfold duration, _duration. cbn [String.eqb Ascii.eqb Bool.eqb].
    by rewrite H.
  - intros H. unfold duration, _duration. cbn [String.eqb Ascii.eqb Bool.eqb].
    rewrite H. cbn. split; [|reflexivity]. by rewrite andb_false_r.
  - intros H. unfold duration, _duration. cbn [String.eqb Ascii.eqb Bool.eqb].
    rewrite H. cbn. by rewrite !andb_false_r.
  - intros kind H1 H2 H3. unfold duration.
    apply String.eqb_neq in H1, H2, H3. by rewrite H1, H2, H3.
Qed.

Lemma duration_adds_up_witness :
  completed done_job ≠ 0 ∧ started done_job ≠ 0 ∧ queued done_job ≠ 0
  ∧ duration "process" done_job = Ok (Some 1000)
  ∧ duration "start" done_job = Ok (Some 500)
  ∧ duration "total" done_job = Ok (Some 1500).
Proof.
  assert (H1 : completed done_job ≠ 0) by discriminate.
  assert (H2 : started done_job ≠ 0) by discriminate.
  assert (H3 : queued done_job ≠ 0) by discriminate.
  split; [exact H1|]. split; [exact H2|]. split; [exact H3|].
  destruct (proj1 (duration_adds_up done_job) H1 H2 H3) as (p & s & t & Hp & Hs & Ht & _).
  split_and!; reflexivity.
Defined.

Lemma finish_returns (w : World) (j : Job) (st : Status) (res : PyVal)
    (err : option string) (j' : Job) (w' : World) :
  finish j st res err w = (Ok j', w') → j' = finished (now_ms w) st res err j.
Proof.
  intros H. destruct (Job_id j) as [i|e] eqn:Hi.
  - rewrite (finish_run _ _ _ _ _ _ Hi) in H. by inversion H.
  - rewrite (finish_raise _ _ _ _ _ _ Hi) in H. discriminate.
Qed.

Lemma retry_returns nrd (w : World) (j : Job) (err : option string) (j' : Job)
    (w' : World) :
  retry nrd j err w = (Ok j', w') → j' = requeued (now_ms w) err j.
Proof.
  intros H. destruct (Job_id j) as [i|e] eqn:Hi.
  - rewrite (retry_full _ _ _ _ _ Hi) in H. by inversion H.
  - rewrite (retry_raise _ _ _ _ _ Hi) in H. discriminate.
Qed.

(** X18.  Durations through the life of a job.  The job [finish] returns
    has the process duration now - started (for a started job, the clock
    not at 0).  The job [retry] returns has no duration of any kind until it
    is started again: [completed] and [started] are back at 0. *)
Theorem duration_after_finish_and_retry (next_retry_delay : Job → option Q)
    (w : World) (j : Job) :
  (∀ st res err j' w',
     finish j st res err w = (Ok j', w') → started j ≠ 0 → now_ms w ≠ 0 →
     duration "process" j' = Ok (Some (now_ms w - started j)))
  ∧ (∀ err j' w',
       retry next_retry_delay j err w = (Ok j', w') →
       duration "process" j' = Ok None ∧ duration "start" j' = Ok None
       ∧ duration "total" j' = Ok None).
Proof.
  split.
  - intros st res err j' w' H Hs Hn. rewrite (finish_returns _ _ _ _ _ _ _ H).
    unfold duration, _duration. cbn [String.eqb Ascii.eqb Bool.eqb].
    assert (Hc : completed (finished (now_ms w) st res err j) = now_ms w)
      by (unfold finished; by destruct (decide _)).
    assert (Hst : started (finished (now_ms w) st res err j) = started j)
      by (unfold finished; by destruct (decide _)).
    rewrite Hc, Hst, !truthy_ne by done. reflexivity.
  - intros err j' w' H. rewrite (retry_returns _ _ _ _ _ _ H).
    split_and!; reflexivity.
Qed.

Lemma duration_after_finish_and_retry_witness :
  finish untimed_job COMPLETE (PInt 3) None done_world
  = (Ok done_job, snd (finish untimed_job COMPLETE (PInt 3) None done_world))
  ∧ started untimed_job ≠ 0 ∧ now_ms done_world ≠ 0
  ∧ duration "process" done_job = Ok (Some (now_ms done_world - started untimed_job)).
Proof.
  assert (H : finish untimed_job COMPLETE (PInt 3) None done_world
              = (Ok done_job, snd (finish untimed_job COMPLETE (PInt 3) None done_world)))
    by (vm_compute; reflexivity).
  assert (H1 : started untimed_job ≠ 0) by discriminate.
  assert (H2 : now_ms done_world ≠ 0) by discriminate.
  split; [exact H|]. split; [exact H1|]. split; [exact H2|].
  exact (proj1 (duration_after_finish_and_retry no_retry_delay done_world untimed_job)
           COMPLETE (PInt 3) None done_job _ H H1 H2).
Defined.

(** ** The wait of map *)

Lemma terminated_cons (k : string) (st : Status) (msgs : list (string * Status)) :
  terminated ((k, st) :: msgs)
  = if is_terminal st then k :: terminated msgs else terminated msgs.
Proof. unfold terminated. cbn [List.filter snd]. by destruct (is_terminal st). Qed.

Lemma difference_terminated_cons (pending : gset string) (k : string) (st : Status)
    (msgs : list (string * Status)) :
  (if is_terminal st then pending ∖ {[k]} else pending) ∖ list_to_set (terminated msgs)
  = pending ∖ list_to_set (terminated ((k, st) :: msgs)).
Proof.
  rewrite terminated_cons. destruct (is_terminal st); [|reflexivity].
  rewrite list_to_set_cons. by rewrite difference_difference_l_L.
Qed.

(** X19.  The wait of [map] ends.  Listening with the [map] callback for a
    set of pending keys that is not empty: as soon as the messages received
    hold a terminal status for every pending key, the callback has asked
    the loop to stop, with [return_exceptions] set or not. *)
Theorem map_wait_ends (return_exceptions : bool) (messages : list (string * Status)) :
  ∀ pending : gset string,
    pending ≠ ∅ →
    (∀ k, k ∈ pending → k ∈ terminated messages) →
    ∃ s unread,
      listen_loop (map_callback return_exceptions) messages pending = Stopped s unread.
Proof.
  induction messages as [|[k st] rest IH]; intros pending Hne Hall.
  - exfalso. apply Hne. apply set_eq. intros x. split.
    + intros Hx. specialize (Hall x Hx). by apply elem_of_nil in Hall.
    + intros Hx. by apply not_elem_of_empty in Hx.
  - cbn [listen_loop]. unfold map_callback.
    destruct (is_unsuccessful st && negb return_exceptions); [by eexists _, _|].
    destruct (bool_decide _) eqn:E; [by eexists _, _|].
    apply bool_decide_eq_false in E. apply IH; [exact E|].
    intros x Hx. rewrite terminated_cons in Hall.
    destruct (is_terminal st).
    + apply elem_of_difference in Hx as [Hx Hk].
      specialize (Hall x Hx). apply elem_of_cons in Hall as [->|Hall]; [|done].
      exfalso. apply Hk. by apply elem_of_singleton.
    + by apply Hall.
Qed.

Lemma map_wait_ends_witness :
  ({["a"%string; "b"%string]} : gset string) ≠ ∅
  ∧ (∀ k, k ∈ ({["a"%string; "b"%string]} : gset string) →
          k ∈ terminated [("b"%string, ACTIVE); ("a"%string, COMPLETE);
                          ("b"%string, FAILED); ("a"%string, QUEUED)])
  ∧ ∃ s unread,
      listen_loop (map_callback true)
        [("b"%string, ACTIVE); ("a"%string, COMPLETE); ("b"%string, FAILED);
         ("a"%string, QUEUED)] {["a"%string; "b"%string]}
      = Stopped s unread.
Proof.
  assert (H1 : ({["a"%string; "b"%string]} : gset string) ≠ ∅).
  { intros H. assert (Ha : "a"%string ∈ ({["a"%string; "b"%string]} : gset string))
      by (apply elem_of_union; left; by apply elem_of_singleton).
    rewrite H in Ha. by apply not_elem_of_empty in Ha. }
  assert (H2 : ∀ k, k ∈ ({["a"%string; "b"%string]} : gset string) →
               k ∈ terminated [("b"%string, ACTIVE); ("a"%string, COMPLETE);
                               ("b"%string, FAILED); ("a"%string, QUEUED)]).
  { intros k Hk. change (k ∈ ["a"%string; "b"%string]).
    apply elem_of_union in Hk as [Hk|Hk]; apply elem_of_singleton in Hk; subst;
      [left | right; left]. }
  split; [exact H1|]. split; [exact H2|].
  exact (map_wait_ends true _ _ H1 H2).
Defined.

(** X20.  When the wait of [map] ends.  If the loop stops, the set left
    is the pending set less the keys that received a terminal status in the
    messages read.  With [return_exceptions] set it stops only once that set
    is empty: every pending key has terminated.  Without it, it may also
    stop at a message that carries FAILED or ABORTED, which is then the
    last one read. *)
Theorem map_wait_stops_when_done (return_exceptions : bool)
    (messages : list (string * Status)) :
  ∀ (pending s : gset string) (unread : list (string * Status)),
    listen_loop (map_callback return_exceptions) messages pending = Stopped s unread →
    ∃ read,
      messages = read ++ unread
      ∧ s = pending ∖ list_to_set (terminated read)
      ∧ (s = ∅
         ∨ (return_exceptions = false
            ∧ ∃ read' k st,
                read = read' ++ [(k, st)] ∧ st ∈ UNSUCCESSFUL_TERMINAL_STATUSES)).
Proof.
  induction messages as [|[k st] rest IH]; intros pending s unread H; [discriminate|].
  cbn [listen_loop] in H. unfold map_callback in H.
  set (p' := if is_terminal st then pending ∖ {[k]} else pending) in *.
  assert (Hp' : p' = pending ∖ list_to_set (terminated [(k, st)])).
  { unfold p'. rewrite <- difference_terminated_cons.
    change (terminated []) with (@nil string). rewrite list_to_set_nil.
    by rewrite difference_empty_L. }
  destruct (is_unsuccessful st && negb return_exceptions) eqn:E1.
  - inversion H; subst s unread. exists [(k, st)]. split; [done|]. split; [done|].
    right. apply andb_true_iff in E1 as [Hu Hr]. apply negb_true_iff in Hr.
    split; [done|]. exists [], k, st. split; [done|].
    unfold is_unsuccessful in Hu. by apply bool_decide_eq_true in Hu.
  - destruct (bool_decide (p' = ∅)) eqn:E2.
    + inversion H; subst s unread. apply bool_decide_eq_true in E2.
      exists [(k, st)]. split; [done|]. split; [done|]. by left.
    + destruct (IH _ _ _ H) as (read & -> & Hs & Hend).
      exists ((k, st) :: read). split; [done|]. split.
      * rewrite Hs. unfold p'. apply difference_terminated_cons.
      * destruct Hend as [He | (Hr & read' & k' & st' & -> & Hu)]; [by left|].
        right. split; [done|]. by exists ((k, st) :: read'), k', st'.
Qed.

Lemma map_wait_stops_when_done_witness :
  listen_loop (map_callback true)
    [("b"%string, ACTIVE); ("a"%string, COMPLETE); ("b"%string, FAILED);
     ("a"%string, QUEUED)] {["a"%string; "b"%string]}
  = Stopped ∅ [("a"%string, QUEUED)]
  ∧ ∃ read,
      [("b"%string, ACTIVE); ("a"%string, COMPLETE); ("b"%string, FAILED);
       ("a"%string, QUEUED)] = read ++ [("a"%string, QUEUED)].
Proof.
  assert (H : listen_loop (map_callback true)
                [("b"%string, ACTIVE); ("a"%string, COMPLETE); ("b"%string, FAILED);
                 ("a"%string, QUEUED)] {["a"%string; "b"%string]}
              = Stopped ∅ [("a"%string, QUEUED)]) by (vm_compute; reflexivity).
  split; [exact H|].
  destruct (map_wait_stops_when_done true _ _ _ _ H) as (read & Hm & _).
  exists read. exact Hm.
Defined.

(** ** The callback registry *)

Lemma cb_del_notin {A} (cid : nat) (d : list (nat * A)) :
  cid ∉ List.map fst d → cb_del cid d = d.
Proof.
  induction d as [|[c f] d IH]; intros H; [done|].
  cbn [List.map fst] in H. apply not_elem_of_cons in H as [H1 H2].
  cbn [cb_del]. destruct (Nat.eqb cid c) eqn:E.
  - apply Nat.eqb_eq in E. congruence.
  - by rewrite (IH H2).
Qed.

Lemma cb_del_set {A} (cid : nat) (cb : A) (d : list (nat * A)) :
  cid ∉ List.map fst d → cb_del cid (cb_set cid cb d) = d.
Proof.
  induction d as [|[c f] d IH]; intros H.
  - cbn [cb_set cb_del]. by rewrite Nat.eqb_refl.
  - cbn [List.map fst] in H. apply not_elem_of_cons in H as [H1 H2].
    cbn [cb_set]. destruct (Nat.eqb cid c) eqn:E.
    + apply Nat.eqb_eq in E. congruence.
    + cbn [cb_del]. rewrite E. by rewrite (IH H2).
Qed.

Lemma cb_set_keys {A} (cid : nat) (cb : A) (d : list (nat * A)) (x : nat) :
  x ∈ List.map fst (cb_set cid cb d) ↔ x = cid ∨ x ∈ List.map fst d.
Proof.
  induction d as [|[c f] d IH].
  - cbn. rewrite elem_of_cons. split.
    + intros [H|H]; [by left | by apply elem_of_nil in H].
    + intros [H|H]; [by left | by apply elem_of_nil in H].
  - cbn [cb_set]. destruct (Nat.eqb cid c) eqn:E.
    + apply Nat.eqb_eq in E. subst c. cbn [List.map fst]. rewrite !elem_of_cons.
      split; [intros [H|H]; auto | intros [H|[H|H]]; auto].
    + cbn [List.map fst]. rewrite !elem_of_cons, IH.
      split; [intros [H|[H|H]]; auto | intros [H|[H|H]]; auto].
Qed.

Lemma cb_del_keys {A} (cid : nat) (d : list (nat * A)) (x : nat) :
  x ∈ List.map fst (cb_del cid d) → x ∈ List.map fst d.
Proof.
  induction d as [|[c f] d IH]; [done|].
  cbn [cb_del]. destruct (Nat.eqb cid c); cbn [List.map fst]; rewrite ?elem_of_cons.
  - by right.
  - intros [H|H]; [by left | right; by apply IH].
Qed.

Lemma cb_set_NoDup {A} (cid : nat) (cb : A) (d : list (nat * A)) :
  NoDup (List.map fst d) → NoDup (List.map fst (cb_set cid cb d)).
Proof.
  induction d as [|[c f] d IH]; intros H.
  - cbn. apply NoDup_singleton.
  - cbn [List.map fst] in H. apply NoDup_cons in H as [H1 H2].
    cbn [cb_set]. destruct (Nat.eqb cid c) eqn:E.
    + apply Nat.eqb_eq in E. subst c. cbn [List.map fst]. by apply NoDup_cons.
    + apply Nat.eqb_neq in E. cbn [List.map fst]. apply NoDup_cons. split; [|by apply IH].
      rewrite cb_set_keys. intros [Hc|Hc]; [congruence | done].
Qed.

Lemma cb_del_NoDup {A} (cid : nat) (d : list (nat * A)) :
  NoDup (List.map fst d) →
  NoDup (List.map fst (cb_del cid d)) ∧ cid ∉ List.map fst (cb_del cid d).
Proof.
  induction d as [|[c f] d IH]; intros H.
  - cbn. split; [apply NoDup_nil_2 | apply not_elem_of_nil].
  - cbn [List.map fst] in H. apply NoDup_cons in H as [H1 H2].
    cbn [cb_del]. destruct (Nat.eqb cid c) eqn:E.
    + apply Nat.eqb_eq in E. subst c. done.
    + apply Nat.eqb_neq in E. destruct (IH H2) as [IH1 IH2].
      cbn [List.map fst]. split.
      * apply NoDup_cons. split; [|done]. intros Hc. by apply cb_del_keys in Hc.
      * apply not_elem_of_cons. done.
Qed.

Lemma same_registry (w : World) :
  with_self (with_before_enqueues (_before_enqueues (self w)) (self w)) w = w.
Proof. destruct w as [r [] n t u tr]. reflexivity. Qed.

(** X21.  The registry of [before_enqueue] callbacks behaves as a
    dictionary keyed by the callback's identity.  Unregistering a callback
    that is not registered changes nothing (and raises nothing);
    unregistering right after registering a new callback gives the world
    back as it was; the identities in the registry stay distinct under both
    operations, a registered callback is in the registry, and an
    unregistered one is not. *)
Theorem registry_is_a_dict (w : World) (cid : nat) (cb : Job → Res Job) :
  let keys w := List.map fst (_before_enqueues (self w)) in
  (cid ∉ keys w → unregister_before_enqueue cid w = (Ok tt, w))
  ∧ (cid ∉ keys w →
     unregister_before_enqueue cid (snd (register_before_enqueue cid cb w)) = (Ok tt, w))
  ∧ cid ∈ keys (snd (register_before_enqueue cid cb w))
  ∧ (NoDup (keys w) →
     NoDup (keys (snd (register_before_enqueue cid cb w)))
     ∧ NoDup (keys (snd (unregister_before_enqueue cid w)))
     ∧ cid ∉ keys (snd (unregister_before_enqueue cid w))).
Proof.
  intros keys. unfold keys, register_before_enqueue, unregister_before_enqueue, modify_self.
  cbn [snd self with_self _before_enqueues with_before_enqueues].
  split_and!.
  - intros H. rewrite (cb_del_notin _ _ H). by rewrite same_registry.
  - intros H. rewrite (cb_del_set _ _ _ H). f_equal.
    destruct w as [r [] n t u tr]. reflexivity.
  - apply cb_set_keys. by left.
  - intros H. split; [by apply cb_set_NoDup | by apply cb_del_NoDup].
Qed.

Lemma registry_is_a_dict_witness :
  (3%nat ∉ List.map fst (_before_enqueues (self add_world)))
  ∧ unregister_before_enqueue 3 (snd (register_before_enqueue 3 cb_refuse add_world))
    = (Ok tt, add_world).
Proof.
  assert (H : 3%nat ∉ List.map fst (_before_enqueues (self add_world)))
    by apply not_elem_of_nil.
  split; [exact H|].
  exact (proj1 (proj2 (registry_is_a_dict add_world 3 cb_refuse)) H).
Defined.

(** ** Job ids *)

(** X22.  Ids keep jobs apart.  Within a queue two job keys have the same
    id only if they are the same key, and the id of a job is never one of
    the queue's own keys (incomplete, queued, active, schedule, sweep),
    whatever the queue name and the job key. *)
Theorem job_ids_are_apart (q : Queue) (k1 k2 : string) :
  (job_id q k1 = job_id q k2 → k1 = k2)
  ∧ job_id q k1 ∉ [namespace q "incomplete"; namespace q "queued";
                    namespace q "active"; namespace q "schedule";
                    namespace q "sweep"].
Proof.
  split; [|apply job_id_not_a_queue_key].
  unfold job_id. generalize (name q). intros n.
  change (ID_PREFIX +:+ n +:+ ":" +:+ k1) with ("saq:job:" +:+ (n +:+ (":" +:+ k1))).
  change (ID_PREFIX +:+ n +:+ ":" +:+ k2) with ("saq:job:" +:+ (n +:+ (":" +:+ k2))).
  intros H. simpl in H. injection H as H.
  induction n as [|c n IH]; simpl in H; injection H as H; [done | by apply IH].
Qed.

Lemma job_ids_are_apart_witness :
  job_id add_queue "k1" = job_id add_queue "k1" ∧ "k1"%string = "k1"%string.
Proof.
  assert (H : job_id add_queue "k1" = job_id add_queue "k1") by reflexivity.
  split; [exact H|].
  exact (proj1 (job_ids_are_apart add_queue "k1" "k1") H).
Defined.

(** ** enqueue: what is refused, and where the arguments go *)

(** X23.  A job that belongs to another queue is refused.  [enqueue] of a
    job object bound to a queue of another name raises [ValueError] before
    anything else happens: no callback is awaited, the script is not called
    and the world is as it was. *)
Theorem enqueue_foreign_job (w : World) (j : Job) (n : string) :
  queue j = Some n → n ≠ name (self w) →
  enqueue (AJob j) [] w = (Raise (ValueError "registered to a different queue"), w).
Proof.
  intros Hq Hn. apply enqueue_prepare_raise.
  unfold prepare. cbn [split_kwargs res_bind setattrs]. rewrite Hq.
  apply String.eqb_neq in Hn. by rewrite Hn.
Qed.

Lemma enqueue_foreign_job_witness :
  queue (set_queue (Some "other"%string) add_job) = Some "other"%string
  ∧ "other"%string ≠ name (self add_world)
  ∧ enqueue (AJob (set_queue (Some "other"%string) add_job)) [] add_world
    = (Raise (ValueError "registered to a different queue"), add_world).
Proof.
  assert (H1 : queue (set_queue (Some "other"%string) add_job) = Some "other"%string)
    by reflexivity.
  assert (H2 : "other"%string ≠ name (self add_world)) by discriminate.
  split; [exact H1|]. split; [exact H2|].
  exact (enqueue_foreign_job add_world _ _ H1 H2).
Defined.

Lemma dict_set_new {A} (k : string) (v : A) (d : list (string * A)) :
  k ∉ List.map fst d → dict_set k v d = d ++ [(k, v)].
Proof.
  induction d as [|[k' v'] d IH]; intros H; [done|].
  cbn [List.map fst] in H. apply not_elem_of_cons in H as [H1 H2].
  cbn [dict_set]. apply String.eqb_neq in H1. rewrite H1.
  by rewrite (IH H2).
Qed.

Lemma split_kwargs_arguments (kw : pydict) : ∀ acc : pydict,
  Forall (fun kv => is_field (fst kv) = false) kw →
  NoDup (List.map fst (acc ++ kw)) →
  split_kwargs kw [("kwargs"%string, PDict acc)]
  = Ok [("kwargs"%string, PDict (acc ++ kw))].
Proof.
  induction kw as [|[k v] kw IH]; intros acc Hf Hn.
  - by rewrite app_nil_r.
  - apply Forall_cons in Hf as [Hk Hf]. cbn [fst] in Hk.
    cbn [split_kwargs]. rewrite Hk.
    cbn [dict_get String.eqb Ascii.eqb Bool.eqb dict_set].
    assert (Hnew : k ∉ List.map fst acc).
    { rewrite List.map_app in Hn. apply NoDup_app in Hn as (_ & Hd & _).
      intros Hin. apply (Hd k Hin). cbn [List.map fst]. by left. }
    rewrite (dict_set_new _ _ _ Hnew).
    rewrite (IH (acc ++ [(k, v)])); [by rewrite <- app_assoc | done |].
    by rewrite <- app_assoc.
Qed.

(** X24.  Where the arguments of the function go.  [enqueue] called with a
    function name and keyword arguments none of which is a field of [Job]:
    the job it prepares has that function, carries the keyword arguments,
    in order, as its [kwargs], has a fresh key and the dataclass defaults
    elsewhere, and is bound to this queue with status QUEUED and [queued]
    stamped now.  With no callback registered and the id free, that job is
    what [enqueue] returns. *)
Theorem enqueue_function_arguments (w : World) (f : string) (kw : pydict) :
  kw ≠ [] →
  Forall (fun kv => is_field (fst kv) = false) kw →
  NoDup (List.map fst kw) →
  let j := {| function := f; kwargs := Some kw; queue := Some (name (self w));
              key := next_uuid w; timeout := 10; heartbeat := 0; retries := 1;
              ttl := 60; scheduled := 0; attempts := 0; completed := 0;
              queued := now_ms w; started := 0; touched := 0; progress := 0%Q;
              result := PNone; error := None; status := QUEUED |} in
  prepare (self w) (next_uuid w) (now_ms w) (Func f) kw = Ok j
  ∧ (_before_enqueues (self w) = [] →
     ¬ blocked (redis w) (job_id (self w) (next_uuid w))
         (job_id (self w) (next_uuid w) +:+ ":abort") →
     fst (enqueue (Func f) kw w) = Ok (Some j)).
Proof.
  intros Hne Hf Hn j.
  assert (Hp : prepare (self w) (next_uuid w) (now_ms w) (Func f) kw = Ok j).
  { destruct kw as [|[k v] kw]; [done|].
    apply Forall_cons in Hf as [Hk Hf]. cbn [fst] in Hk.
    unfold prepare. cbn [split_kwargs]. rewrite Hk.
    cbn [dict_get dict_set].
    rewrite (split_kwargs_arguments kw [(k, v)] Hf Hn).
    reflexivity. }
  split; [exact Hp|].
  intros Hcb Hfree. apply not_blocked in Hfree as [Hz Ha].
  assert (Hc : fst (_before_enqueue j w) = Ok j).
  { rewrite before_enqueue_unfold, Hcb. reflexivity. }
  assert (Hw : snd (_before_enqueue j w) = w).
  { rewrite before_enqueue_unfold, Hcb. reflexivity. }
  assert (Hi : Job_id j = Ok (job_id (self w) (next_uuid w))) by reflexivity.
  rewrite (enqueue_run _ _ _ _ _ _ Hp Hc Hi). rewrite Hw. cbn [fst run_script].
  by rewrite (enqueue_script_free _ _ _ _ _ Hz Ha).
Qed.

Lemma enqueue_function_arguments_witness :
  [("a"%string, PInt 1); ("b"%string, PInt 2)] ≠ []
  ∧ Forall (fun kv => is_field (fst kv) = false) [("a"%string, PInt 1); ("b"%string, PInt 2)]
  ∧ NoDup (List.map fst [("a"%string, PInt 1); ("b"%string, PInt 2)])
  ∧ ∃ j, prepare (self add_world) (next_uuid add_world) (now_ms add_world) (Func "add")
           [("a"%string, PInt 1); ("b"%string, PInt 2)] = Ok j
         ∧ kwargs j = Some [("a"%string, PInt 1); ("b"%string, PInt 2)].
Proof.
  assert (H1 : [("a"%string, PInt 1); ("b"%string, PInt 2)] ≠ []) by discriminate.
  assert (H2 : Forall (fun kv => is_field (fst kv) = false)
                 [("a"%string, PInt 1); ("b"%string, PInt 2)])
    by (repeat constructor).
  assert (H3 : NoDup (List.map fst [("a"%string, PInt 1); ("b"%string, PInt 2)])).
  { apply NoDup_cons. split.
    - intros H. apply elem_of_cons in H as [H|H]; [discriminate | by apply elem_of_nil in H].
    - apply NoDup_singleton. }
  split; [exact H1|]. split; [exact H2|]. split; [exact H3|].
  eexists. split.
  - exact (proj1 (enqueue_function_arguments add_world "add" _ H1 H2 H3)).
  - reflexivity.
Defined.

(** ** A job scheduled for later *)






(** ** A record written is the record found *)

(** X26.  What [enqueue] and [update] write is what a lookup finds.  For a
    job bound to this queue that the codec gives back: after an [enqueue]
    that returned the job, and after an [update] of the job, [Queue.job] of
    the job's key returns that job ([update]: with [touched] stamped). *)
Theorem written_record_is_found (w : World) (j : Job) :
  queue j = Some (name (self w)) →
  (∀ jf kw w1,
     enqueue jf kw w = (Ok (Some j), w1) → codec_ok (self w) j →
     ∃ w2, job (key j) w1 = (Ok (Some j), w2))
  ∧ (codec_ok (self w) (set_touched (now_ms w) j) →
     ∃ w1 w2,
       update j w = (Ok (set_touched (now_ms w) j), w1)
       ∧ job (key j) w1 = (Ok (Some (set_touched (now_ms w) j)), w2)).
Proof.
  intros Hq. pose proof (Job_id_job_id _ _ Hq) as Hi. split.
  - intros jf kw w1 H Hc.
    destruct (enqueue_some _ _ _ _ _ H) as (i & Hi' & _ & _ & Hr & Hself & _ & Hu).
    rewrite Hi in Hi'. inversion Hi'; subst i.
    eexists. rewrite job_stored. f_equal. unfold stored.
    rewrite Hself, Hr. cbn [r_strings]. rewrite lookup_insert_eq.
    cbn [fmap option_fmap option_map e_val]. by apply decode_encoded.
  - intros Hc. unfold update.
    rewrite (bind_ok _ _ w (now_ms w) w) by reflexivity.
    rewrite (bind_ok _ _ w (job_id (self w) (key j)) w)
      by (unfold lift; by rewrite <- Hi).
    rewrite (bind_ok _ _ w w w) by reflexivity.
    erewrite bind_ok by (by apply redis_call_run).
    erewrite bind_ok by (apply notify_run; exact Hi).
    eexists _, _. split; [reflexivity|].
    rewrite job_stored. f_equal. unfold stored.
    cbn [self redis next_uuid with_trace with_redis exec_cmd fst with_strings
         with_published r_strings].
    rewrite lookup_insert_eq. cbn [fmap option_fmap option_map e_val].
    by apply decode_encoded.
Qed.

Lemma written_record_is_found_witness :
  queue add_job = Some (name (self add_world))
  ∧ enqueue (AJob add_job) [] add_world = (Ok (Some add_job), queued_world)
  ∧ codec_ok (self add_world) add_job
  ∧ ∃ w2, job (key add_job) queued_world = (Ok (Some add_job), w2).
Proof.
  assert (H1 : queue add_job = Some (name (self add_world))) by reflexivity.
  assert (H2 : enqueue (AJob add_job) [] add_world = (Ok (Some add_job), queued_world))
    by (vm_compute; reflexivity).
  assert (H3 : codec_ok (self add_world) add_job)
    by (split; [reflexivity | vm_compute; discriminate]).
  split; [exact H1|]. split; [exact H2|]. split; [exact H3|].
  exact (proj1 (written_record_is_found add_world add_job H1) _ _ _ H2 H3).
Defined.

(** ** abort with a ttl the server refuses *)

(** X27.  [abort] with ttl <= 0 fails half way.  The SETEX of the abort
    marker is refused, so the call raises the server's error; but the
    transaction has run its other commands: the id is gone from [queued] and
    from [incomplete].  The job is not finished, nothing is published, no
    marker is set, and [active] is left as it was. *)
Theorem abort_bad_ttl (w : World) (j : Job) (err : string) (ttl_ : Z) (i : string) :
  ttl_ ≤ 0 → Job_id j = Ok i →
  ∃ w',
    abort j err ttl_ w
    = (Raise (ResponseError "invalid expire time in 'setex' command"), w')
    ∧ trace w'
      = trace w ++ [EvPipeline [LREM K_queued 0 i; ZREM i; EXPIRE i (ttl_ + 1);
                                SETEX (i +:+ ":abort") ttl_ err]]
    ∧ r_queued (redis w') = remove_all i (r_queued (redis w))
    ∧ r_incomplete (redis w') = delete i (r_incomplete (redis w))
    ∧ r_active (redis w') = r_active (redis w)
    ∧ r_published (redis w') = r_published (redis w)
    ∧ r_strings (redis w') !! (i +:+ ":abort") = r_strings (redis w) !! (i +:+ ":abort")
    ∧ self w' = self w.
Proof.
  intros Httl Hi. unfold abort.
  rewrite (bind_ok _ _ w i w) by (unfold lift; by rewrite Hi).
  rewrite (bind_ok _ _ w (i +:+ ":abort") w)
    by (unfold lift; by rewrite (Job_abort_id_of _ _ Hi)).
  set (cmds := [LREM K_queued 0 i; ZREM i; EXPIRE i (ttl_ + 1);
                SETEX (i +:+ ":abort") ttl_ err]).
  assert (Hp : pipeline_execute cmds w
               = (Raise (ResponseError "invalid expire time in 'setex' command"),
                  with_trace (trace w ++ [EvPipeline cmds])
                    (with_redis (fst (exec_cmds cmds (redis w))) w))).
  { unfold pipeline_execute, cmds. cbn [exec_cmds exec_cmd].
    replace (ttl_ <=? 0) with true by (symmetry; by apply Z.leb_le).
    destruct (r_strings _ !! i); [destruct (ttl_ + 1 <=? 0)|]; reflexivity. }
  rewrite (bind_raise _ _ _ _ _ Hp). eexists. split; [reflexivity|].
  cbn [trace redis self with_trace with_redis]. unfold cmds.
  cbn [exec_cmds exec_cmd].
  replace (ttl_ <=? 0) with true by (symmetry; by apply Z.leb_le).
  pose proof (append_abort_ne i) as Hne.
  destruct (r_strings _ !! i) eqn:E; [destruct (ttl_ + 1 <=? 0)|];
    cbn; split_and!; try reflexivity.
  - by rewrite lookup_delete_ne.
  - by rewrite lookup_insert_ne.
Qed.

Lemma abort_bad_ttl_witness :
  0 ≤ 0 ∧ Job_id add_job = Ok "saq:job:q:k1"%string
  ∧ ∃ w', abort add_job "stop" 0 queued_world
          = (Raise (ResponseError "invalid expire time in 'setex' command"), w')
          ∧ r_queued (redis w') = [].
Proof.
  assert (H0 : 0 ≤ 0) by lia.
  assert (H1 : Job_id add_job = Ok "saq:job:q:k1"%string) by reflexivity.
  split; [exact H0|]. split; [exact H1|].
  destruct (abort_bad_ttl queued_world add_job "stop" 0 _ H0 H1)
    as (w' & Ha & _ & Hq & _).
  exists w'. split; [exact Ha|]. rewrite Hq. vm_compute. reflexivity.
Defined.

(** ** An id without record, and apply *)

(** X28.  An id whose record is gone is stranded by [dequeue].  When the
    id at the tail of [queued] has no record (nothing, or empty bytes, under
    it), [dequeue] returns [None], as it does on a timeout, but the id has
    left [queued] and is now at the head of [active]; its score in
    [incomplete] is as it was. *)
Theorem dequeue_strands_missing_record (w : World) (tmo : Z) (l : list string)
    (i : string) :
  r_queued (redis w) = l ++ [i] →
  match r_strings (redis w) !! i with
  | None => True
  | Some e => e_val e = ""%string
  end →
  ∃ w',
    dequeue tmo w = (Ok None, w')
    ∧ r_queued (redis w') = l
    ∧ r_active (redis w') = i :: r_active (redis w)
    ∧ r_incomplete (redis w') = r_incomplete (redis w).
Proof.
  intros Hq Hno. eexists. split.
  - rewrite (dequeue_tail_run _ tmo _ _ Hq). f_equal.
    destruct (r_strings (redis w) !! i) as [e|]; [|reflexivity].
    cbn [fmap option_fmap option_map]. by rewrite Hno.
  - split_and!; reflexivity.
Qed.

Lemma dequeue_strands_missing_record_witness :
  r_queued (redis (with_redis (with_list K_queued ["gone"%string] empty_redis) add_world))
  = [] ++ ["gone"%string]
  ∧ ∃ w', dequeue 1 (with_redis (with_list K_queued ["gone"%string] empty_redis) add_world)
          = (Ok None, w')
          ∧ r_active (redis w') = ["gone"%string].
Proof.
  assert (H : r_queued (redis (with_redis (with_list K_queued ["gone"%string] empty_redis)
                                 add_world))
              = [] ++ ["gone"%string]) by reflexivity.
  split; [exact H|].
  destruct (dequeue_strands_missing_record _ 1 _ _ H I) as (w' & Hd & _ & Ha & _).
  exists w'. split; [exact Hd | exact Ha].
Defined.

(** X29.  What [apply] returns.  Taken from the aggregation step of [map]
    for its single job: when the job's record is present and the job is not
    FAILED or ABORTED, [apply] returns the job's result; when the job is
    FAILED or ABORTED it raises the [JobError] of that job; and when the
    record is gone (deleted on finish with a negative ttl, or expired) it
    returns [None]. *)
Theorem apply_returns (w : World) (job_key : string) (oj : option Job) :
  stored w job_key = Ok oj →
  fst (apply_aggregate job_key w)
  = match oj with
    | None => Ok None
    | Some j =>
        if unsuccessful j then Raise (JobError j)
        else Ok (Some (EResult (result j)))
    end.
Proof.
  intros H.
  assert (HF : Forall2 (fun k oj => stored w k = Ok oj) [job_key] [oj])
    by (constructor; [exact H | constructor]).
  assert (Hm : fst (map_aggregate [job_key] false w) = collect_results false [oj] []).
  { unfold map_aggregate, bind. by rewrite (fetch_jobs_ok _ _ _ HF). }
  unfold apply_aggregate, bind.
  destruct (map_aggregate [job_key] false w) as [res w1]. cbn [fst] in Hm. subst res.
  destruct oj as [j|]; cbn [collect_results]; [|reflexivity].
  destruct (unsuccessful j); reflexivity.
Qed.

Lemma apply_returns_witness :
  stored (snd (add_run add_world)) "k1" = Ok None
  ∧ fst (apply_aggregate "k1" (snd (add_run add_world))) = Ok None.
Proof.
  assert (H : stored (snd (add_run add_world)) "k1" = Ok None)
    by (vm_compute; reflexivity).
  split; [exact H|].
  exact (apply_returns _ _ _ H).
Defined.

(** ** The heartbeat *)



